(** * Uncloud: the fan-out RPC director and the WireGuard network driver

    A shallow embedding of

      - [internal/machine/api/proxy/director.go]: the [Director] that routes a
        gRPC call to the local backend, to one remote backend or to many;
      - the WireGuard network driver ([WireGuardNetwork]): its creation,
        [Configure], the control loop [Run], watcher notification and
        [Cleanup];
      - the root command of the command line: the connection it makes of the
        [--connect] flag.

    Go pointers to backends are modelled as values carrying an allocation
    number, Go maps as [gmap], a nil map as [None], [error] results as
    [option] of an error value, and the kernel (netlink, wgctrl) as an
    explicit state with a fault plan; the kernel's rules for the addresses
    of an interface are parameters of the driver. *)

From stdpp Require Import base gmap strings list pretty.

Open Scope string_scope.
Open Scope list_scope.
Open Scope nat_scope.

(* ===================================================================== *)
(** ** Package proxy: the Director                                        *)
(* ===================================================================== *)

Module Proxy.

(** [proxy.Mode] of grpc-proxy. *)
Inductive Mode := One2One | One2Many.

(** The gRPC status codes the Director produces. *)
Inductive Code := InvalidArgument | Internal.

(** [status.Error(code, msg)]. *)
Record Status := mkStatus { st_code : Code; st_msg : string }.

(** [metadata.MD] is [map[string][]string]. *)
Abbreviation MD := (gmap string (list string)).

(** [*LocalBackend]: built by [NewLocalBackend(sockPath, address)]. *)
Record LocalBackend := mkLocal { sockPath : string; lb_address : string }.

(** [*RemoteBackend]: [rb_ptr] is the identity of the allocated object (the
    number of the [NewRemoteBackend] call that built it). *)
Record RemoteBackend := mkRemote { rb_ptr : nat; rb_addr : string; rb_port : Z }.

(** [proxy.Backend], an interface value; [NilBackend] is the zero value that
    [make([]proxy.Backend, n)] fills a slice with. *)
Inductive Backend :=
  | NilBackend
  | Local (b : LocalBackend)
  | Remote (b : RemoteBackend).

#[global] Instance Mode_eq_dec : EqDecision Mode.
Proof. solve_decision. Defined.
#[global] Instance Code_eq_dec : EqDecision Code.
Proof. solve_decision. Defined.
#[global] Instance Status_eq_dec : EqDecision Status.
Proof. solve_decision. Defined.
#[global] Instance LocalBackend_eq_dec : EqDecision LocalBackend.
Proof. solve_decision. Defined.
#[global] Instance RemoteBackend_eq_dec : EqDecision RemoteBackend.
Proof. solve_decision. Defined.
#[global] Instance Backend_eq_dec : EqDecision Backend.
Proof. solve_decision. Defined.

(** The [Director] struct. The two mutexes carry no data; [remoteBackends]
    is the [sync.Map] from address to [*RemoteBackend]. *)
Record Director := mkDirector {
  localBackend : LocalBackend;
  remotePort : Z;
  remoteBackends : gmap string RemoteBackend;
  localAddress : string
}.

(** The director together with the heap of remote backends: [dials] counts
    the calls of [NewRemoteBackend] made so far, [closed] logs every
    [RemoteBackend.Close] by the identity of the backend closed. *)
Record World := mkWorld {
  dir : Director;
  dials : nat;
  closed : list nat
}.

Definition NewLocalBackend (sock addr : string) : LocalBackend := mkLocal sock addr.

Definition NewDirector (localSockPath : string) (port : Z) : Director :=
  mkDirector (NewLocalBackend localSockPath "") port ∅ "".

Definition UpdateLocalAddress (addr : string) (d : Director) : Director :=
  mkDirector (NewLocalBackend (sockPath (localBackend d)) addr)
             (remotePort d) (remoteBackends d) addr.

Definition set_cache (c : gmap string RemoteBackend) (w : World) : World :=
  mkWorld (mkDirector (localBackend (dir w)) (remotePort (dir w)) c
                      (localAddress (dir w)))
          (dials w) (closed w).

(** [sync.Map.Load]. *)
Definition Load (k : string) (m : gmap string RemoteBackend) : option RemoteBackend :=
  m !! k.

(** [sync.Map.LoadOrStore]: the existing value and [true] when the key is
    present, otherwise the map stores the given value and [false] is
    reported. *)
Definition LoadOrStore (k : string) (v : RemoteBackend) (m : gmap string RemoteBackend)
  : RemoteBackend * bool * gmap string RemoteBackend :=
  match m !! k with
  | Some existing => (existing, true, m)
  | None => (v, false, <[k := v]> m)
  end.

(** [backend.Close()] on a remote backend. *)
Definition CloseRemote (b : RemoteBackend) (w : World) : World :=
  mkWorld (dir w) (dials w) (closed w ++ [rb_ptr b]).

Section WithDial.

(** [dial_error n addr port] is the error, if any, of the [n]-th call of
    [NewRemoteBackend], made for [addr] and [port]. *)
Variable dial_error : nat → string → Z → option string.

(** Modelled from the spec: NewRemoteBackend (the remote backend's
    constructor is not among the sources). A remote backend represents the
    peer reachable at an address at the fixed remote port; its construction
    may fail. Every call allocates a fresh identity. *)
Definition NewRemoteBackend (addr : string) (port : Z) (w : World)
  : World * (RemoteBackend + string) :=
  let w' := mkWorld (dir w) (S (dials w)) (closed w) in
  match dial_error (dials w) addr port with
  | Some err => (w', inr err)
  | None => (w', inl (mkRemote (dials w) addr port))
  end.

(** [Director.remoteBackend], run without interference. *)
Definition remoteBackend (addr : string) (w : World) : World * (RemoteBackend + string) :=
  match Load addr (remoteBackends (dir w)) with
  | Some b => (w, inl b)
  | None =>
    match NewRemoteBackend addr (remotePort (dir w)) w with
    | (w1, inr err) => (w1, inr err)
    | (w1, inl backend) =>
      match LoadOrStore addr backend (remoteBackends (dir w1)) with
      | (existing, true, _) => (CloseRemote backend w1, inl existing)
      | (_, false, c) => (set_cache c w1, inl backend)
      end
    end
  end.

(** The loop of [Director.Director] over [machines], from index [i]:
    [backends[i] = ...] for each address, leaving at the first error. *)
Fixpoint fill (localAddr : string) (local : LocalBackend) (i : nat)
    (machines : list string) (backends : list Backend) (w : World)
  : World * (list Backend + string) :=
  match machines with
  | [] => (w, inl backends)
  | addr :: rest =>
    if decide (addr = localAddr) then
      fill localAddr local (S i) rest (<[i := Local local]> backends) w
    else
      match remoteBackend addr w with
      | (w', inr err) => (w', inr err)
      | (w', inl backend) =>
        fill localAddr local (S i) rest (<[i := Remote backend]> backends) w'
      end
  end.

(** [Director.Director(ctx, fullMethodName)]. [ctx] is the result of
    [metadata.FromIncomingContext]: [None] when the context has no incoming
    metadata. A nil slice of backends is the empty list. *)
Definition Director_Director (ctx : option MD) (fullMethodName : string) (w : World)
  : World * (Mode * list Backend * option Status) :=
  match ctx with
  | None => (w, (One2One, [Local (localBackend (dir w))], None))
  | Some md =>
    match md !! "proxy-authority" with
    | Some _ => (w, (One2One, [Local (localBackend (dir w))], None))
    | None =>
      match md !! "machines" with
      | None => (w, (One2One, [Local (localBackend (dir w))], None))
      | Some machines =>
        if decide (length machines = 0) then
          (w, (One2One, [], Some (mkStatus InvalidArgument "no machines specified")))
        else
          let localAddr := localAddress (dir w) in
          let local := localBackend (dir w) in
          let backends := replicate (length machines) NilBackend in
          match fill localAddr local 0 machines backends w with
          | (w', inr err) => (w', (One2One, [], Some (mkStatus Internal err)))
          | (w', inl backends) =>
            if decide (length backends = 1) then (w', (One2One, backends, None))
            else (w', (One2Many, backends, None))
          end
      end
    end
  end.

(** *** [remoteBackend] under interleaving

    [sync.Map.Load] and [sync.Map.LoadOrStore] are atomic, and
    [NewRemoteBackend] and [Close] touch only the caller's own backend, so a
    call of [remoteBackend] is a sequence of at most four atomic steps. A
    thread's position in the function: *)
Inductive rb_pc :=
  | RbStart (addr : string)
    (* at [d.remoteBackends.Load(addr)] *)
  | RbMiss (addr : string)
    (* the load missed; at [NewRemoteBackend(addr, d.remotePort)] *)
  | RbBuilt (addr : string) (backend : RemoteBackend)
    (* at [d.remoteBackends.LoadOrStore(addr, backend)] *)
  | RbLost (backend existing : RemoteBackend)
    (* [loaded] was true; at [backend.Close()] *)
  | RbDone (r : RemoteBackend + string).
    (* returned *)

Definition rb_step (pc : rb_pc) (w : World) : rb_pc * World :=
  match pc with
  | RbStart addr =>
    match Load addr (remoteBackends (dir w)) with
    | Some b => (RbDone (inl b), w)
    | None => (RbMiss addr, w)
    end
  | RbMiss addr =>
    match NewRemoteBackend addr (remotePort (dir w)) w with
    | (w1, inr err) => (RbDone (inr err), w1)
    | (w1, inl backend) => (RbBuilt addr backend, w1)
    end
  | RbBuilt addr backend =>
    match LoadOrStore addr backend (remoteBackends (dir w)) with
    | (existing, true, _) => (RbLost backend existing, w)
    | (_, false, c) => (RbDone (inl backend), set_cache c w)
    end
  | RbLost backend existing => (RbDone (inl existing), CloseRemote backend w)
  | RbDone r => (RbDone r, w)
  end.

(** Thread [t] takes one step. *)
Definition sched_step (s : list rb_pc * World) (t : nat) : list rb_pc * World :=
  match s.1 !! t with
  | Some pc => let '(pc', w') := rb_step pc s.2 in (<[t := pc']> s.1, w')
  | None => s
  end.

(** The threads run as the schedule says. *)
Definition run_schedule (sch : list nat) (s : list rb_pc * World) : list rb_pc * World :=
  foldl sched_step s sch.

Definition rb_done (pc : rb_pc) : bool :=
  match pc with RbDone _ => true | _ => false end.

(** The steps a thread has yet to take, at most. *)
Definition rb_left (pc : rb_pc) : nat :=
  match pc with
  | RbStart _ => 4
  | RbMiss _ => 3
  | RbBuilt _ _ => 2
  | RbLost _ _ => 1
  | RbDone _ => 0
  end.

(** The steps the schedule gives to thread [t]. *)
Definition steps_of (t : nat) (sch : list nat) : nat := length (filter (λ x, x = t) sch).

(** The backend a thread has built and has neither stored nor closed. *)
Definition rb_held (pc : rb_pc) : list nat :=
  match pc with
  | RbBuilt _ b | RbLost b _ => [rb_ptr b]
  | _ => []
  end.

Definition held (ths : list rb_pc) : list nat := ths ≫= rb_held.

(** A thread whose [NewRemoteBackend] failed. *)
Definition rb_failed (pc : rb_pc) : list unit :=
  match pc with RbDone (inr _) => [()] | _ => [] end.

Definition failures (ths : list rb_pc) : nat := length (ths ≫= rb_failed).

(** What a thread called for [addr] knows at each position. *)
Definition pc_ok (w : World) (addr : string) (pc : rb_pc) : Prop :=
  match pc with
  | RbStart a | RbMiss a | RbBuilt a _ => a = addr
  | RbLost _ existing => remoteBackends (dir w) !! addr = Some existing
  | RbDone (inl b) => remoteBackends (dir w) !! addr = Some b
  | RbDone (inr _) => True
  end.

(** The backends built since [w0] that are not in the cache, [owned], are
    pairwise distinct, and none of them is cached. *)
Definition owned_ok (w0 w : World) (owned : list nat) : Prop :=
  NoDup owned ∧
  (∀ x, x ∈ owned → dials w0 ≤ x < dials w) ∧
  (∀ a b, remoteBackends (dir w) !! a = Some b → rb_ptr b ∉ owned).

(** The invariant of the threads calling [remoteBackend] for [addrs], from
    the world [w0]; [cl] are the backends closed since. *)
Definition race_inv (addrs : list string) (w0 : World) (ths : list rb_pc) (w : World)
    (cl : list nat) : Prop :=
  closed w = closed w0 ++ cl ∧
  dials w0 ≤ dials w ∧
  owned_ok w0 w (held ths ++ cl) ∧
  (∀ a b, remoteBackends (dir w) !! a = Some b → rb_ptr b < dials w) ∧
  (∀ a b, remoteBackends (dir w0) !! a = Some b → remoteBackends (dir w) !! a = Some b) ∧
  Forall2 (pc_ok w) addrs ths ∧
  size (remoteBackends (dir w)) + length cl + failures ths + length (held ths) + dials w0
    = size (remoteBackends (dir w0)) + dials w.

End WithDial.

(** [extends w w']: [w'] is [w] with some remote backends built and cached.
    The director's own fields and the log of closes are those of [w]; an
    address cached in [w] keeps its backend; an address cached only in [w']
    has a backend built since [w], for that address and the remote port. *)
Definition extends (w w' : World) : Prop :=
  localBackend (dir w') = localBackend (dir w) ∧
  localAddress (dir w') = localAddress (dir w) ∧
  remotePort (dir w') = remotePort (dir w) ∧
  closed w' = closed w ∧
  (dials w ≤ dials w')%nat ∧
  ∀ addr,
    remoteBackends (dir w') !! addr = remoteBackends (dir w) !! addr ∨
    (remoteBackends (dir w) !! addr = None ∧
     ∃ id, (dials w ≤ id < dials w')%nat ∧
           remoteBackends (dir w') !! addr = Some (mkRemote id addr (remotePort (dir w)))).

(** Metadata of a call that a peer forwarded and that still names machines. *)
Definition forwarded_md (machines : list string) : MD :=
  <["proxy-authority" := ["10.210.1.1:51000"]]> (<["machines" := machines]> ∅).

Definition plain_md (machines : list string) : MD := <["machines" := machines]> ∅.

(** A dialer that never fails, and one that always fails. *)
Definition dial_ok : nat → string → Z → option string := λ _ _ _, None.
Definition dial_refused : nat → string → Z → option string :=
  λ _ _ _, Some "connection refused".

(** Two calls of [remoteBackend] for one address, and a schedule on which
    both miss the cache, both build a backend, and the second loses. *)
Definition race_addrs : list string := ["10.210.0.2"; "10.210.0.2"].
Definition race_schedule : list nat := [0; 1; 0; 1; 0; 1; 1].

(** A freshly built director whose local address has been set. *)
Definition sample_world : World :=
  mkWorld (UpdateLocalAddress "10.210.0.1" (NewDirector "/run/uncloud.sock" 51000%Z)) 0 [].

(** *** The director over its life

    The operations below complete the director: flushing the cache, and
    the histories of calls a director goes through, run one after another. *)

(** [d.remoteBackends.Delete(key)]. *)
Definition del_cache (k : string) (w : World) : World :=
  set_cache (delete k (remoteBackends (dir w))) w.

(** [sync.Map.Range] visits every entry once, in no specified order:
    [order] is the order of one traversal. The callback closes the backend
    and deletes its key. *)
Definition Range_flush (order : list (string * RemoteBackend)) (w : World) : World :=
  foldl (λ w kb, del_cache kb.1 (CloseRemote kb.2 w)) w order.

(** [Director.FlushRemoteBackends], the traversal taken in the order of the
    map's listing. *)
Definition FlushRemoteBackends (w : World) : World :=
  Range_flush (map_to_list (remoteBackends (dir w))) w.

(** [Director.UpdateLocalAddress] on the director of a world. *)
Definition Director_UpdateLocalAddress (addr : string) (w : World) : World :=
  mkWorld (UpdateLocalAddress addr (dir w)) (dials w) (closed w).

(** The calls made on a director. *)
Inductive DirOp :=
  | OpUpdateLocalAddress (addr : string)
  | OpDirector (ctx : option MD) (fullMethodName : string)
  | OpFlushRemoteBackends.

Definition do_op (dial_error : nat → string → Z → option string) (w : World) (op : DirOp)
  : World :=
  match op with
  | OpUpdateLocalAddress addr => Director_UpdateLocalAddress addr w
  | OpDirector ctx m => (Director_Director dial_error ctx m w).1
  | OpFlushRemoteBackends => FlushRemoteBackends w
  end.

(** A history of calls, none overlapping another. *)
Definition run_ops (dial_error : nat → string → Z → option string) (ops : list DirOp)
    (w : World) : World :=
  foldl (do_op dial_error) w ops.

(** The world of a director fresh from [NewDirector]. *)
Definition new_world (localSockPath : string) (port : Z) : World :=
  mkWorld (NewDirector localSockPath port) 0 [].

(** The director is as its history from [NewDirector sock port] leaves it:
    the local backend is for the socket and the current local address; every
    cached backend has been built, is open, and is for its key and the
    port; only built backends have been closed. *)
Definition live (sock : string) (port : Z) (w : World) : Prop :=
  localBackend (dir w) = NewLocalBackend sock (localAddress (dir w)) ∧
  remotePort (dir w) = port ∧
  (∀ a b, remoteBackends (dir w) !! a = Some b →
     rb_ptr b < dials w ∧ (rb_ptr b ∉ closed w) ∧ rb_addr b = a ∧ rb_port b = port) ∧
  (∀ x, x ∈ closed w → x < dials w).

(** The sample director after a call that reached two peers. *)
Definition cached_world : World :=
  (Director_Director dial_ok (Some (plain_md ["10.210.0.2"; "10.210.0.3"])) "" sample_world).1.

(** A history: the local address is set, two peers are called, the cache is
    flushed. *)
Definition sample_ops : list DirOp :=
  [OpUpdateLocalAddress "10.210.0.1";
   OpDirector (Some (plain_md ["10.210.0.2"; "10.210.0.3"])) "/api.Machine/Inspect";
   OpFlushRemoteBackends].


End Proxy.

(* ===================================================================== *)
(** ** Package network: the WireGuard network driver                      *)
(* ===================================================================== *)

Module Network.

Definition WireGuardInterfaceName : string := "uncloud".

(** [unix.EEXIST] and [unix.IFF_UP]. *)
Definition EEXIST : Z := 17.
Definition IFF_UP : Z := 1.

(** Go [error] values as the driver builds and inspects them. *)
Inductive error :=
  | Errno (e : Z)                      (* a [syscall.Errno] from the kernel *)
  | LinkNotFoundError                  (* [netlink.LinkNotFoundError] *)
  | ErrorNew (msg : string)            (* [errors.New], [fmt.Errorf] with %v *)
  | Wrapf (msg : string) (err : error) (* [fmt.Errorf("msg: %w", err)] *).

(** [errors.Is(err, errno)]. *)
Fixpoint errors_Is (err : error) (target : Z) : bool :=
  match err with
  | Errno e => bool_decide (e = target)
  | Wrapf _ e => errors_Is e target
  | _ => false
  end.

(** [netip.Addr]; [AddrZero] is the zero value, which is not a valid
    address. The payload is the address as a number. *)
Inductive Addr := AddrZero | Addr4 (a : Z) | Addr6 (a : Z).

(** [netip.Prefix], [netip.AddrPort]. *)
Record Prefix := mkPrefix { pfx_addr : Addr; pfx_bits : Z }.
Record AddrPort := mkAddrPort { ap_addr : Addr; ap_port : Z }.

(** [net.IPNet] as the kernel holds an interface address or a route
    destination: an address and the number of ones of its mask. *)
Record IPNet := mkIPNet { net_ip : Addr; net_ones : Z }.

(** [netlink.Route]; [Dst] is a pointer and nil for a default route. *)
Record Route := mkRoute { LinkIndex : Z; Scope : Z; Dst : option IPNet }.
Definition SCOPE_LINK : Z := 253.

(** The attributes of a [netlink.Link] as fetched by [LinkByName]. *)
Record Link := mkLink { Name : string; Index : Z; Flags : Z }.

(** [secret.Secret] is a byte string. *)
Abbreviation Secret := string.

#[global] Instance error_eq_dec : EqDecision error.
Proof. solve_decision. Defined.
#[global] Instance Addr_eq_dec : EqDecision Addr.
Proof. solve_decision. Defined.
#[global] Instance Prefix_eq_dec : EqDecision Prefix.
Proof. solve_decision. Defined.
#[global] Instance AddrPort_eq_dec : EqDecision AddrPort.
Proof. solve_decision. Defined.
#[global] Instance IPNet_eq_dec : EqDecision IPNet.
Proof. solve_decision. Defined.
#[global] Instance Route_eq_dec : EqDecision Route.
Proof. solve_decision. Defined.
#[global] Instance Link_eq_dec : EqDecision Link.
Proof. solve_decision. Defined.

(** Modelled from the spec: PeerConfig (its declaration is not among the
    sources). A per-machine record: a subnet prefix, a management IP, the
    candidate endpoints, the selected endpoint and the tunnel public key. *)
Record PeerConfig := mkPeerConfig {
  pc_Subnet : option Prefix;
  pc_ManagementIP : Addr;
  Endpoint : option AddrPort;
  AllEndpoints : list AddrPort;
  PublicKey : Secret
}.

(** Modelled from the spec: Config (its declaration is not among the
    sources); of its fields the driver reads the subnet, the management IP
    and the peers. *)
Record Config := mkConfig {
  Subnet : Prefix;
  ManagementIP : Addr;
  Peers : list PeerConfig
}.

(** [wgtypes.Peer]: a peer as the WireGuard device reports it. *)
Record wgPeer := mkWgPeer {
  wg_PublicKey : Secret;
  wg_Endpoint : option AddrPort;
  wg_LastHandshakeTime : Z
}.

(** [wgtypes.PeerConfig] and [wgtypes.Config]. *)
Record wgPeerConfig := mkWgPeerConfig {
  wpc_PublicKey : Secret;
  wpc_UpdateOnly : bool;
  wpc_Remove : bool;
  wpc_Endpoint : option AddrPort
}.
Record wgConfig := mkWgConfig { ReplacePeers : bool; wgc_Peers : list wgPeerConfig }.

Inductive PeerStatus := StatusUp | StatusDown | StatusUnknown.

(** Modelled from the spec: peer (its declaration is not among the
    sources). The peer's configuration with the selected endpoint, the
    derived status, and the bookkeeping for rotation. *)
Record peer := mkPeer {
  config : PeerConfig;
  status : PeerStatus;
  lastHandshake : Z;
  lastEndpointChange : Z
}.

Record EndpointChangeEvent := mkEvent { ev_PublicKey : Secret; ev_Endpoint : AddrPort }.

#[global] Instance PeerConfig_eq_dec : EqDecision PeerConfig.
Proof. solve_decision. Defined.
#[global] Instance wgPeer_eq_dec : EqDecision wgPeer.
Proof. solve_decision. Defined.
#[global] Instance PeerStatus_eq_dec : EqDecision PeerStatus.
Proof. solve_decision. Defined.
#[global] Instance peer_eq_dec : EqDecision peer.
Proof. solve_decision. Defined.
#[global] Instance EndpointChangeEvent_eq_dec : EqDecision EndpointChangeEvent.
Proof. solve_decision. Defined.

(** The [WireGuardNetwork] struct, without its mutex. A nil [link] and a
    nil [peers] map are [None]; a watcher is the identity of its channel. *)
Record WireGuardNetwork := mkNet {
  link : option Link;
  peers : option (gmap string peer);
  watchers : list nat;
  running : bool
}.

(** The kernel's view of the WireGuard interface: the link itself, its
    addresses and routes in the order [AddrList] and [RouteList] give them,
    the peers of the WireGuard device, and the number of requests served. *)
Record Kernel := mkKernel {
  k_link : option Link;
  k_addrs : list IPNet;
  k_routes : list Route;
  k_peers : list wgPeer;
  k_calls : nat
}.

Inductive Level := Debug | Info | Warn | Error.

(** A [slog] record: level, message and the value of the "err" attribute. *)
Record LogEntry := mkLog { lvl : Level; msg : string; log_err : option error }.

(** Everything the driver reads and writes: the network object, the kernel,
    the channels made by [WatchEndpoints] ([chan_next] is the next identity,
    [chan_closed] the channels closed, [chan_sent] the events received by
    the watchers, latest last), the number of [select] statements run, the
    wall clock in milliseconds, and the log. *)
Record State := mkState {
  net : WireGuardNetwork;
  kernel : Kernel;
  chan_next : nat;
  chan_closed : list nat;
  chan_sent : list (nat * EndpointChangeEvent);
  selects : nat;
  now : Z;
  logs : list LogEntry
}.

(** *** Computations: state passing with panics *)

Inductive outcome (A : Type) :=
  | Ret (a : A)
  | Panic (why : string).
Arguments Ret {A} a.
Arguments Panic {A} why.

Definition M (A : Type) : Type := State → outcome A * State.

Definition ret {A} (a : A) : M A := λ s, (Ret a, s).
Definition panic {A} (why : string) : M A := λ s, (Panic why, s).
Definition bind {A B} (c : M A) (k : A → M B) : M B :=
  λ s, match c s with
       | (Ret a, s') => k a s'
       | (Panic why, s') => (Panic why, s')
       end.

Notation "'let*' x := c 'in' k" := (bind c (λ x, k))
  (at level 10, x name, c at level 100, k at level 200).
Notation "'do' c 'in' k" := (bind c (λ _, k))
  (at level 10, c at level 100, k at level 200).
(** [if err := c; err != nil { return w(err) }], then [k]. *)
Notation "'check' c 'orelse' w 'in' k" :=
  (bind c (λ r, match r with Some err => ret (Some (w err)) | None => k end))
  (at level 10, c at level 100, w at level 100, k at level 200).

Definition get : M State := λ s, (Ret s, s).
Definition get_net : M WireGuardNetwork := λ s, (Ret (net s), s).
Definition put_net (n : WireGuardNetwork) : M unit :=
  λ s, (Ret tt, mkState n (kernel s) (chan_next s) (chan_closed s) (chan_sent s)
                        (selects s) (now s) (logs s)).
Definition get_kernel : M Kernel := λ s, (Ret (kernel s), s).
Definition put_kernel (k : Kernel) : M unit :=
  λ s, (Ret tt, mkState (net s) k (chan_next s) (chan_closed s) (chan_sent s)
                        (selects s) (now s) (logs s)).
Definition put_chans (next : nat) (cl : list nat) (sent : list (nat * EndpointChangeEvent))
  : M unit :=
  λ s, (Ret tt, mkState (net s) (kernel s) next cl sent (selects s) (now s) (logs s)).
(** The channel [ch] hands the event [e] to its receiver. *)
Definition chan_send (ch : nat) (e : EndpointChangeEvent) : M unit :=
  λ s, (Ret tt, mkState (net s) (kernel s) (chan_next s) (chan_closed s)
                        (chan_sent s ++ [(ch, e)]) (selects s) (now s) (logs s)).
(** A [select] has run, and took [d] milliseconds. *)
Definition selected (d : Z) : M unit :=
  λ s, (Ret tt, mkState (net s) (kernel s) (chan_next s) (chan_closed s) (chan_sent s)
                        (S (selects s)) (now s + d) (logs s)).
(** The clock shows at least [t]. *)
Definition clock_at (t : Z) : M unit :=
  λ s, (Ret tt, mkState (net s) (kernel s) (chan_next s) (chan_closed s) (chan_sent s)
                        (selects s) (Z.max (now s) t) (logs s)).
Definition slog (l : Level) (m : string) (e : option error) : M unit :=
  λ s, (Ret tt, mkState (net s) (kernel s) (chan_next s) (chan_closed s) (chan_sent s)
                        (selects s) (now s) (logs s ++ [mkLog l m e])).

Definition set_link (l : option Link) (n : WireGuardNetwork) : WireGuardNetwork :=
  mkNet l (peers n) (watchers n) (running n).
Definition set_peers (p : option (gmap string peer)) (n : WireGuardNetwork) : WireGuardNetwork :=
  mkNet (link n) p (watchers n) (running n).
Definition set_watchers (w : list nat) (n : WireGuardNetwork) : WireGuardNetwork :=
  mkNet (link n) (peers n) w (running n).
Definition set_running (r : bool) (n : WireGuardNetwork) : WireGuardNetwork :=
  mkNet (link n) (peers n) (watchers n) r.

(** [n.link.Attrs()]: a nil link is a nil pointer dereference. *)
Definition link_Attrs : M Link :=
  let* n := get_net in
  match link n with
  | Some l => ret l
  | None => panic "invalid memory address or nil pointer dereference"
  end.

(** [&WireGuardNetwork{link: link}], as [NewWireGuardNetwork] returns it. *)
Definition NewWireGuardNetwork_of (l : Link) : WireGuardNetwork :=
  mkNet (Some l) None [] false.

(** [WatchEndpoints]: a fresh unbuffered channel, appended to the watchers. *)
Definition WatchEndpoints : M nat :=
  let* s := get in
  let ch := chan_next s in
  do put_chans (S ch) (chan_closed s) (chan_sent s) in
  do put_net (set_watchers (watchers (net s) ++ [ch]) (net s)) in
  ret ch.

(** [close(ch)]: closing a closed channel panics. *)
Definition close (ch : nat) : M unit :=
  let* s := get in
  if decide (ch ∈ chan_closed s) then panic "close of closed channel"
  else put_chans (chan_next s) (chan_closed s ++ [ch]) (chan_sent s).

(** The cases of the [select] in [notifyWatchers]. *)
Inductive SelectCase := SendReady | TimeAfter | CtxDone.

(** [time.After(1 * time.Second)], in milliseconds. *)
Definition notify_timeout : Z := 1000.

Section Driver.

(** *** The environment *)

(** The fault plan: [fault n] is the errno with which the kernel fails the
    request number [n], if it fails it. *)
Variable fault : nat → option Z.

(** The kernel's rules for the addresses of an interface, which depend on
    the address family and on the host's settings. [addr_clash a l]: a
    request to add [a] to an interface bearing [l] is answered EEXIST.
    [addr_left a l]: the addresses left of [l] once [a] is deleted. *)
Variable addr_clash : IPNet → list IPNet → bool.
Variable addr_left : IPNet → list IPNet → list IPNet.

(** The [select] plan: for the [n]-th select, the case that becomes ready
    first among the send and the cancellation, and after how many
    milliseconds; [TimeAfter] stands for neither being ready in time. *)
Variable select_plan : nat → SelectCase * Z.

(** Helpers of the repository that are not among the sources, and library
    functions. *)
Variable MachineIP : Prefix → Addr.
Variable prefixToIPNet : Prefix → IPNet.
Variable ipNetToPrefix : IPNet → Prefix + error.
Variable IPNet_String : IPNet → string.     (* [net.IPNet.String] *)
Variable Prefix_String : Prefix → string.   (* [netip.Prefix.String] *)
Variable Secret_String : Secret → string.   (* [secret.Secret.String] *)
Variable toDeviceConfig : Config → list wgPeer → wgConfig + error.
Variable prefixes : PeerConfig → list Prefix + error.
(** [netipx.IPSetBuilder]: the prefixes of the set built from those added. *)
Variable IPSet_Prefixes : list Prefix → list Prefix + error.
(** The WireGuard device applying a configuration to its peers. *)
Variable device_apply : wgConfig → list wgPeer → list wgPeer.
(** The methods of [peer]; the first argument is the time of the call. *)
Variable newPeer : Z → PeerConfig → option wgPeer → peer.
Variable updateConfig : Z → peer → PeerConfig → peer.
Variable updateFromDevice : Z → peer → wgPeer → peer * bool.
Variable shouldChangeEndpoint : Z → peer → peer * option AddrPort.

(** Modelled from the spec: addrToSingleIPPrefix (not among the sources).
    The management IP as a /32 or a /128; the zero address is an error. *)
Definition addrToSingleIPPrefix (a : Addr) : Prefix + error :=
  match a with
  | Addr4 _ => inl (mkPrefix a 32)
  | Addr6 _ => inl (mkPrefix a 128)
  | AddrZero => inr (ErrorNew "invalid IP address")
  end.

(** [wgtypes.NewKey]: a key has 32 bytes. *)
Definition NewKey (b : Secret) : Secret + error :=
  if decide (String.length b = 32%nat) then inl b
  else inr (ErrorNew "wgtypes: incorrect key size").

(** *** Requests to the kernel *)

Definition bump (k : Kernel) : Kernel :=
  mkKernel (k_link k) (k_addrs k) (k_routes k) (k_peers k) (S (k_calls k)).

(** A request: the fault plan may fail it, and then the kernel is left as
    it was; otherwise [body] serves it. *)
Definition syscall {A} (body : Kernel → Kernel * (A + error)) : M (A + error) :=
  let* k := get_kernel in
  match fault (k_calls k) with
  | Some e => do put_kernel (bump k) in ret (inr (Errno e))
  | None => let '(k', r) := body (bump k) in do put_kernel k' in ret r
  end.

Definition err_of {A} (r : A + error) : option error :=
  match r with inl _ => None | inr e => Some e end.

Definition ENODEV : Z := 19.
Definition ESRCH : Z := 3.
Definition EADDRNOTAVAIL : Z := 99.

(** The request needs the link to exist. *)
Definition on_link {A} (body : Kernel → Kernel * (A + error)) : M (A + error) :=
  syscall (λ k, match k_link k with
                | Some _ => body k
                | None => (k, inr (Errno ENODEV))
                end).

(** [netlink.AddrAdd]: the kernel answers EEXIST when the address clashes
    with those the link bears, by its own rule [addr_clash]; otherwise the
    link bears the address as well. *)
Definition AddrAdd (a : IPNet) : M (option error) :=
  let* r := on_link (λ k,
    if addr_clash a (k_addrs k) then (k, inr (Errno EEXIST))
    else (mkKernel (k_link k) (k_addrs k ++ [a]) (k_routes k) (k_peers k) (k_calls k),
          inl tt)) in
  ret (err_of r).

(** [netlink.AddrList(link, FAMILY_ALL)]. *)
Definition AddrList : M (list IPNet + error) :=
  on_link (λ k, (k, inl (k_addrs k))).

(** [netlink.AddrDel]: an address the link does not bear is
    EADDRNOTAVAIL; deleting one it bears leaves the addresses [addr_left]
    says, which may be fewer than all the others. *)
Definition AddrDel (a : IPNet) : M (option error) :=
  let* r := on_link (λ k,
    if decide (a ∈ k_addrs k) then
      (mkKernel (k_link k) (addr_left a (k_addrs k)) (k_routes k) (k_peers k)
                (k_calls k), inl tt)
    else (k, inr (Errno EADDRNOTAVAIL))) in
  ret (err_of r).

(** [netlink.LinkSetUp]. *)
Definition LinkSetUp : M (option error) :=
  let* r := on_link (λ k,
    (mkKernel ((λ l, mkLink (Name l) (Index l) (Z.lor (Flags l) IFF_UP)) <$> k_link k)
              (k_addrs k) (k_routes k) (k_peers k) (k_calls k), inl tt)) in
  ret (err_of r).

(** [netlink.LinkDel]: the link goes, with its addresses, routes and peers. *)
Definition LinkDel : M (option error) :=
  let* r := on_link (λ k, (mkKernel None [] [] [] (k_calls k), inl tt)) in
  ret (err_of r).

(** [netlink.RouteAdd], [netlink.RouteList], [netlink.RouteDel]. *)
Definition RouteAdd (r : Route) : M (option error) :=
  let* r := on_link (λ k,
    if decide (r ∈ k_routes k) then (k, inr (Errno EEXIST))
    else (mkKernel (k_link k) (k_addrs k) (k_routes k ++ [r]) (k_peers k) (k_calls k),
          inl tt)) in
  ret (err_of r).

Definition RouteList : M (list Route + error) :=
  on_link (λ k, (k, inl (k_routes k))).

Definition RouteDel (r : Route) : M (option error) :=
  let* r := on_link (λ k,
    if decide (r ∈ k_routes k) then
      (mkKernel (k_link k) (k_addrs k) (filter (λ x, x ≠ r) (k_routes k)) (k_peers k)
                (k_calls k), inl tt)
    else (k, inr (Errno ESRCH))) in
  ret (err_of r).

(** [wgctrl.New]: opens the client, touching nothing of the interface. *)
Definition wgctrl_New : M (option error) :=
  let* r := syscall (λ k, (k, inl tt)) in
  ret (err_of r).

(** [wg.Device(name)]: the peers of the device of that name. *)
Definition wg_Device (name : string) : M (list wgPeer + error) :=
  syscall (λ k, match k_link k with
                | Some l => if decide (Name l = name) then (k, inl (k_peers k))
                            else (k, inr (Errno ENODEV))
                | None => (k, inr (Errno ENODEV))
                end).

(** [wg.ConfigureDevice(name, cfg)]. *)
Definition wg_ConfigureDevice (name : string) (cfg : wgConfig) : M (option error) :=
  let* r := syscall (λ k,
    match k_link k with
    | Some l =>
      if decide (Name l = name) then
        (mkKernel (k_link k) (k_addrs k) (k_routes k) (device_apply cfg (k_peers k))
                  (k_calls k), inl tt)
      else (k, inr (Errno ENODEV))
    | None => (k, inr (Errno ENODEV))
    end) in
  ret (err_of r).

(** *** [Configure] *)

Definition peer_key (pc : PeerConfig) : string := Secret_String (PublicKey pc).

(** The block of [configureDevice] run when [n.peers] is nil: the peers are
    rebuilt from the configuration and the peers of the device. *)
Definition first_peers (t : Z) (config : Config) (devPeers : list wgPeer)
  : gmap string peer :=
  let wgPeers : gmap string wgPeer :=
    foldl (λ m p, <[Secret_String (wg_PublicKey p) := p]> m) ∅ devPeers in
  foldl (λ m pc, <[peer_key pc := newPeer t pc (wgPeers !! peer_key pc)]> m)
        ∅ (Peers config).

(** Create or update the peers of the configuration, then delete those that
    are no longer in it. *)
Definition merge_peers (t : Z) (config : Config) (m : gmap string peer)
  : gmap string peer :=
  let m1 :=
    foldl (λ m pc, match m !! peer_key pc with
                   | Some p => <[peer_key pc := updateConfig t p pc]> m
                   | None => <[peer_key pc := newPeer t pc None]> m
                   end) m (Peers config) in
  let newPeersSet : gset string := list_to_set (peer_key <$> Peers config) in
  filter (λ kv, kv.1 ∈ newPeersSet) m1.

Definition configureDevice (config : Config) : M (option error) :=
  check wgctrl_New orelse (Wrapf "create WireGuard client") in
  let* l := link_Attrs in
  let* r := wg_Device (Name l) in
  match r with
  | inr err => ret (Some (Wrapf "get WireGuard device" err))
  | inl devPeers =>
    let* s := get in
    let peers0 := match peers (net s) with
                  | None => first_peers (now s) config devPeers
                  | Some m => m
                  end in
    do put_net (set_peers (Some (merge_peers (now s) config peers0)) (net s)) in
    match toDeviceConfig config devPeers with
    | inr err => ret (Some err)
    | inl wgConfig =>
      check wg_ConfigureDevice (Name l) wgConfig
        orelse (Wrapf "configure WireGuard device") in
      ret None
    end
  end.

(** The first loop of [updateAddresses]. *)
Fixpoint add_addrs (addrs : list Prefix) : M (option error) :=
  match addrs with
  | [] => ret None
  | addr :: rest =>
    let ipNet := prefixToIPNet addr in
    do link_Attrs in
    let* err := AddrAdd ipNet in
    match err with
    | Some e =>
      if errors_Is e EEXIST then add_addrs rest
      else ret (Some (Wrapf "add subnet address to WireGuard link" e))
    | None => add_addrs rest
    end
  end.

(** [slices.ContainsFunc(addrs, func(a) { linkAddr.IPNet.String() == a.String() })] *)
Definition wanted (addrs : list Prefix) (linkAddr : IPNet) : bool :=
  existsb (λ a, bool_decide (IPNet_String linkAddr = Prefix_String a)) addrs.

(** The second loop of [updateAddresses]. *)
Fixpoint del_addrs (addrs : list Prefix) (linkAddrs : list IPNet) : M (option error) :=
  match linkAddrs with
  | [] => ret None
  | linkAddr :: rest =>
    if wanted addrs linkAddr then del_addrs addrs rest
    else
      do link_Attrs in
      check AddrDel linkAddr orelse (Wrapf "remove address from WireGuard link") in
      del_addrs addrs rest
  end.

Definition updateAddresses (addrs : list Prefix) : M (option error) :=
  check add_addrs addrs orelse (λ e, e) in
  do link_Attrs in
  let* r := AddrList in
  match r with
  | inr err => ret (Some (Wrapf "list addresses on WireGuard link" err))
  | inl linkAddrs => del_addrs addrs linkAddrs
  end.

(** The prefixes of all peers, in the order the map is ranged over. *)
Fixpoint peer_prefixes (ps : list peer) (acc : list Prefix) : list Prefix + error :=
  match ps with
  | [] => inl acc
  | p :: rest =>
    match prefixes (config p) with
    | inr err => inr (Wrapf "get peer addresses" err)
    | inl prefs => peer_prefixes rest (acc ++ prefs)
    end
  end.

Fixpoint add_routes (prefs : list Prefix) : M (option error) :=
  match prefs with
  | [] => ret None
  | prefix :: rest =>
    let dst := prefixToIPNet prefix in
    let* l := link_Attrs in
    let* err := RouteAdd (mkRoute (Index l) SCOPE_LINK (Some dst)) in
    match err with
    | Some e =>
      if errors_Is e EEXIST then add_routes rest
      else ret (Some (Wrapf "add route to WireGuard link" e))
    | None =>
      do slog Debug "Added route to peer(s) via WireGuard interface." None in
      add_routes rest
    end
  end.

Fixpoint del_routes (addedRoutes : list Prefix) (routes : list Route) : M (option error) :=
  match routes with
  | [] => ret None
  | route :: rest =>
    match Dst route with
    | None => panic "invalid memory address or nil pointer dereference"
    | Some dst =>
      match ipNetToPrefix dst with
      | inr pErr => ret (Some (Wrapf "parse route destination" pErr))
      | inl routePrefix =>
        if bool_decide (routePrefix ∈ addedRoutes) then del_routes addedRoutes rest
        else
          check RouteDel route orelse (Wrapf "remove route from WireGuard link") in
          do slog Debug "Removed route to peer(s) via WireGuard interface." None in
          del_routes addedRoutes rest
      end
    end
  end.

(** Ranging over a nil map runs no iteration. *)
Definition peers_list (n : WireGuardNetwork) : list (string * peer) :=
  match peers n with Some m => map_to_list m | None => [] end.

Definition updatePeerRoutes : M (option error) :=
  let* n := get_net in
  match peer_prefixes ((peers_list n).*2) [] with
  | inr err => ret (Some err)
  | inl added =>
    match IPSet_Prefixes added with
    | inr err => ret (Some (Wrapf "build list of IP ranges for peers" err))
    | inl ipset =>
      check add_routes ipset orelse (λ e, e) in
      do link_Attrs in
      let* r := RouteList in
      match r with
      | inr err => ret (Some (Wrapf "list routes on WireGuard link" err))
      | inl routes => del_routes ipset routes
      end
    end
  end.

Definition machinePrefix (config : Config) : Prefix :=
  mkPrefix (MachineIP (Subnet config)) (pfx_bits (Subnet config)).

Definition Configure (config : Config) : M (option error) :=
  check configureDevice config orelse (λ e, e) in
  do link_Attrs in
  do slog Info "Configured WireGuard interface." None in
  match addrToSingleIPPrefix (ManagementIP config) with
  | inr err => ret (Some (Wrapf "parse management IP" err))
  | inl managementPrefix =>
    let addrs := [managementPrefix; machinePrefix config] in
    check updateAddresses addrs orelse (λ e, e) in
    do slog Info "Updated addresses of the WireGuard interface." None in
    let* l := link_Attrs in
    check (if decide (Z.land (Flags l) IFF_UP ≠ IFF_UP) then
             check LinkSetUp orelse (Wrapf "set WireGuard link up") in
             do slog Info "Brought WireGuard interface up." None in
             ret None
           else ret None) orelse (λ e, e) in
    check updatePeerRoutes orelse (λ e, e) in
    do slog Info "Updated routes to peers via the WireGuard interface." None in
    ret None
  end.

(** *** The control loop *)

(** One [select] of [notifyWatchers] on channel [ch] with event [e]:
    [None] when the event was sent and the loop goes on, [Some r] when
    [notifyWatchers] returns [r]. The timer fires when neither the send nor
    the cancellation is ready within the timeout. A send on a closed channel
    is ready at once and panics. *)
Definition select_send (ch : nat) (e : EndpointChangeEvent) : M (option (option error)) :=
  let* s := get in
  let '(c, d) := select_plan (selects s) in
  let timeout :=
    do selected notify_timeout in
    ret (Some (Some (ErrorNew "timeout 1 second"))) in
  if decide (ch ∈ chan_closed s) then
    match c with
    | CtxDone =>
      if decide (d ≤ 0)%Z then do selected 0 in ret (Some None)
      else panic "send on closed channel"
    | _ => panic "send on closed channel"
    end
  else
    match c with
    | TimeAfter => timeout
    | SendReady =>
      if decide (d ≤ notify_timeout)%Z then
        do selected (Z.max 0 d) in
        do chan_send ch e in
        ret None
      else timeout
    | CtxDone =>
      if decide (d ≤ notify_timeout)%Z then
        do selected (Z.max 0 d) in ret (Some None)
      else timeout
    end.

Fixpoint notify_events (ch : nat) (events : list EndpointChangeEvent)
  : M (option (option error)) :=
  match events with
  | [] => ret None
  | e :: rest =>
    let* r := select_send ch e in
    match r with
    | Some x => ret (Some x)
    | None => notify_events ch rest
    end
  end.

Fixpoint notify_chans (chans : list nat) (events : list EndpointChangeEvent)
  : M (option error) :=
  match chans with
  | [] => ret None
  | ch :: rest =>
    let* r := notify_events ch events in
    match r with
    | Some x => ret x
    | None => notify_chans rest events
    end
  end.

Definition notifyWatchers (events : list EndpointChangeEvent) : M (option error) :=
  let* n := get_net in
  notify_chans (watchers n) events.

(** [p] is a pointer into the map: a method that changes the peer changes
    the entry. *)
Definition store_peer (k : string) (p : peer) : M unit :=
  let* n := get_net in
  put_net (set_peers ((λ m, <[k := p]> m) <$> peers n) n).

(** The loop of [updatePeersFromDevice] over the peers of the device. *)
Fixpoint peers_from_device (devPeers : list wgPeer) (events : list EndpointChangeEvent)
  : M (list EndpointChangeEvent) :=
  match devPeers with
  | [] => ret events
  | wgp :: rest =>
    let publicKey := wg_PublicKey wgp in
    let* s := get in
    match peers (net s) ≫= (λ m, m !! Secret_String publicKey) with
    | Some p =>
      let '(p', endpointChanged) := updateFromDevice (now s) p wgp in
      do store_peer (Secret_String publicKey) p' in
      if endpointChanged then
        match Endpoint (config p') with
        | Some ep => peers_from_device rest (events ++ [mkEvent publicKey ep])
        | None => panic "invalid memory address or nil pointer dereference"
        end
      else peers_from_device rest events
    | None =>
      do slog Warn "Found WireGuard peer that is not in the configuration." None in
      peers_from_device rest events
    end
  end.

Definition notify_failed : string :=
  "Failed to notify watchers about a peer endpoint change.".

(** [if err = n.notifyWatchers(ctx, events); err != nil { slog.Error(...) }]:
    the error is logged and dropped. *)
Definition notify_or_log (events : list EndpointChangeEvent) : M unit :=
  let* err := notifyWatchers events in
  match err with
  | Some e => slog Error notify_failed (Some e)
  | None => ret tt
  end.

Definition updatePeersFromDevice : M (option error) :=
  check wgctrl_New orelse (Wrapf "create WireGuard client") in
  let* l := link_Attrs in
  let* r := wg_Device (Name l) in
  match r with
  | inr err => ret (Some (Wrapf "get WireGuard device" err))
  | inl devPeers =>
    let* events := peers_from_device devPeers [] in
    do (if decide (0 < length events) then notify_or_log events else ret tt) in
    ret None
  end.

(** The loop of [changeWireGuardEndpoints] over the peers. *)
Fixpoint rotate_peers (ps : list (string * peer)) (cfgs : list wgPeerConfig)
    (events : list EndpointChangeEvent)
  : M (list wgPeerConfig * list EndpointChangeEvent + error) :=
  match ps with
  | [] => ret (inl (cfgs, events))
  | (k, p) :: rest =>
    let* s := get in
    let '(p1, r) := shouldChangeEndpoint (now s) p in
    do store_peer k p1 in
    match r with
    | None => rotate_peers rest cfgs events
    | Some newEndpoint =>
      let c := config p1 in
      let newConfig :=
        mkPeerConfig (pc_Subnet c) (pc_ManagementIP c) (Some newEndpoint)
                     (AllEndpoints c) (PublicKey c) in
      let p2 := updateConfig (now s) p1 newConfig in
      do store_peer k p2 in
      match NewKey (PublicKey (config p2)) with
      | inr err => ret (inr (Wrapf "parse peer public key" err))
      | inl publicKey =>
        match Endpoint (config p2) with
        | None => panic "invalid memory address or nil pointer dereference"
        | Some ep =>
          rotate_peers rest (cfgs ++ [mkWgPeerConfig publicKey true false (Some ep)])
                       (events ++ [mkEvent (PublicKey (config p2)) ep])
        end
      end
    end
  end.

(** The loop that logs every changed endpoint with the peer's status. *)
Fixpoint log_changes (cfgs : list wgPeerConfig) : M unit :=
  match cfgs with
  | [] => ret tt
  | pc :: rest =>
    let* n := get_net in
    match peers n ≫= (λ m, m !! Secret_String (wpc_PublicKey pc)) with
    | None => panic "invalid memory address or nil pointer dereference"
    | Some _ =>
      do slog Info "Changed peer endpoint on WireGuard interface." None in
      log_changes rest
    end
  end.

Definition changeWireGuardEndpoints : M (option error) :=
  let* n := get_net in
  let* r := rotate_peers (peers_list n) [] [] in
  match r with
  | inr err => ret (Some err)
  | inl (wgPeerConfigs, events) =>
    if decide (length wgPeerConfigs = 0) then ret None
    else
      check wgctrl_New orelse (Wrapf "create WireGuard client") in
      let* l := link_Attrs in
      check wg_ConfigureDevice (Name l) (mkWgConfig false wgPeerConfigs)
        orelse (Wrapf "configure WireGuard device with endpoint changes") in
      do log_changes wgPeerConfigs in
      do notify_or_log events in
      ret None
  end.

(** What the [select] of [Run] receives: a tick, at a time, or the
    cancellation of the context. *)
Inductive RunEvent := TickerC (t : Z) | Done.

(** [Returned err]: [Run] has returned [err]. [Looping]: the events are
    used up and [Run] waits in its [select]. *)
Inductive RunResult := Returned (err : option error) | Looping.

(** The start of [Run], up to the loop: an error when [Run] returns here. *)
Definition Run_guard : M (option error) :=
  let* n := get_net in
  if running n then ret (Some (ErrorNew "network is already running"))
  else do put_net (set_running true n) in ret None.

Definition log_failure (what : string) (err : option error) : M unit :=
  match err with
  | Some e => do link_Attrs in slog Error what (Some e)
  | None => ret tt
  end.

(** The body of [case <-ticker.C]. *)
Definition Run_tick (t : Z) : M unit :=
  do clock_at t in
  let* err := updatePeersFromDevice in
  do log_failure "Failed to update peers status from WireGuard interface." err in
  let* err := changeWireGuardEndpoints in
  log_failure "Failed to update peer endpoints on WireGuard interface." err.

Fixpoint close_all (chans : list nat) : M unit :=
  match chans with
  | [] => ret tt
  | ch :: rest => do close ch in close_all rest
  end.

Definition clear_running : M unit :=
  let* n := get_net in put_net (set_running false n).

Fixpoint Run_loop (events : list RunEvent) : M RunResult :=
  match events with
  | [] => ret Looping
  | TickerC t :: rest => do Run_tick t in Run_loop rest
  | Done :: _ =>
    let* n := get_net in
    do close_all (watchers n) in
    do clear_running in
    ret (Returned None)
  end.

(** [Run(ctx)], the [select] receiving [events] in turn. *)
Definition Run (events : list RunEvent) : M RunResult :=
  let* err := wgctrl_New in
  match err with
  | Some e => ret (Returned (Some (Wrapf "create WireGuard client" e)))
  | None =>
    let* err := Run_guard in
    match err with
    | Some e => ret (Returned (Some e))
    | None => Run_loop events
    end
  end.

Definition Cleanup : M (option error) :=
  let* n := get_net in
  if running n then
    ret (Some (ErrorNew "network is still running, stop it before cleanup"))
  else
    do link_Attrs in
    check LinkDel orelse (Wrapf "delete WireGuard link") in
    let* n := get_net in
    do put_net (set_link None n) in
    do slog Info "Deleted WireGuard interface." None in
    ret None.

(** *** Several calls of [Run] at once

    The steps of one call that are atomic with respect to the others: the
    guard and the tick run under [n.mu]; so does the clearing of the flag. *)
Inductive run_pc :=
  | AtNew                          (* at [wgctrl.New()] *)
  | AtGuard                        (* at the first [n.mu.Lock()] *)
  | InLoop                         (* at the [select] *)
  | Closing (chans : list nat)     (* in the loop closing the watchers *)
  | AtClear                        (* at [n.running = false] *)
  | Exited (err : option error).   (* returned *)

Definition run_step (ev : RunEvent) (pc : run_pc) : M run_pc :=
  match pc with
  | AtNew =>
    let* err := wgctrl_New in
    match err with
    | Some e => ret (Exited (Some (Wrapf "create WireGuard client" e)))
    | None => ret AtGuard
    end
  | AtGuard =>
    let* err := Run_guard in
    match err with
    | Some e => ret (Exited (Some e))
    | None => ret InLoop
    end
  | InLoop =>
    match ev with
    | TickerC t => do Run_tick t in ret InLoop
    | Done => let* n := get_net in ret (Closing (watchers n))
    end
  | Closing [] => ret AtClear
  | Closing (ch :: rest) => do close ch in ret (Closing rest)
  | AtClear => do clear_running in ret (Exited None)
  | Exited err => ret (Exited err)
  end.

(** The calls take steps as the schedule says: thread [t] with what its
    [select] receives if it is at it. A panic stops the process. *)
Fixpoint run_threads (sch : list (nat * RunEvent)) (ths : list run_pc) : M (list run_pc) :=
  match sch with
  | [] => ret ths
  | (t, ev) :: rest =>
    match ths !! t with
    | Some pc => let* pc' := run_step ev pc in run_threads rest (<[t := pc']> ths)
    | None => run_threads rest ths
    end
  end.

(** The call is in its control loop: past the guard and not yet returned. *)
Definition in_loop (pc : run_pc) : bool :=
  match pc with InLoop | Closing _ | AtClear => true | _ => false end.

Definition controllers (ths : list run_pc) : nat :=
  length (filter (λ pc, in_loop pc = true) ths).

End Driver.

(** *** Properties of computations *)

(** [keeps view c]: whatever [c] does, it leaves [view] of the state as it
    was. *)
Definition keeps {V A} (view : State → V) (c : M A) : Prop :=
  ∀ s r s', c s = (r, s') → view s' = view s.

(** [triple P c Q]: from a state with [P], [c] does not panic, and its result
    and final state have [Q]. *)
Definition triple {A} (P : State → Prop) (c : M A) (Q : A → State → Prop) : Prop :=
  ∀ s, P s → ∃ a s', c s = (Ret a, s') ∧ Q a s'.

(** What the control loop leaves alone: the watchers, the running flag, the
    link, and which channels exist and are closed. *)
Definition loop_view (s : State) : list nat * bool * option Link * list nat * nat :=
  (watchers (net s), running (net s), link (net s), chan_closed s, chan_next s).

(** The addresses on the interface. *)
Definition addr_view (s : State) : list IPNet := k_addrs (kernel s).

(** Whether the peers map is nil. *)
Definition peers_nil (s : State) : bool :=
  match peers (net s) with None => true | Some _ => false end.

(** A view of the state that the control loop cannot change: it ignores the
    kernel, the log, the clock and the events sent, and a change of the
    entries of a non-nil peers map. *)
Record tick_view {V} (view : State → V) : Prop := {
  tv_kernel : ∀ s x, view (mkState (net s) x (chan_next s) (chan_closed s) (chan_sent s)
                                   (selects s) (now s) (logs s)) = view s;
  tv_logs : ∀ s x, view (mkState (net s) (kernel s) (chan_next s) (chan_closed s)
                                 (chan_sent s) (selects s) (now s) x) = view s;
  tv_clock : ∀ s n t, view (mkState (net s) (kernel s) (chan_next s) (chan_closed s)
                                    (chan_sent s) n t (logs s)) = view s;
  tv_sent : ∀ s x, view (mkState (net s) (kernel s) (chan_next s) (chan_closed s) x
                                 (selects s) (now s) (logs s)) = view s;
  tv_peers : ∀ s f, view (mkState (set_peers (f <$> peers (net s)) (net s)) (kernel s)
                                  (chan_next s) (chan_closed s) (chan_sent s)
                                  (selects s) (now s) (logs s)) = view s
}.

(** The state after a request that changed nothing of the interface. *)
Definition served (s : State) : State :=
  mkState (net s) (bump (kernel s)) (chan_next s) (chan_closed s) (chan_sent s)
          (selects s) (now s) (logs s).

(** The error of [notifyWatchers]. *)
Definition timeout_error : error := ErrorNew "timeout 1 second".

(** The error is, or wraps, the timeout of [notifyWatchers]. *)
Fixpoint is_timeout (e : error) : bool :=
  match e with
  | ErrorNew m => bool_decide (m = "timeout 1 second")
  | Wrapf _ e' => is_timeout e'
  | _ => false
  end.

(** A plan on which neither the send nor the cancellation is ready in
    time: the watcher is slow. *)
Definition slow (p : SelectCase * Z) : Prop := p.1 = TimeAfter ∨ (notify_timeout < p.2)%Z.

(** The state after a [select] that took [d] milliseconds. *)
Definition after_select (d : Z) (s : State) : State :=
  mkState (net s) (kernel s) (chan_next s) (chan_closed s) (chan_sent s)
          (S (selects s)) (now s + d) (logs s).

(** The state with one more record in the log. *)
Definition logged (e : LogEntry) (s : State) : State :=
  mkState (net s) (kernel s) (chan_next s) (chan_closed s) (chan_sent s)
          (selects s) (now s) (logs s ++ [e]).

(** The record of a publish that timed out, as its caller logs it. *)
Definition timeout_log : LogEntry := mkLog Error notify_failed (Some timeout_error).

(** Between [s] and [s'] a [select] of [notifyWatchers] has run on which
    neither the send nor the cancellation was ready in time. *)
Definition slow_select (select_plan : nat → SelectCase * Z) (s s' : State) : Prop :=
  ∃ n, selects s ≤ n < selects s' ∧ slow (select_plan n).

(** [quiet c]: [c] runs no [select], and only adds to the log. *)
Definition quiet {A} (c : M A) : Prop :=
  ∀ s o s', c s = (o, s') → selects s' = selects s ∧ ∃ l, logs s' = logs s ++ l.

(** [logs_slow c]: [c] only adds to the log, and what it adds has the
    record of the timeout when one of its [select]s found a watcher slow. *)
Definition logs_slow {A} (select_plan : nat → SelectCase * Z) (c : M A) : Prop :=
  ∀ s o s', c s = (o, s') →
    selects s ≤ selects s' ∧
    ∃ l, logs s' = logs s ++ l ∧ (slow_select select_plan s s' → timeout_log ∈ l).

(** A network that [Configure] has never been called on: the peers map is
    nil; the link is the one [NewWireGuardNetwork] found or made. *)
Definition unconfigured (s : State) : Prop :=
  peers (net s) = None ∧ is_Some (link (net s)).

(** 1 for a set flag, 0 for a cleared one. *)
Definition flag (b : bool) : nat := if b then 1 else 0.

(** The prefixes [Configure] wants on the interface. *)
Definition want (MachineIP : Prefix → Addr) (config : Config) (p : Prefix) : Prop :=
  addrToSingleIPPrefix (ManagementIP config) = inl p ∨ p = machinePrefix MachineIP config.

(** The kernel answers EEXIST only for an address that the interface bears
    with that prefix length. *)
Definition clash_borne (addr_clash : IPNet → list IPNet → bool) : Prop :=
  ∀ a l, addr_clash a l = true → a ∈ l.

(** Deleting an address leaves all the others. *)
Definition left_others (addr_left : IPNet → list IPNet → list IPNet) : Prop :=
  ∀ a l x, x ∈ addr_left a l ↔ x ∈ l ∧ x ≠ a.

(** The kernel answers EEXIST for an address that the interface bears with
    that prefix length, so that it lists no address twice. *)
Definition borne_clash (addr_clash : IPNet → list IPNet → bool) : Prop :=
  ∀ a l, a ∈ l → addr_clash a l = true.

(** Deleting an address deletes nothing else and keeps the order. *)
Definition left_exact (addr_left : IPNet → list IPNet → list IPNet) : Prop :=
  ∀ a l, addr_left a l = filter (λ x, x ≠ a) l.

(** The registered watcher channels are open and pairwise distinct. *)
Definition watchers_open (s : State) : Prop :=
  NoDup (watchers (net s)) ∧ ∀ ch, ch ∈ watchers (net s) → ch ∉ chan_closed s.

(** The channels are as [WatchEndpoints] makes them: the registered ones
    are open and distinct, and every channel registered or closed has been
    made. *)
Definition chans_fresh (s : State) : Prop :=
  watchers_open s ∧
  (∀ ch, ch ∈ watchers (net s) → ch < chan_next s) ∧
  (∀ ch, ch ∈ chan_closed s → ch < chan_next s).

(** The schedule of a call of [Run] that runs alone, receives the ticks
    [ts] and then the cancellation, with [n] watchers to close. *)
Definition alone (ts : list Z) (n : nat) : list (nat * RunEvent) :=
  [(0, Done); (0, Done)] ++ ((λ t, (0, TickerC t)) <$> ts) ++ replicate (n + 3) (0, Done).

(** The position of a call whose sequential run has the outcome [o]. *)
Definition exited (o : outcome RunResult) : outcome (list run_pc) :=
  match o with
  | Ret (Returned err) => Ret [Exited err]
  | Ret Looping => Ret [InLoop]
  | Panic why => Panic why
  end.

(** *** A sample environment *)

Definition no_fault : nat → option Z := λ _, None.

(** Every send finds its receiver ready at once. *)
Definition ready_plan : nat → SelectCase * Z := λ _, (SendReady, 0%Z).
(** No receiver is ever ready. *)
Definition slow_plan : nat → SelectCase * Z := λ _, (SendReady, 5000%Z).

(** A kernel that refuses an address only when the interface bears it with
    that prefix length, and that deletes one address at a time. *)
Definition sample_addr_clash (a : IPNet) (l : list IPNet) : bool := bool_decide (a ∈ l).
Definition sample_addr_left (a : IPNet) (l : list IPNet) : list IPNet :=
  filter (λ x, x ≠ a) l.

(** The rule of Linux for adding: an IPv6 address that the interface bears
    cannot be added again, whatever the prefix length; an IPv4 address is
    refused only with the prefix length it is borne with. *)
Definition linux_addr_clash (a : IPNet) (l : list IPNet) : bool :=
  match net_ip a with
  | Addr6 _ => bool_decide (net_ip a ∈ net_ip <$> l)
  | _ => bool_decide (a ∈ l)
  end.

(** The subnet of an IPv4 interface address: its network and prefix length. *)
Definition subnet4 (a : IPNet) : option (Z * Z) :=
  match net_ip a with
  | Addr4 z => Some (Z.shiftr z (32 - net_ones a), net_ones a)
  | _ => None
  end.

(** The rule of Linux for deleting, with [promote_secondaries] off as it is
    by default: the first address of an IPv4 subnet on the interface is the
    primary one, and deleting it deletes the later addresses of that subnet
    as well. *)
Definition linux_addr_left (a : IPNet) (l : list IPNet) : list IPNet :=
  match subnet4 a with
  | Some n =>
    if bool_decide (head (filter (λ x, subnet4 x = Some n) l) = Some a)
    then filter (λ x, subnet4 x ≠ Some n) l
    else filter (λ x, x ≠ a) l
  | None => filter (λ x, x ≠ a) l
  end.

Definition sample_MachineIP (p : Prefix) : Addr :=
  match pfx_addr p with
  | Addr4 a => Addr4 (a + 1)
  | Addr6 a => Addr6 (a + 1)
  | AddrZero => AddrZero
  end.

Definition sample_prefixToIPNet (p : Prefix) : IPNet := mkIPNet (pfx_addr p) (pfx_bits p).
Definition sample_ipNetToPrefix (n : IPNet) : Prefix + error :=
  inl (mkPrefix (net_ip n) (net_ones n)).

Definition dotted (a : Z) : string :=
  pretty ((a / 2 ^ 24) `mod` 256)%Z +:+ "." +:+ pretty ((a / 2 ^ 16) `mod` 256)%Z +:+ "." +:+
  pretty ((a / 2 ^ 8) `mod` 256)%Z +:+ "." +:+ pretty (a `mod` 256)%Z.

Definition sample_Addr_String (a : Addr) : string :=
  match a with
  | Addr4 z => dotted z
  | Addr6 z => "[" +:+ pretty z +:+ "]"
  | AddrZero => "invalid IP"
  end.

Definition sample_IPNet_String (n : IPNet) : string :=
  sample_Addr_String (net_ip n) +:+ "/" +:+ pretty (net_ones n).
Definition sample_Prefix_String (p : Prefix) : string :=
  sample_Addr_String (pfx_addr p) +:+ "/" +:+ pretty (pfx_bits p).

Definition sample_Secret_String (k : Secret) : string := k.

Definition sample_toDeviceConfig (c : Config) (dev : list wgPeer) : wgConfig + error :=
  inl (mkWgConfig false
         ((λ pc, mkWgPeerConfig (PublicKey pc) false false (Endpoint pc)) <$> Peers c)).

Definition sample_prefixes (pc : PeerConfig) : list Prefix + error :=
  inl (option_list (pc_Subnet pc)).

Definition sample_IPSet_Prefixes (l : list Prefix) : list Prefix + error := inl l.

Definition sample_device_apply (c : wgConfig) (dev : list wgPeer) : list wgPeer :=
  (λ pc, mkWgPeer (wpc_PublicKey pc) (wpc_Endpoint pc) 0) <$> wgc_Peers c.

Definition sample_newPeer (t : Z) (pc : PeerConfig) (w : option wgPeer) : peer :=
  mkPeer pc StatusUnknown (from_option wg_LastHandshakeTime 0%Z w) t.

Definition sample_updateConfig (t : Z) (p : peer) (pc : PeerConfig) : peer :=
  mkPeer pc (status p) (lastHandshake p)
         (if decide (Endpoint pc = Endpoint (config p)) then lastEndpointChange p else t).

(** The endpoint has changed when the device reports one that is not the
    selected one. *)
Definition sample_updateFromDevice (t : Z) (p : peer) (w : wgPeer) : peer * bool :=
  match wg_Endpoint w with
  | Some ep =>
    if decide (Endpoint (config p) = Some ep) then (p, false)
    else
      let c := config p in
      (mkPeer (mkPeerConfig (pc_Subnet c) (pc_ManagementIP c) (Some ep) (AllEndpoints c)
                            (PublicKey c))
              (status p) (wg_LastHandshakeTime w) t, true)
  | None => (p, false)
  end.

Definition sample_shouldChangeEndpoint (t : Z) (p : peer) : peer * option AddrPort :=
  (p, None).

Definition sample_link : Link := mkLink WireGuardInterfaceName 7 0.

Definition m1_key : Secret := "kkkkkkkkkkkkkkkkkkkkkkkkkkkkkkk1".
Definition m2_key : Secret := "kkkkkkkkkkkkkkkkkkkkkkkkkkkkkkk2".

(** 10.210.1.1:51820 and 192.168.0.7:51820 *)
Definition m2_endpoint : AddrPort := mkAddrPort (Addr4 181535009) 51820.
Definition m2_lan_endpoint : AddrPort := mkAddrPort (Addr4 3232235527) 51820.

Definition m2_config : PeerConfig :=
  mkPeerConfig (Some (mkPrefix (Addr4 181534976) 24)) (Addr4 181534977)
               (Some m2_endpoint) [m2_endpoint; m2_lan_endpoint] m2_key.

(** Machine 1: subnet 10.210.0.0/24, management IP 10.210.0.1, one peer. *)
Definition sample_config : Config :=
  mkConfig (mkPrefix (Addr4 181534720) 24) (Addr4 181534721) [m2_config].

(** The interface exists, is down, and bears the out-of-band address
    192.168.0.5/24. *)
Definition sample_kernel : Kernel :=
  mkKernel (Some sample_link) [mkIPNet (Addr4 3232235525) 24] [] [] 0.

(** A network fresh from [NewWireGuardNetwork], never configured. *)
Definition fresh_state : State :=
  mkState (NewWireGuardNetwork_of sample_link) sample_kernel 0 [] [] 0 0 [].

(** The fresh network with two watchers registered. *)
Definition watched_state : State :=
  ((do WatchEndpoints in do WatchEndpoints in ret tt) fresh_state).2.

Abbreviation sample_Configure :=
  (Configure no_fault sample_addr_clash sample_addr_left sample_MachineIP sample_prefixToIPNet sample_ipNetToPrefix
             sample_IPNet_String sample_Prefix_String sample_Secret_String
             sample_toDeviceConfig sample_prefixes sample_IPSet_Prefixes
             sample_device_apply sample_newPeer sample_updateConfig).

(** [Configure] on Linux. *)
Abbreviation linux_Configure :=
  (Configure no_fault linux_addr_clash linux_addr_left sample_MachineIP
             sample_prefixToIPNet sample_ipNetToPrefix sample_IPNet_String
             sample_Prefix_String sample_Secret_String sample_toDeviceConfig
             sample_prefixes sample_IPSet_Prefixes sample_device_apply sample_newPeer
             sample_updateConfig).

(** A machine of an IPv6 cluster: subnet [1000::]/64, of which it has the
    address [1001::], also its management IP; no peers. *)
Definition config6 : Config := mkConfig (mkPrefix (Addr6 4096) 64) (Addr6 4097) [].

(** A fresh network whose interface bears the given addresses. *)
Definition bearing (addrs : list IPNet) : State :=
  mkState (NewWireGuardNetwork_of sample_link)
          (mkKernel (Some sample_link) addrs [] [] 0) 0 [] [] 0 0 [].

(** 10.210.0.5/24, an address in the subnet of machine 1; 192.168.0.5/24
    and 192.168.0.6/24. *)
Definition subnet_addr : IPNet := mkIPNet (Addr4 181534725) 24.
Definition lan_addrs : list IPNet :=
  [mkIPNet (Addr4 3232235525) 24; mkIPNet (Addr4 3232235526) 24].

Abbreviation sample_Run plan :=
  (Run no_fault plan sample_Secret_String sample_device_apply sample_updateConfig
       sample_updateFromDevice sample_shouldChangeEndpoint).

(** The watched network after its first [Configure]. *)
Definition configured_state : State :=
  (sample_Configure sample_config watched_state).2.

(** Machine 2 is now reached at its LAN endpoint. *)
Definition m2_roamed : EndpointChangeEvent := mkEvent m2_key m2_lan_endpoint.

(** The watched network, configured, with its control loop running, and
    the device reporting that machine 2 now sends from its LAN endpoint. *)
Definition roaming_state : State :=
  let s := (sample_Configure sample_config watched_state).2 in
  let k := kernel s in
  mkState (set_running true (net s))
          (mkKernel (k_link k) (k_addrs k) (k_routes k)
                    [mkWgPeer m2_key (Some m2_lan_endpoint) 100] (k_calls k))
          (chan_next s) (chan_closed s) (chan_sent s) (selects s) (now s) (logs s).

(** *** Making the link *)

Section Create.

Variable fault : nat → option Z.
(** The index the kernel gives to a link it makes. *)
Variable ifindex : Z.

(** [netlink.LinkByName]: [LinkNotFoundError] when no link bears the name. *)
Definition LinkByName (name : string) : M (Link + error) :=
  syscall fault (λ k, match k_link k with
                      | Some l => if decide (Name l = name) then (k, inl l)
                                  else (k, inr LinkNotFoundError)
                      | None => (k, inr LinkNotFoundError)
                      end).

(** [netlink.LinkAdd] of a WireGuard link of the given name: the new link is
    down and bears no address, route or peer. The kernel here holds one
    link; with one present the request fails with EEXIST. *)
Definition LinkAdd (name : string) : M (option error) :=
  let* r := syscall fault (λ k,
    match k_link k with
    | Some _ => (k, inr (Errno EEXIST))
    | None => (mkKernel (Some (mkLink name ifindex 0)) [] [] [] (k_calls k), inl tt)
    end) in
  ret (err_of r).

(** [createOrGetLink]. The errors are formatted with %v: they do not wrap
    their cause. *)
Definition createOrGetLink (name : string) : M (Link + error) :=
  let* r := LinkByName name in
  match r with
  | inl link =>
    do slog Info "Found existing WireGuard interface." None in
    ret (inl link)
  | inr LinkNotFoundError =>
    let* err := LinkAdd name in
    match err with
    | Some _ => ret (inr (ErrorNew "create WireGuard link"))
    | None =>
      do slog Info "Created WireGuard interface." None in
      let* r := LinkByName name in
      match r with
      | inr _ => ret (inr (ErrorNew "find created WireGuard link"))
      | inl link => ret (inl link)
      end
    end
  | inr _ => ret (inr (ErrorNew "find WireGuard link"))
  end.

Definition NewWireGuardNetwork : M (WireGuardNetwork + error) :=
  let* r := createOrGetLink WireGuardInterfaceName in
  match r with
  | inr _ => ret (inr (ErrorNew "create or get WireGuard link"))
  | inl link => ret (inl (NewWireGuardNetwork_of link))
  end.

End Create.

(** *** Parts of the driver's loops, and views of the state *)

Section Parts.

Variable Secret_String : Secret → string.
Variable newPeer : Z → PeerConfig → option wgPeer → peer.
Variable updateConfig : Z → peer → PeerConfig → peer.

(** One round of the loop of [configureDevice] that creates or updates the
    peers. *)
Definition upsert (t : Z) (m : gmap string peer) (pc : PeerConfig) : gmap string peer :=
  match m !! peer_key Secret_String pc with
  | Some p => <[peer_key Secret_String pc := updateConfig t p pc]> m
  | None => <[peer_key Secret_String pc := newPeer t pc None]> m
  end.

(** The map [wgPeers] of [configureDevice]: the peers of the device by
    key. *)
Definition device_index (devPeers : list wgPeer) : gmap string wgPeer :=
  foldl (λ m p, <[Secret_String (wg_PublicKey p) := p]> m) ∅ devPeers.

End Parts.

(** What of the interface outlives a request: the link, its addresses,
    routes and peers. *)
Definition iface_view (s : State) : option Link * list IPNet * list Route * list wgPeer :=
  (k_link (kernel s), k_addrs (kernel s), k_routes (kernel s), k_peers (kernel s)).

(** The route [updatePeerRoutes] adds for a prefix, on the link [l]. *)
Definition peer_route (prefixToIPNet : Prefix → IPNet) (l : Link) (p : Prefix) : Route :=
  mkRoute (Index l) SCOPE_LINK (Some (prefixToIPNet p)).

(** The destination of the route is one of the prefixes. *)
Definition routed (ipNetToPrefix : IPNet → Prefix + error) (ipset : list Prefix) (r : Route)
  : Prop :=
  ∃ dst p, Dst r = Some dst ∧ ipNetToPrefix dst = inl p ∧ p ∈ ipset.

(** A plan on which the receiver takes the event within the timeout. *)
Definition ready (p : SelectCase * Z) : Prop := p.1 = SendReady ∧ (p.2 ≤ notify_timeout)%Z.

(** Every event for every watcher, in the order [notifyWatchers] sends
    them: watcher by watcher. *)
Definition deliveries (chans : list nat) (events : list EndpointChangeEvent)
  : list (nat * EndpointChangeEvent) :=
  chans ≫= λ ch, pair ch <$> events.

(** What a publish leaves alone. *)
Definition publish_view (s : State)
  : WireGuardNetwork * Kernel * nat * list nat * list LogEntry :=
  (net s, kernel s, chan_next s, chan_closed s, logs s).

(** The keys of the peers map; [None] for a nil map. *)
Definition peer_keys (s : State) : option (gset string) := dom <$> peers (net s).

(** Everything but the entries of the peers map. *)
Definition outside_peers (s : State) :=
  (link (net s), watchers (net s), running (net s), kernel s, chan_next s, chan_closed s,
   chan_sent s, selects s, now s, logs s).

(** An entry of the patch for the device and the event for the watchers,
    made for one peer. *)
Definition patch_event (c : wgPeerConfig) (e : EndpointChangeEvent) : Prop :=
  wpc_UpdateOnly c = true ∧ wpc_Remove c = false ∧
  wpc_Endpoint c = Some (ev_Endpoint e) ∧ wpc_PublicKey c = ev_PublicKey e ∧
  String.length (wpc_PublicKey c) = 32.

(** The state after [store_peer]. *)
Definition stored (k : string) (p : peer) (s : State) : State :=
  mkState (set_peers ((λ m, <[k := p]> m) <$> peers (net s)) (net s)) (kernel s)
          (chan_next s) (chan_closed s) (chan_sent s) (selects s) (now s) (logs s).

(** Every key of [K] is a key of the peers map, if there is a map. *)
Definition has_keys (K : list string) (s : State) : Prop :=
  ∀ k m, k ∈ K → peers (net s) = Some m → is_Some (m !! k).

(** The peers of the device and the events received by the watchers. *)
Definition wire_view (s : State) : list wgPeer * list (nat * EndpointChangeEvent) :=
  (k_peers (kernel s), chan_sent s).

(** The panic of a method call on a nil interface value. *)
Definition nil_dereference : string := "invalid memory address or nil pointer dereference".

(** The link as the kernel has it. *)
Definition klink_view (s : State) : option Link := k_link (kernel s).

(** The link is up: [Flags&unix.IFF_UP == unix.IFF_UP]. *)
Definition is_up (l : Link) : Prop := Z.land (Flags l) IFF_UP = IFF_UP.

(** The peers as the driver and the device hold them. *)
Definition peers_view (s : State) : WireGuardNetwork * list wgPeer :=
  (net s, k_peers (kernel s)).

(** The state with another kernel. *)
Definition set_kernel (k : Kernel) (s : State) : State :=
  mkState (net s) k (chan_next s) (chan_closed s) (chan_sent s) (selects s) (now s) (logs s).

(** The route has a destination that [ipNetToPrefix] reads. *)
Definition parseable (ipNetToPrefix : IPNet → Prefix + error) (r : Route) : Prop :=
  ∃ dst p, Dst r = Some dst ∧ ipNetToPrefix dst = inl p.

(** The network object holds the link [l], the kernel has a link of that
    name, no address and no route is listed twice, and every route has a
    destination that can be read. *)
Definition healthy (ipNetToPrefix : IPNet → Prefix + error) (l : Link) (s : State) : Prop :=
  link (net s) = Some l ∧
  (∃ kl, k_link (kernel s) = Some kl ∧ Name kl = Name l) ∧
  NoDup (k_addrs (kernel s)) ∧
  NoDup (k_routes (kernel s)) ∧
  Forall (parseable ipNetToPrefix) (k_routes (kernel s)).

(** *** More of the sample environment *)

Abbreviation sample_configureDevice :=
  (configureDevice no_fault sample_Secret_String sample_toDeviceConfig sample_device_apply
                   sample_newPeer sample_updateConfig).

Abbreviation sample_updatePeerRoutes :=
  (updatePeerRoutes no_fault sample_prefixToIPNet sample_ipNetToPrefix sample_prefixes
                    sample_IPSet_Prefixes).

Abbreviation sample_change should :=
  (changeWireGuardEndpoints no_fault ready_plan sample_Secret_String sample_device_apply
                            sample_updateConfig should).

(** The first [select] finds its receiver ready, the later ones do not. *)
Definition second_slow_plan : nat → SelectCase * Z :=
  λ n, match n with 0 => (SendReady, 0%Z) | _ => (SendReady, 5000%Z) end.

Abbreviation sample_update plan :=
  (updatePeersFromDevice no_fault plan sample_Secret_String sample_updateFromDevice).

Abbreviation sample_Run_tick :=
  (Run_tick no_fault ready_plan sample_Secret_String sample_device_apply sample_updateConfig
            sample_updateFromDevice sample_shouldChangeEndpoint).

(** The configured network, with a route left from an earlier configuration
    on the interface: 10.99.0.0/24. *)
Definition stale_route : Route := mkRoute 7 SCOPE_LINK (Some (mkIPNet (Addr4 174260224) 24)).
Definition stale_state : State :=
  let s := configured_state in
  let k := kernel s in
  mkState (net s)
          (mkKernel (k_link k) (k_addrs k) (stale_route :: k_routes k) (k_peers k) (k_calls k))
          (chan_next s) (chan_closed s) (chan_sent s) (selects s) (now s) (logs s).

(** A peer is moved to its second candidate endpoint when its last
    handshake is more than 275 milliseconds ago. *)
Definition rotating_shouldChangeEndpoint (t : Z) (p : peer) : peer * option AddrPort :=
  match AllEndpoints (config p) with
  | _ :: ep :: _ => if decide (lastHandshake p + 275 < t)%Z then (p, Some ep) else (p, None)
  | _ => (p, None)
  end.

(** The configured network a second after its peer was last heard. *)
Definition silent_state : State :=
  let s := configured_state in
  mkState (net s) (kernel s) (chan_next s) (chan_closed s) (chan_sent s) (selects s)
          1000 (logs s).

(** A configuration whose management IP is the zero address. *)
Definition bad_config : Config :=
  mkConfig (mkPrefix (Addr4 181534720) 24) AddrZero [m2_config].


End Network.

(* ===================================================================== *)
(** ** The command line: the [--connect] flag                             *)
(* ===================================================================== *)

Module Cli.
Import Network.

(** [s[n:]] *)
Fixpoint string_from (n : nat) (s : string) : string :=
  match n, s with
  | 0, _ => s
  | S n', String _ rest => string_from n' rest
  | S _, EmptyString => EmptyString
  end.

(** [strings.HasPrefix(s, prefix)] *)
Definition HasPrefix (s prefix : string) : bool := String.prefix prefix s.

(** [config.MachineConnection]: an SSH destination, or a TCP address. *)
Record MachineConnection := mkConn { SSH : string; TCP : option AddrPort }.

Section Connect.

(** [netip.ParseAddrPort] *)
Variable ParseAddrPort : string → AddrPort + error.

(** The connection that [PersistentPreRunE] of the root command makes of
    the [--connect] flag; [None] is the nil connection, with which the
    configuration file decides. *)
Definition connection (connect : string) : option MachineConnection + error :=
  if decide (connect ≠ "") then
    if HasPrefix connect "tcp://" then
      match ParseAddrPort (string_from (String.length "tcp://") connect) with
      | inr err => inr (Wrapf "parse TCP address" err)
      | inl addrPort => inl (Some (mkConn "" (Some addrPort)))
      end
    else
      let dest := connect in
      let dest := if HasPrefix dest "ssh://"
                  then string_from (String.length "ssh://") dest else dest in
      inl (Some (mkConn dest None))
  else inl None.

End Connect.

(** A parser that knows one address. *)
Definition sample_ParseAddrPort (s : string) : AddrPort + error :=
  if decide (s = "10.210.0.1:51000") then inl (mkAddrPort (Addr4 181534721) 51000)
  else inr (ErrorNew "not an ip:port").

End Cli.

(* ===================================================================== *)
(** ** The Director: routing                                              *)
(* ===================================================================== *)

Module ProxyFacts.
Import Proxy.

Section Routing.

Variable dial_error : nat → string → Z → option string.

Lemma extends_refl w : extends w w.
Proof. unfold extends. repeat split; auto. Qed.

Lemma extends_trans w1 w2 w3 : extends w1 w2 → extends w2 w3 → extends w1 w3.
Proof.
  intros (Hb & Ha & Hp & Hc & Hd & Hm) (Hb' & Ha' & Hp' & Hc' & Hd' & Hm').
  unfold extends. repeat split; try congruence; try lia.
  intros addr. destruct (Hm addr) as [E | (E0 & id & Hid & E)];
    destruct (Hm' addr) as [E' | (E0' & id' & Hid' & E')].
  - left. congruence.
  - right. split; [congruence|]. exists id'. split; [lia|]. rewrite E'. by rewrite Hp.
  - right. split; [done|]. exists id. split; [lia|]. congruence.
  - congruence.
Qed.

(** [remoteBackend] run alone never closes anything: it returns the cached
    backend, or builds one, caches it and returns it, or fails having built
    none. *)
Lemma remoteBackend_alone addr w :
  match remoteBackend dial_error addr w with
  | (w', inl rb) =>
    extends w w' ∧ remoteBackends (dir w') !! addr = Some rb
  | (w', inr err) =>
    remoteBackends (dir w) !! addr = None ∧
    dial_error (dials w) addr (remotePort (dir w)) = Some err
  end.
Proof.
  unfold remoteBackend, Load.
  destruct (remoteBackends (dir w) !! addr) as [b|] eqn:Hc.
  - split; [apply extends_refl | done].
  - unfold NewRemoteBackend.
    destruct (dial_error (dials w) addr (remotePort (dir w))) as [err|] eqn:Hd; [done|].
    unfold LoadOrStore; simpl. rewrite Hc. simpl. split.
    + unfold extends; simpl. repeat split; auto. intros a.
      destruct (decide (a = addr)) as [->|Hne].
      * right. split; [done|]. exists (dials w). split; [lia|]. by rewrite lookup_insert_eq.
      * left. by rewrite lookup_insert_ne.
    + by rewrite lookup_insert_eq.
Qed.

(** An entry of the cache survives every extension. *)
Lemma extends_lookup w w' addr rb :
  extends w w' → remoteBackends (dir w) !! addr = Some rb →
  remoteBackends (dir w') !! addr = Some rb.
Proof.
  intros (_ & _ & _ & _ & _ & Hm) H. destruct (Hm addr) as [E | (E0 & _)]; congruence.
Qed.

(** The loop of [Director.Director]: when no construction fails, every
    slot from [i] on is written, in order, and the others are kept. *)
Lemma fill_spec machines : ∀ i backends w,
  i + length machines ≤ length backends →
  (∀ n addr, addr ∈ machines → addr ≠ localAddress (dir w) →
     remoteBackends (dir w) !! addr = None →
     dial_error n addr (remotePort (dir w)) = None) →
  ∃ w' bs,
    fill dial_error (localAddress (dir w)) (localBackend (dir w)) i machines backends w
      = (w', inl bs) ∧
    length bs = length backends ∧
    extends w w' ∧
    (∀ j, j < i → bs !! j = backends !! j) ∧
    ∀ j addr, machines !! j = Some addr →
      if decide (addr = localAddress (dir w)) then
        bs !! (i + j) = Some (Local (localBackend (dir w)))
      else ∃ rb, bs !! (i + j) = Some (Remote rb) ∧
                 remoteBackends (dir w') !! addr = Some rb.
Proof.
  induction machines as [|addr rest IH]; intros i backends w Hlen Hdial; simpl in *.
  - exists w, backends. split_and!; auto using extends_refl.
    intros j a Hj. by rewrite lookup_nil in Hj.
  - destruct (decide (addr = localAddress (dir w))) as [->|Hne].
    + destruct (IH (S i) (<[i := Local (localBackend (dir w))]> backends) w)
        as (w' & bs & Hf & Hl & He & Hkeep & Hslots).
      { rewrite length_insert. lia. }
      { intros n a Ha. apply Hdial. by right. }
      exists w', bs. rewrite Hf. rewrite length_insert in Hl.
      split_and!; auto.
      * intros j Hj. rewrite Hkeep by lia. apply list_lookup_insert_ne. lia.
      * intros [|j] a Hj; simpl in Hj.
        -- injection Hj as <-. rewrite decide_True by done.
           rewrite Nat.add_0_r, Hkeep by lia. apply list_lookup_insert_eq. lia.
        -- specialize (Hslots j a Hj). by replace (i + S j) with (S i + j) by lia.
    + pose proof (remoteBackend_alone addr w) as Hrb.
      destruct (remoteBackend dial_error addr w) as [w1 [rb|err]].
      2:{ destruct Hrb as [Hnone Herr].
          rewrite (Hdial (dials w) addr) in Herr; [done| by left | done | done]. }
      destruct Hrb as [Hext Hrb].
      pose proof Hext as (Hb1 & Ha1 & Hp1 & _ & _ & Hm1).
      destruct (IH (S i) (<[i := Remote rb]> backends) w1)
        as (w' & bs & Hf & Hl & He & Hkeep & Hslots).
      { rewrite length_insert. lia. }
      { intros n a Ha Hna Hnone. rewrite Hp1. apply Hdial; [by right | congruence |].
        destruct (Hm1 a) as [E | (E0 & _)]; congruence. }
      rewrite Ha1, Hb1 in Hf, Hslots.
      exists w', bs. rewrite Hf. rewrite length_insert in Hl.
      split_and!; auto.
      * by eapply extends_trans.
      * intros j Hj. rewrite Hkeep by lia. apply list_lookup_insert_ne. lia.
      * intros [|j] a Hj; simpl in Hj.
        -- injection Hj as <-. rewrite decide_False by done. exists rb. split.
           ++ rewrite Nat.add_0_r, Hkeep by lia. apply list_lookup_insert_eq. lia.
           ++ by eapply extends_lookup.
        -- specialize (Hslots j a Hj). by replace (i + S j) with (S i + j) by lia.
Qed.

(** C2. A call with no incoming metadata, or whose metadata has the
    [proxy-authority] key, or whose metadata has no [machines] entry, is
    routed [One2One] to the single local backend with no error; nothing of
    the director changes. *)
Theorem Director_terminates_locally (ctx : option MD) (fullMethodName : string) (w : World) :
  (ctx = None ∨
   ∃ md, ctx = Some md ∧ (is_Some (md !! "proxy-authority") ∨ md !! "machines" = None)) →
  Director_Director dial_error ctx fullMethodName w
    = (w, (One2One, [Local (localBackend (dir w))], None)).
Proof.
  intros [-> | (md & -> & [[v Hv] | Hm])]; simpl.
  - done.
  - by rewrite Hv.
  - rewrite Hm. by destruct (md !! "proxy-authority").
Qed.

(** C5, amended. A call whose metadata has no [proxy-authority] key and a
    [machines] entry that is present but empty gets an [InvalidArgument]
    error and no backend; no backend is built or looked up. *)
Theorem Director_no_machines (md : MD) (fullMethodName : string) (w : World) :
  md !! "proxy-authority" = None →
  md !! "machines" = Some [] →
  Director_Director dial_error (Some md) fullMethodName w
    = (w, (One2One, [], Some (mkStatus InvalidArgument "no machines specified"))).
Proof. intros Hp Hm. simpl. by rewrite Hp, Hm. Qed.

(** C1, amended. A call whose metadata has no [proxy-authority] key and a
    [machines] list of N >= 1 addresses, none of which needs a remote backend
    whose construction fails, gets exactly N backends in the order of the
    addresses: the local backend for an address equal to the local address,
    and for any other address the remote backend cached for it, which was
    cached before or has been built and cached by this call. The mode is
    [One2One] when N = 1 and [One2Many] when N > 1, and there is no error. *)
Theorem Director_fan_out (md : MD) (machines : list string) (fullMethodName : string)
    (w : World) :
  md !! "proxy-authority" = None →
  md !! "machines" = Some machines →
  1 ≤ length machines →
  (∀ n addr, addr ∈ machines → addr ≠ localAddress (dir w) →
     remoteBackends (dir w) !! addr = None →
     dial_error n addr (remotePort (dir w)) = None) →
  ∃ w' backends,
    Director_Director dial_error (Some md) fullMethodName w
      = (w', (if decide (length machines = 1) then One2One else One2Many, backends, None)) ∧
    length backends = length machines ∧
    extends w w' ∧
    ∀ i addr, machines !! i = Some addr →
      if decide (addr = localAddress (dir w)) then
        backends !! i = Some (Local (localBackend (dir w)))
      else ∃ rb, backends !! i = Some (Remote rb) ∧
                 remoteBackends (dir w') !! addr = Some rb.
Proof.
  intros Hp Hm Hn Hdial. simpl. rewrite Hp, Hm.
  rewrite decide_False by lia.
  destruct (fill_spec machines 0 (replicate (length machines) NilBackend) w)
    as (w' & bs & Hf & Hl & He & _ & Hslots).
  { rewrite length_replicate. lia. }
  { done. }
  rewrite Hf. rewrite length_replicate in Hl.
  exists w', bs. rewrite Hl. split; [|done].
  by destruct (decide (length machines = 1)).
Qed.

End Routing.

(** *** The cache of remote backends under concurrent calls *)

Section Race.

Variable dial_error : nat → string → Z → option string.

Lemma owned_ok_perm w0 w l l' : l ≡ₚ l' → owned_ok w0 w l → owned_ok w0 w l'.
Proof.
  intros Hp (Hnd & Hr & Hc). split_and!.
  - by rewrite <- Hp.
  - intros x. rewrite <- Hp. auto.
  - intros a b Hab. rewrite <- Hp. eauto.
Qed.

Lemma held_mid l1 pc l2 : held (l1 ++ pc :: l2) = held l1 ++ rb_held pc ++ held l2.
Proof. unfold held. by rewrite bind_app, bind_cons. Qed.

Lemma failures_mid l1 pc l2 :
  failures (l1 ++ pc :: l2) = failures l1 + length (rb_failed pc) + failures l2.
Proof. unfold failures. rewrite bind_app, bind_cons, !length_app. lia. Qed.

Lemma pc_ok_mono w w' a pc :
  (∀ a b, remoteBackends (dir w) !! a = Some b → remoteBackends (dir w') !! a = Some b) →
  pc_ok w a pc → pc_ok w' a pc.
Proof. intros Hm. destruct pc as [| | | |[|]]; simpl; auto. Qed.

Lemma step_inv addrs w0 l1 pc l2 w cl pc' w' :
  race_inv addrs w0 (l1 ++ pc :: l2) w cl →
  rb_step dial_error pc w = (pc', w') →
  ∃ cl', race_inv addrs w0 (l1 ++ pc' :: l2) w' cl'.
Proof.
  intros (Hcl & Hle & Hown & Hlt & Hmono & Hpcs & Hcount) Hstep.
  apply Forall2_app_inv_r in Hpcs as (a1 & a2' & Hpc1 & Hpc2 & ->).
  apply Forall2_cons_inv_r in Hpc2 as (a & a2 & Hpc & Hpc2 & ->).
  rewrite held_mid, failures_mid in *. rewrite !length_app in Hcount.
  assert (Hperm : ∀ h c, (held l1 ++ h ++ held l2) ++ c ≡ₚ h ++ (held l1 ++ held l2) ++ c).
  { intros h c. solve_Permutation. }
  apply (owned_ok_perm _ _ _ _ (Hperm _ _)) in Hown.
  set (R := held l1 ++ held l2) in *.
  assert (Hbuild : ∀ cl',
    closed w' = closed w0 ++ cl' →
    dials w ≤ dials w' →
    owned_ok w0 w' (rb_held pc' ++ R ++ cl') →
    (∀ a b, remoteBackends (dir w') !! a = Some b → rb_ptr b < dials w') →
    (∀ a b, remoteBackends (dir w) !! a = Some b → remoteBackends (dir w') !! a = Some b) →
    pc_ok w' a pc' →
    size (remoteBackends (dir w')) + length cl' +
      (failures l1 + length (rb_failed pc') + failures l2) +
      (length (held l1) + (length (rb_held pc') + length (held l2))) + dials w0
      = size (remoteBackends (dir w0)) + dials w' →
    ∃ cl', race_inv (a1 ++ a :: a2) w0 (l1 ++ pc' :: l2) w' cl').
  { intros cl' H1 H0 H2 H3 H4 H5 H6. exists cl'. unfold race_inv.
    rewrite held_mid, failures_mid, !length_app. split_and!; auto; try lia.
    - eapply owned_ok_perm; [symmetry; apply Hperm | done].
    - apply Forall2_app; [|constructor]; auto.
      all: eapply Forall2_impl; eauto using pc_ok_mono. }
  destruct Hown as (Hnd & Hrange & Hfresh).
  destruct pc as [addr|addr|addr b|b e|r]; simpl in Hstep, Hpc.
  - (* Load *)
    unfold Load in Hstep. subst addr.
    destruct (remoteBackends (dir w) !! a) as [b|] eqn:Hc;
      injection Hstep as <- <-; apply (Hbuild cl); simpl; auto.
    all: split_and!; auto.
  - (* NewRemoteBackend *)
    unfold NewRemoteBackend in Hstep. subst addr.
    destruct (dial_error (dials w) a (remotePort (dir w))) as [err|];
      injection Hstep as <- <-; apply (Hbuild cl); simpl in *; auto; try lia.
    + split_and!; auto. intros x Hx. specialize (Hrange x Hx). simpl. lia.
    + intros ? ? H. apply Hlt in H. simpl. lia.
    + split_and!.
      * constructor; [|done]. intros Hin. apply Hrange in Hin. lia.
      * intros x [->|Hx]%elem_of_cons; [|specialize (Hrange x Hx)]; simpl; lia.
      * intros a' b' Hab [E|Hin]%elem_of_cons; [apply Hlt in Hab; lia | by eapply Hfresh].
    + intros ? ? H. apply Hlt in H. lia.
  - (* LoadOrStore *)
    unfold LoadOrStore in Hstep. subst addr.
    destruct (remoteBackends (dir w) !! a) as [e|] eqn:Hc;
      injection Hstep as <- <-; unfold set_cache in *; simpl in *.
    + apply (Hbuild cl); simpl; auto. split_and!; auto.
    + apply NoDup_cons in Hnd as [Hnin Hnd].
      apply (Hbuild cl); simpl; auto.
      * unfold owned_ok; simpl. split_and!; auto.
        -- intros x Hx. apply Hrange. by right.
        -- intros a' b' [[-> <-]|[Hne Hab]]%lookup_insert_Some; [done|].
           intros Hin. eapply Hfresh; [done | by right].
      * intros a' b' [[-> <-]|[Hne Hab]]%lookup_insert_Some; [|by eapply Hlt].
        eapply Hrange. by left.
      * intros a' b' Hab. rewrite lookup_insert_ne; [done|]. congruence.
      * by rewrite lookup_insert_eq.
      * rewrite map_size_insert_None by done. lia.
  - (* Close *)
    injection Hstep as <- <-. apply (Hbuild (cl ++ [rb_ptr b])); simpl in *; auto.
    + rewrite Hcl. by rewrite <- app_assoc.
    + eapply owned_ok_perm; [|split_and!; eauto].
      rewrite app_assoc. by rewrite <- Permutation_cons_append.
    + rewrite length_app. simpl. lia.
  - injection Hstep as <- <-. apply (Hbuild cl); auto. split_and!; auto.
Qed.

Lemma sched_step_inv addrs w0 ths w cl t :
  race_inv addrs w0 ths w cl →
  ∃ cl', race_inv addrs w0 (sched_step dial_error (ths, w) t).1
                  (sched_step dial_error (ths, w) t).2 cl'.
Proof.
  intros Hinv. unfold sched_step. simpl.
  destruct (ths !! t) as [pc|] eqn:Ht; [|by exists cl].
  destruct (rb_step dial_error pc w) as [pc' w'] eqn:Hstep. simpl.
  rewrite insert_take_drop by (by eapply lookup_lt_Some).
  rewrite <- (take_drop_middle ths t pc Ht) in Hinv.
  by eapply step_inv.
Qed.

Lemma run_schedule_inv addrs w0 sch : ∀ ths w cl,
  race_inv addrs w0 ths w cl →
  ∃ cl', race_inv addrs w0 (run_schedule dial_error sch (ths, w)).1
                  (run_schedule dial_error sch (ths, w)).2 cl'.
Proof.
  unfold run_schedule.
  induction sch as [|t sch IH]; intros ths w cl Hinv; simpl.
  - by exists cl.
  - destruct (sched_step_inv _ _ _ _ _ t Hinv) as [cl' Hinv'].
    destruct (sched_step dial_error (ths, w) t) as [ths' w']. by eapply IH.
Qed.

(** Run alone, the steps of a call are [remoteBackend]. *)
Lemma remoteBackend_steps addr w :
  run_schedule dial_error [0; 0; 0; 0] ([RbStart addr], w)
    = ([RbDone (remoteBackend dial_error addr w).2], (remoteBackend dial_error addr w).1).
Proof.
  unfold run_schedule, sched_step, remoteBackend. simpl. unfold Load.
  destruct (remoteBackends (dir w) !! addr) as [b|] eqn:Hc; simpl; [done|].
  unfold NewRemoteBackend.
  destruct (dial_error (dials w) addr (remotePort (dir w))) as [err|]; simpl; [done|].
  unfold LoadOrStore. by rewrite Hc.
Qed.

Lemma held_start addrs : held (RbStart <$> addrs) = [].
Proof. induction addrs; [done|]. unfold held in *. by rewrite fmap_cons, bind_cons, IHaddrs. Qed.

Lemma failures_start addrs : failures (RbStart <$> addrs) = 0.
Proof.
  unfold failures. induction addrs; [done|]. by rewrite fmap_cons, bind_cons.
Qed.

Lemma race_inv_start addrs w0 :
  (∀ a b, remoteBackends (dir w0) !! a = Some b → rb_ptr b < dials w0) →
  race_inv addrs w0 (RbStart <$> addrs) w0 [].
Proof.
  intros Hwf. unfold race_inv, owned_ok.
  rewrite held_start, failures_start, app_nil_r. simpl. split_and!; auto; try lia.
  - constructor.
  - intros x Hx. by apply elem_of_nil in Hx.
  - intros a b _ Hx. by apply elem_of_nil in Hx.
  - apply Forall2_fmap_r, Forall_Forall2_diag, Forall_forall. by intros.
Qed.

Lemma held_done ths : forallb rb_done ths = true → held ths = [].
Proof.
  unfold held. induction ths as [|pc ths IH]; [done|].
  intros [Hpc H]%andb_prop. rewrite bind_cons, IH by done. by destruct pc.
Qed.

Lemma rb_step_left pc w : rb_left (rb_step dial_error pc w).1 ≤ pred (rb_left pc).
Proof.
  destruct pc as [addr|addr|addr b|b e|r]; simpl.
  - destruct (Load _ _); simpl; lia.
  - unfold NewRemoteBackend. destruct (dial_error _ _ _); simpl; lia.
  - unfold LoadOrStore. destruct (_ !! _); simpl; lia.
  - lia.
  - lia.
Qed.

Lemma sched_step_left ths w t u pc :
  ths !! t = Some pc →
  ∃ pc', (sched_step dial_error (ths, w) u).1 !! t = Some pc' ∧
         rb_left pc' ≤ rb_left pc - (if decide (u = t) then 1 else 0).
Proof.
  intros Ht. unfold sched_step. simpl.
  destruct (ths !! u) as [pcu|] eqn:Hu; simpl.
  - pose proof (rb_step_left pcu w) as Hl.
    destruct (rb_step dial_error pcu w) as [pc' w']. simpl in *.
    destruct (decide (u = t)) as [->|Hne].
    + assert (pcu = pc) as -> by congruence.
      exists pc'. rewrite list_lookup_insert_eq by (by eapply lookup_lt_Some). split; [done | lia].
    + exists pc. rewrite list_lookup_insert_ne by done. split; [done | lia].
  - exists pc. split; [done|]. destruct (decide (u = t)) as [->|]; [congruence | lia].
Qed.

Lemma run_schedule_left sch : ∀ ths w t pc,
  ths !! t = Some pc →
  ∃ pc', (run_schedule dial_error sch (ths, w)).1 !! t = Some pc' ∧
         rb_left pc' ≤ rb_left pc - steps_of t sch.
Proof.
  unfold run_schedule, steps_of.
  induction sch as [|u sch IH]; intros ths w t pc Ht; simpl.
  - exists pc. split; [done | lia].
  - destruct (sched_step_left ths w t u pc Ht) as (pc1 & H1 & Hl1).
    destruct (sched_step dial_error (ths, w) u) as [ths1 w1]. simpl in H1.
    destruct (IH ths1 w1 t pc1 H1) as (pc' & H' & Hl').
    exists pc'. split; [done|].
    rewrite filter_cons. destruct (decide (u = t)); simpl; lia.
Qed.

Lemma rb_left_done pc : rb_left pc = 0 → ∃ r, pc = RbDone r.
Proof. destruct pc; simpl; try lia. eauto. Qed.

(** A call that is given four steps has returned, whatever the others do. *)
Lemma run_schedule_returns addrs sch w0 t addr :
  addrs !! t = Some addr → 4 ≤ steps_of t sch →
  ∃ r, (run_schedule dial_error sch (RbStart <$> addrs, w0)).1 !! t = Some (RbDone r).
Proof.
  intros Ha Hn.
  destruct (run_schedule_left sch (RbStart <$> addrs) w0 t (RbStart addr)) as (pc & Hpc & Hl).
  { by rewrite list_lookup_fmap, Ha. }
  simpl in Hl. destruct (rb_left_done pc) as [r ->]; [lia|]. eauto.
Qed.

Lemma run_schedule_length sch : ∀ ths w,
  length (run_schedule dial_error sch (ths, w)).1 = length ths.
Proof.
  unfold run_schedule. induction sch as [|u sch IH]; intros ths w; simpl; [done|].
  destruct (sched_step dial_error (ths, w) u) as [ths1 w1] eqn:E. rewrite IH.
  unfold sched_step in E. simpl in E. destruct (ths !! u); [|by simplify_eq].
  destruct (rb_step _ _ _). simplify_eq. by rewrite length_insert.
Qed.

Lemma run_schedule_all_done addrs sch w0 :
  (∀ t, t < length addrs → 4 ≤ steps_of t sch) →
  forallb rb_done (run_schedule dial_error sch (RbStart <$> addrs, w0)).1 = true.
Proof.
  intros Hfair. apply forallb_forall. intros pc Hin.
  apply list_elem_of_In, list_elem_of_lookup in Hin as [t Ht].
  assert (Hlt : t < length addrs).
  { apply lookup_lt_Some in Ht. by rewrite run_schedule_length, length_fmap in Ht. }
  destruct (lookup_lt_is_Some_2 addrs t Hlt) as [addr Ha].
  destruct (run_schedule_returns addrs sch w0 t addr Ha (Hfair t Hlt)) as [r Hr].
  rewrite Hr in Ht. by injection Ht as <-.
Qed.

(** A call that finds nothing stored builds a backend, stores it and
    returns it; when the backend cannot be built it returns the error and
    stores nothing. *)
Lemma remoteBackend_miss addr w :
  remoteBackends (dir w) !! addr = None →
  let b := mkRemote (dials w) addr (remotePort (dir w)) in
  let r := remoteBackend dial_error addr w in
  dials r.1 = S (dials w) ∧ closed r.1 = closed w ∧
  match dial_error (dials w) addr (remotePort (dir w)) with
  | None => r.2 = inl b ∧ remoteBackends (dir r.1) = <[addr := b]> (remoteBackends (dir w))
  | Some err => r.2 = inr err ∧ remoteBackends (dir r.1) = remoteBackends (dir w)
  end.
Proof.
  intros Hc. unfold remoteBackend, Load. rewrite Hc. unfold NewRemoteBackend.
  destruct (dial_error _ _ _); simpl; [done|].
  unfold LoadOrStore. simpl. rewrite Hc. simpl. done.
Qed.

(** C6. [remoteBackend] is a load-or-store cache. A call that finds a
    backend stored for the address returns it and builds none. A call that
    finds none builds one, stores it and returns it, or returns the error of
    building it; run alone, the steps of a call do what [remoteBackend]
    does. A creator whose [LoadOrStore] reports an existing entry closes the
    backend it has just built and returns the stored one. And however the
    steps of any number of concurrent calls interleave: a call that is given
    four steps has returned; every call that returns a backend for an address
    returns the one cached for it, so all calls for one address return the
    same backend; an entry of the cache is never replaced; the backends
    closed are pairwise distinct, were built by these calls and are not
    cached; and once all calls have returned, as they have when each was
    given four steps, every backend built is either cached or closed. *)
Theorem remoteBackend_load_or_store (addrs : list string) (sch : list nat) (w0 : World)
    (Hwf : ∀ a b, remoteBackends (dir w0) !! a = Some b → rb_ptr b < dials w0) :
  (∀ addr w b, remoteBackends (dir w) !! addr = Some b →
     remoteBackend dial_error addr w = (w, inl b) ∧
     rb_step dial_error (RbStart addr) w = (RbDone (inl b), w)) ∧
  (∀ addr w, remoteBackends (dir w) !! addr = None →
     let b := mkRemote (dials w) addr (remotePort (dir w)) in
     let r := remoteBackend dial_error addr w in
     dials r.1 = S (dials w) ∧ closed r.1 = closed w ∧
     match dial_error (dials w) addr (remotePort (dir w)) with
     | None => r.2 = inl b ∧ remoteBackends (dir r.1) = <[addr := b]> (remoteBackends (dir w))
     | Some err => r.2 = inr err ∧ remoteBackends (dir r.1) = remoteBackends (dir w)
     end) ∧
  (∀ addr w,
     run_schedule dial_error [0; 0; 0; 0] ([RbStart addr], w)
       = ([RbDone (remoteBackend dial_error addr w).2], (remoteBackend dial_error addr w).1)) ∧
  (∀ addr backend existing w, remoteBackends (dir w) !! addr = Some existing →
     rb_step dial_error (RbBuilt addr backend) w = (RbLost backend existing, w) ∧
     rb_step dial_error (RbLost backend existing) w
       = (RbDone (inl existing), mkWorld (dir w) (dials w) (closed w ++ [rb_ptr backend]))) ∧
  let '(ths, w) := run_schedule dial_error sch (RbStart <$> addrs, w0) in
  (∀ t addr, addrs !! t = Some addr → 4 ≤ steps_of t sch →
     ∃ r, ths !! t = Some (RbDone r)) ∧
  (∀ t addr b, addrs !! t = Some addr → ths !! t = Some (RbDone (inl b)) →
     remoteBackends (dir w) !! addr = Some b) ∧
  (∀ addr b, remoteBackends (dir w0) !! addr = Some b →
     remoteBackends (dir w) !! addr = Some b) ∧
  ∃ cl, closed w = closed w0 ++ cl ∧ NoDup cl ∧
    (∀ x, x ∈ cl → dials w0 ≤ x < dials w ∧
       ∀ addr b, remoteBackends (dir w) !! addr = Some b → rb_ptr b ≠ x) ∧
    ((∀ t, t < length addrs → 4 ≤ steps_of t sch) → forallb rb_done ths = true) ∧
    (forallb rb_done ths = true →
       size (remoteBackends (dir w)) + length cl + failures ths + dials w0
         = size (remoteBackends (dir w0)) + dials w).
Proof.
  split_and!.
  - intros addr w b H. unfold remoteBackend. simpl. unfold Load. by rewrite H.
  - apply remoteBackend_miss.
  - apply remoteBackend_steps.
  - intros addr backend existing w H. simpl. unfold LoadOrStore. by rewrite H.
  - destruct (run_schedule_inv addrs w0 sch _ _ _ (race_inv_start addrs w0 Hwf))
      as (cl & Hcl & Hle & (Hnd & Hrange & Hfresh) & Hlt & Hmono & Hpcs & Hcount).
    pose proof (run_schedule_returns addrs sch w0) as Hret.
    pose proof (run_schedule_all_done addrs sch w0) as Hall.
    destruct (run_schedule dial_error sch (RbStart <$> addrs, w0)) as [ths w]. simpl in *.
    split_and!.
    + done.
    + intros t addr b Ha Ht.
      by destruct (Forall2_lookup_lr _ _ _ _ _ _ Hpcs Ha Ht).
    + done.
    + exists cl. split_and!; auto.
      * by apply NoDup_app in Hnd as (_ & _ & ?).
      * intros x Hx. split.
        -- apply Hrange. apply elem_of_app. by right.
        -- intros addr b Hab E. eapply Hfresh; [done|]. rewrite E.
           apply elem_of_app. by right.
      * intros Hdone. rewrite held_done in Hcount by done. simpl in Hcount. lia.
Qed.
End Race.

Lemma remoteBackend_load_or_store_witness :
  (∀ a b, remoteBackends (dir sample_world) !! a = Some b → rb_ptr b < dials sample_world) ∧
  let '(ths, w) :=
    run_schedule dial_ok (race_schedule ++ [0]) (RbStart <$> race_addrs, sample_world) in
  (∀ t addr, race_addrs !! t = Some addr → 4 ≤ steps_of t (race_schedule ++ [0]) →
     ∃ r, ths !! t = Some (RbDone r)) ∧
  (∀ t addr b, race_addrs !! t = Some addr → ths !! t = Some (RbDone (inl b)) →
     remoteBackends (dir w) !! addr = Some b) ∧
  (∀ addr b, remoteBackends (dir sample_world) !! addr = Some b →
     remoteBackends (dir w) !! addr = Some b) ∧
  ∃ cl, closed w = closed sample_world ++ cl ∧ NoDup cl ∧
    (∀ x, x ∈ cl → dials sample_world ≤ x < dials w ∧
       ∀ addr b, remoteBackends (dir w) !! addr = Some b → rb_ptr b ≠ x) ∧
    ((∀ t, t < length race_addrs → 4 ≤ steps_of t (race_schedule ++ [0])) →
     forallb rb_done ths = true) ∧
    (forallb rb_done ths = true →
       size (remoteBackends (dir w)) + length cl + failures ths + dials sample_world
         = size (remoteBackends (dir sample_world)) + dials w).
Proof.
  assert (Hwf : ∀ a b, remoteBackends (dir sample_world) !! a = Some b →
                       rb_ptr b < dials sample_world).
  { assert (E : remoteBackends (dir sample_world) = ∅) by reflexivity.
    intros a b H. by rewrite E, lookup_empty in H. }
  split; [exact Hwf|].
  apply (remoteBackend_load_or_store dial_ok race_addrs (race_schedule ++ [0]) sample_world
           Hwf).
Defined.

(** In that schedule each of the two calls is given four steps. *)
Example race_schedule_fair :
  ∀ t, t < length race_addrs → 4 ≤ steps_of t (race_schedule ++ [0]).
Proof. intros [|[|t]] Ht; vm_compute in *; lia. Qed.

(** In that race both calls return the backend built first, and the one
    built second is closed. *)
Example race_outcome :
  let '(ths, w) := run_schedule dial_ok race_schedule (RbStart <$> race_addrs, sample_world) in
  ths = [RbDone (inl (mkRemote 0 "10.210.0.2" 51000));
         RbDone (inl (mkRemote 0 "10.210.0.2" 51000))] ∧
  remoteBackends (dir w) !! "10.210.0.2" = Some (mkRemote 0 "10.210.0.2" 51000) ∧
  dials w = 2 ∧ closed w = [1].
Proof. by vm_compute. Qed.

Lemma Director_terminates_locally_witness :
  Director_Director dial_ok (Some (forwarded_md ["10.210.0.2"; "10.210.0.3"]))
                    "/api.Machine/Inspect" sample_world
    = (sample_world, (One2One, [Local (localBackend (dir sample_world))], None)).
Proof.
  apply (Director_terminates_locally dial_ok).
  right. eexists. split; [reflexivity|]. left. vm_compute. eauto.
Defined.

(** C5 as stated fails on a forwarded call: with the [proxy-authority] key
    present, an empty [machines] entry is not looked at, and the call goes
    to the local backend without error. *)
Lemma Director_no_machines_forwarded :
  forwarded_md [] !! "machines" = Some [] ∧
  Director_Director dial_ok (Some (forwarded_md [])) "/api.Machine/Inspect" sample_world
    = (sample_world, (One2One, [Local (localBackend (dir sample_world))], None)) ∧
  ¬ ∃ w' s, Director_Director dial_ok (Some (forwarded_md [])) "/api.Machine/Inspect"
                              sample_world
            = (w', (One2One, [], Some (mkStatus InvalidArgument s))).
Proof.
  split; [by vm_compute|]. split; [by vm_compute|].
  intros (w' & s & H).
  assert (E : Director_Director dial_ok (Some (forwarded_md [])) "/api.Machine/Inspect"
                                sample_world
              = (sample_world, (One2One, [Local (localBackend (dir sample_world))], None)))
    by (by vm_compute).
  rewrite E in H. discriminate H.
Qed.

Lemma Director_no_machines_witness :
  plain_md [] !! "proxy-authority" = None ∧
  plain_md [] !! "machines" = Some [] ∧
  Director_Director dial_ok (Some (plain_md [])) "/api.Machine/Inspect" sample_world
    = (sample_world, (One2One, [], Some (mkStatus InvalidArgument "no machines specified"))).
Proof.
  split; [by vm_compute|]. split; [by vm_compute|].
  apply (Director_no_machines dial_ok); by vm_compute.
Defined.

(** C1 as stated fails in two ways. A forwarded call that names two
    machines gets the single local backend in mode [One2One], not two
    backends in mode [One2Many]. And when the construction of a remote
    backend fails, a call that names one machine gets an [Internal] error and
    no backend. *)
Lemma Director_fan_out_fails :
  (let md := forwarded_md ["10.210.0.2"; "10.210.0.3"] in
   let r := (Director_Director dial_ok (Some md) "/api.Cluster/ListMachines"
                               sample_world).2 in
   md !! "machines" = Some ["10.210.0.2"; "10.210.0.3"] ∧
   r = (One2One, [Local (localBackend (dir sample_world))], None) ∧
   length r.1.2 ≠ 2 ∧ r.1.1 ≠ One2Many) ∧
  (let md := plain_md ["10.210.0.2"] in
   let r := (Director_Director dial_refused (Some md) "/api.Cluster/ListMachines"
                               sample_world).2 in
   md !! "machines" = Some ["10.210.0.2"] ∧
   r = (One2One, [], Some (mkStatus Internal "connection refused")) ∧
   length r.1.2 ≠ 1).
Proof. by vm_compute. Qed.

Lemma Director_fan_out_witness :
  ∃ w' backends,
    Director_Director dial_ok
        (Some (plain_md ["10.210.0.2"; "10.210.0.1"; "10.210.0.2"]))
        "/api.Cluster/ListMachines" sample_world
      = (w', (One2Many, backends, None)) ∧
    length backends = 3 ∧
    extends sample_world w' ∧
    ∀ i addr, ["10.210.0.2"; "10.210.0.1"; "10.210.0.2"] !! i = Some addr →
      if decide (addr = "10.210.0.1") then
        backends !! i = Some (Local (localBackend (dir sample_world)))
      else ∃ rb, backends !! i = Some (Remote rb) ∧
                 remoteBackends (dir w') !! addr = Some rb.
Proof.
  apply (Director_fan_out dial_ok (plain_md ["10.210.0.2"; "10.210.0.1"; "10.210.0.2"])
           ["10.210.0.2"; "10.210.0.1"; "10.210.0.2"]
           "/api.Cluster/ListMachines" sample_world).
  - by vm_compute.
  - by vm_compute.
  - simpl. lia.
  - reflexivity.
Defined.


(** *** More of the director: outcomes, errors, the cache over time *)

Section More.
Variable dial_error : nat → string → Z → option string.

(** The loop of [Director], from any index: what it has filled when it ends,
    and what has failed when it leaves. *)
Lemma fill_inv machines : ∀ i backends w w' r,
  i + length machines ≤ length backends →
  fill dial_error (localAddress (dir w)) (localBackend (dir w)) i machines backends w
    = (w', r) →
  extends w w' ∧
  match r with
  | inl bs =>
    length bs = length backends ∧
    (∀ j, j < i → bs !! j = backends !! j) ∧
    ∀ j addr, machines !! j = Some addr →
      if decide (addr = localAddress (dir w)) then
        bs !! (i + j) = Some (Local (localBackend (dir w)))
      else ∃ rb, bs !! (i + j) = Some (Remote rb) ∧
                 remoteBackends (dir w') !! addr = Some rb
  | inr err =>
    ∃ addr, addr ∈ machines ∧ addr ≠ localAddress (dir w) ∧
            remoteBackends (dir w') !! addr = None ∧
            dial_error (dials w' - 1) addr (remotePort (dir w)) = Some err ∧
            dials w < dials w'
  end.
Proof.
  induction machines as [|addr rest IH]; intros i backends w w' r Hlen Hf; simpl in *.
  - injection Hf as <- <-. split; [apply extends_refl|]. split_and!; auto.
    intros j a Hj. by rewrite lookup_nil in Hj.
  - destruct (decide (addr = localAddress (dir w))) as [->|Hne].
    + apply IH in Hf as [He Hr]; [|rewrite length_insert; lia].
      split; [done|]. destruct r as [bs|err].
      * destruct Hr as (Hl & Hkeep & Hslots). rewrite length_insert in Hl. split_and!; auto.
        -- intros j Hj. rewrite Hkeep by lia. apply list_lookup_insert_ne. lia.
        -- intros [|j] a Hj; simpl in Hj.
           ++ injection Hj as <-. rewrite decide_True by done.
              rewrite Nat.add_0_r, Hkeep by lia. apply list_lookup_insert_eq. lia.
           ++ specialize (Hslots j a Hj). by replace (i + S j) with (S i + j) by lia.
      * destruct Hr as (a & Ha & Hr). exists a. split; [by right | done].
    + pose proof (remoteBackend_alone dial_error addr w) as Hrb.
      destruct (remoteBackend dial_error addr w) as [w1 [rb|err]] eqn:Erb.
      * destruct Hrb as [Hext Hrb].
        pose proof Hext as (Hb1 & Ha1 & Hp1 & _ & Hd1 & _).
        rewrite <- Ha1, <- Hb1 in Hf.
        apply IH in Hf as [He Hr]; [|rewrite length_insert; lia].
        split; [by eapply extends_trans|]. rewrite Ha1, Hb1 in Hr.
        destruct r as [bs|err].
        -- destruct Hr as (Hl & Hkeep & Hslots). rewrite length_insert in Hl.
           split_and!; auto.
           ++ intros j Hj. rewrite Hkeep by lia. apply list_lookup_insert_ne. lia.
           ++ intros [|j] a Hj; simpl in Hj.
              ** injection Hj as <-. rewrite decide_False by done. exists rb. split.
                 --- rewrite Nat.add_0_r, Hkeep by lia. apply list_lookup_insert_eq. lia.
                 --- by eapply extends_lookup.
              ** specialize (Hslots j a Hj). by replace (i + S j) with (S i + j) by lia.
        -- destruct Hr as (a & Ha & Hna & Hnone & Herr & Hlt). exists a.
           rewrite Hp1 in Herr. split_and!; auto; [by right | lia].
      * injection Hf as <- <-. destruct Hrb as [Hnone Herr].
        unfold remoteBackend, Load in Erb. rewrite Hnone in Erb.
        unfold NewRemoteBackend in Erb. rewrite Herr in Erb. injection Erb as <-.
        split.
        { unfold extends. simpl. split_and!; auto. }
        exists addr. simpl. rewrite Nat.sub_0_r. split_and!; auto. by left.
Qed.


(** The outcome of [Director.Director] on metadata with a [machines] entry
    and no [proxy-authority] key. *)
Lemma Director_named md machines m w :
  md !! "proxy-authority" = None → md !! "machines" = Some machines →
  Director_Director dial_error (Some md) m w =
    if decide (length machines = 0) then
      (w, (One2One, [], Some (mkStatus InvalidArgument "no machines specified")))
    else
      match fill dial_error (localAddress (dir w)) (localBackend (dir w)) 0 machines
                 (replicate (length machines) NilBackend) w with
      | (w', inr err) => (w', (One2One, [], Some (mkStatus Internal err)))
      | (w', inl backends) =>
        if decide (length backends = 1) then (w', (One2One, backends, None))
        else (w', (One2Many, backends, None))
      end.
Proof. intros Hp Hm. simpl. by rewrite Hp, Hm. Qed.

(** A call goes to the local backend alone, or its metadata lacks the
    [proxy-authority] key and names machines. *)
Lemma Director_cases ctx m w :
  Director_Director dial_error ctx m w
    = (w, (One2One, [Local (localBackend (dir w))], None)) ∨
  ∃ md machines, ctx = Some md ∧ md !! "proxy-authority" = None ∧
                 md !! "machines" = Some machines.
Proof.
  destruct ctx as [md|]; [|by left]. simpl.
  destruct (md !! "proxy-authority") eqn:Hp; [by left|].
  destruct (md !! "machines") as [machines|] eqn:Hm; [|by left].
  right. by exists md, machines.
Qed.

Lemma fill_slots_not_nil machines w w' bs :
  fill dial_error (localAddress (dir w)) (localBackend (dir w)) 0 machines
       (replicate (length machines) NilBackend) w = (w', inl bs) →
  length bs = length machines ∧ NilBackend ∉ bs.
Proof.
  intros Hf. apply fill_inv in Hf as [_ (Hl & _ & Hslots)]; [|rewrite length_replicate; lia].
  rewrite length_replicate in Hl. split; [done|].
  intros (j & Hj)%list_elem_of_lookup.
  assert (j < length machines) as Hlt by (rewrite <- Hl; by eapply lookup_lt_Some).
  destruct (lookup_lt_is_Some_2 machines j Hlt) as [a Ha].
  specialize (Hslots j a Ha). simpl in Hslots.
  destruct (decide _); [congruence|]. destruct Hslots as (rb & E & _). congruence.
Qed.

(** X1. Whatever the metadata, a call of [Director] only extends the world:
    the director's own fields and the log of closes are as before, and what
    was cached stays cached. When it returns no error there is at least one
    backend, no slot is left nil, and the mode is One2Many exactly when
    there are two backends or more. When it returns an error there are no
    backends and the mode is One2One. *)
Theorem Director_outcome (ctx : option MD) (m : string) (w w' : World) (mode : Mode)
    (bs : list Backend) (err : option Status) :
  Director_Director dial_error ctx m w = (w', (mode, bs, err)) →
  extends w w' ∧
  match err with
  | None => 1 ≤ length bs ∧ (NilBackend ∉ bs) ∧ (mode = One2Many ↔ 2 ≤ length bs)
  | Some _ => bs = [] ∧ mode = One2One
  end.
Proof.
  intros H. destruct (Director_cases ctx m w) as [E | (md & machines & -> & Hp & Hm)].
  - rewrite E in H. injection H as <- <- <- <-. split; [apply extends_refl|].
    simpl. split_and!; [lia | | split; [done | lia]].
    by intros [=]%list_elem_of_singleton.
  - rewrite (Director_named _ _ _ _ Hp Hm) in H.
    destruct (decide (length machines = 0)).
    { injection H as <- <- <- <-. split; [apply extends_refl | done]. }
    destruct (fill _ _ _ _ _ _ _) as [w1 [bs1|e]] eqn:Hf.
    + pose proof (fill_slots_not_nil _ _ _ _ Hf) as [Hl Hnil].
      apply fill_inv in Hf as [He _]; [|rewrite length_replicate; lia].
      destruct (decide (length bs1 = 1)); injection H as <- <- <- <-;
        (split; [done|]); split_and!; auto; try lia; split; (done || lia).
    + apply fill_inv in Hf as [He _]; [|rewrite length_replicate; lia].
      injection H as <- <- <- <-. by split.
Qed.

(** X2. [Director] returns an error only for metadata that lacks the
    [proxy-authority] key and has a [machines] entry. For the empty list the
    error is InvalidArgument and nothing has changed. Otherwise it is
    Internal and carries the message of the failed construction of a
    backend, the last construction made, for a listed address that is not
    the local one and is not cached afterwards. *)
Theorem Director_errors (ctx : option MD) (m : string) (w w' : World) (mode : Mode)
    (bs : list Backend) (st : Status) :
  Director_Director dial_error ctx m w = (w', (mode, bs, Some st)) →
  ∃ md machines, ctx = Some md ∧ md !! "proxy-authority" = None ∧
    md !! "machines" = Some machines ∧
    ((machines = [] ∧ st = mkStatus InvalidArgument "no machines specified" ∧ w' = w) ∨
     (st_code st = Internal ∧
      ∃ addr, addr ∈ machines ∧ addr ≠ localAddress (dir w) ∧
              remoteBackends (dir w') !! addr = None ∧
              dial_error (dials w' - 1) addr (remotePort (dir w)) = Some (st_msg st) ∧
              dials w < dials w')).
Proof.
  intros H. destruct (Director_cases ctx m w) as [E | (md & machines & -> & Hp & Hm)].
  { rewrite E in H. discriminate H. }
  exists md, machines. split_and!; auto.
  rewrite (Director_named _ _ _ _ Hp Hm) in H.
  destruct (decide (length machines = 0)) as [Hz|Hnz].
  { injection H as <- <- <- <-. left. split_and!; auto. by apply nil_length_inv. }
  destruct (fill _ _ _ _ _ _ _) as [w1 [bs1|e]] eqn:Hf.
  - destruct (decide (length bs1 = 1)); discriminate H.
  - apply fill_inv in Hf as [He Hr]; [|rewrite length_replicate; lia].
    injection H as <- <- <- <-. right. by split.
Qed.

(** When every named address that is not local is cached, the loop builds
    nothing. *)
Lemma fill_cached machines : ∀ i backends w w' r,
  (∀ addr, addr ∈ machines → addr ≠ localAddress (dir w) →
           is_Some (remoteBackends (dir w) !! addr)) →
  fill dial_error (localAddress (dir w)) (localBackend (dir w)) i machines backends w
    = (w', r) →
  w' = w.
Proof.
  induction machines as [|addr rest IH]; intros i backends w w' r Hc Hf; simpl in Hf.
  - by injection Hf as <- _.
  - destruct (decide (addr = localAddress (dir w))) as [->|Hne].
    + eapply IH; [|exact Hf]. intros a Ha. apply Hc. by right.
    + destruct (Hc addr) as [b Hb]; [by left | done |].
      unfold remoteBackend, Load in Hf. rewrite Hb in Hf.
      eapply IH; [|exact Hf]. intros a Ha. apply Hc. by right.
Qed.

(** X3. A call that returned without error, made again on the world it
    left, for whatever method, returns the same mode and the same backends
    and changes nothing: every remote backend now comes from the cache. *)
Theorem Director_again (ctx : option MD) (m m' : string) (w w' : World) (mode : Mode)
    (bs : list Backend) :
  Director_Director dial_error ctx m w = (w', (mode, bs, None)) →
  Director_Director dial_error ctx m' w' = (w', (mode, bs, None)).
Proof.
  intros H. destruct (Director_cases ctx m w) as [E | (md & machines & -> & Hp & Hm)].
  { rewrite E in H. injection H as <- <- <-. exact E. }
  rewrite (Director_named _ _ _ _ Hp Hm) in H.
  rewrite (Director_named _ _ m' w' Hp Hm).
  destruct (decide (length machines = 0)); [discriminate H|].
  destruct (fill dial_error (localAddress (dir w)) _ _ _ _ w) as [w1 [bs1|e]] eqn:Hf;
    [|discriminate H].
  assert (w1 = w' ∧ bs1 = bs) as [-> ->]
    by (destruct (decide (length bs1 = 1)); by injection H as <- _ <-).
  pose proof Hf as Hf0.
  apply fill_inv in Hf as [He (Hl & _ & Hslots)]; [|rewrite length_replicate; lia].
  pose proof He as (Hb & Ha & _).
  destruct (fill dial_error (localAddress (dir w')) _ _ _ _ w') as [w2 r2] eqn:Hf2.
  pose proof (fill_cached _ _ _ _ _ _
    ltac:(intros a [j Hj]%list_elem_of_lookup Hna; specialize (Hslots j a Hj);
          rewrite Ha in Hna; rewrite decide_False in Hslots by done;
          destruct Hslots as (rb & _ & Hrb); by exists rb) Hf2) as ->.
  apply fill_inv in Hf2 as [_ Hr2]; [|rewrite length_replicate; lia].
  destruct r2 as [bs2|e2]; [|destruct Hr2 as (? & _ & _ & _ & _ & ?); lia].
  destruct Hr2 as (Hl2 & _ & Hslots2).
  assert (bs2 = bs) as ->.
  { apply list_eq. intros j. destruct (decide (j < length machines)) as [Hj|Hj].
    - destruct (lookup_lt_is_Some_2 machines j Hj) as [a Hja].
      specialize (Hslots j a Hja). specialize (Hslots2 j a Hja). simpl in *.
      rewrite Ha, Hb in Hslots2. destruct (decide _); [congruence|].
      destruct Hslots as (rb & -> & Hrb). destruct Hslots2 as (rb2 & -> & Hrb2). congruence.
    - rewrite length_replicate in Hl, Hl2.
      rewrite !lookup_ge_None_2; [done | lia | lia]. }
  done.
Qed.


(** X4. An address listed twice gets one and the same backend in both
    slots. *)
Theorem Director_shares (md : MD) (machines : list string) (m : string) (w w' : World)
    (mode : Mode) (bs : list Backend) (i j : nat) (addr : string) :
  md !! "proxy-authority" = None → md !! "machines" = Some machines →
  Director_Director dial_error (Some md) m w = (w', (mode, bs, None)) →
  machines !! i = Some addr → machines !! j = Some addr →
  is_Some (bs !! i) ∧ bs !! i = bs !! j.
Proof.
  intros Hp Hm H Hi Hj. rewrite (Director_named _ _ _ _ Hp Hm) in H.
  destruct (decide (length machines = 0)); [discriminate H|].
  destruct (fill _ _ _ _ _ _ _) as [w1 [bs1|e]] eqn:Hf; [|discriminate H].
  assert (w1 = w' ∧ bs1 = bs) as [-> ->]
    by (destruct (decide (length bs1 = 1)); by injection H as <- _ <-).
  apply fill_inv in Hf as [_ (_ & _ & Hslots)]; [|rewrite length_replicate; lia].
  pose proof (Hslots i addr Hi) as Si. pose proof (Hslots j addr Hj) as Sj. simpl in *.
  destruct (decide (addr = localAddress (dir w))).
  - rewrite Si, Sj. by split.
  - destruct Si as (rb & -> & Hrb). destruct Sj as (rb' & -> & Hrb').
    split; [done | congruence].
Qed.

(** X5. After [UpdateLocalAddress addr], a call that names machines sends
    the slots of [addr] to a local backend for the same socket and the new
    address, and every other slot, the former local address among them, to a
    remote backend held in the cache. Nothing has been closed, and what was
    cached before the update is cached still. *)
Theorem UpdateLocalAddress_reroutes (addr : string) (md : MD) (machines : list string)
    (m : string) (w w' : World) (mode : Mode) (bs : list Backend) :
  md !! "proxy-authority" = None → md !! "machines" = Some machines →
  Director_Director dial_error (Some md) m (Director_UpdateLocalAddress addr w)
    = (w', (mode, bs, None)) →
  closed w' = closed w ∧
  (∀ a b, remoteBackends (dir w) !! a = Some b → remoteBackends (dir w') !! a = Some b) ∧
  ∀ i a, machines !! i = Some a →
    if decide (a = addr) then
      bs !! i = Some (Local (NewLocalBackend (sockPath (localBackend (dir w))) addr))
    else ∃ rb, bs !! i = Some (Remote rb) ∧ remoteBackends (dir w') !! a = Some rb.
Proof.
  intros Hp Hm H. rewrite (Director_named _ _ _ _ Hp Hm) in H.
  destruct (decide (length machines = 0)); [discriminate H|].
  destruct (fill _ _ _ _ _ _ _) as [w1 [bs1|e]] eqn:Hf; [|discriminate H].
  assert (w1 = w' ∧ bs1 = bs) as [-> ->]
    by (destruct (decide (length bs1 = 1)); by injection H as <- _ <-).
  apply fill_inv in Hf as [He (_ & _ & Hslots)]; [|rewrite length_replicate; lia].
  split_and!.
  - by destruct He as (_ & _ & _ & -> & _).
  - intros a b Hab. by apply (extends_lookup _ _ _ _ He).
  - intros i a Hi. exact (Hslots i a Hi).
Qed.

End More.

Lemma Range_flush_spec order : ∀ w,
  let w' := Range_flush order w in
  remoteBackends (dir w') = foldl (λ c kb, delete kb.1 c) (remoteBackends (dir w)) order ∧
  closed w' = closed w ++ ((λ kb, rb_ptr kb.2) <$> order) ∧
  dials w' = dials w ∧ localBackend (dir w') = localBackend (dir w) ∧
  localAddress (dir w') = localAddress (dir w) ∧ remotePort (dir w') = remotePort (dir w).
Proof.
  induction order as [|[k b] rest IH]; intros w; simpl.
  - by rewrite app_nil_r.
  - destruct (IH (del_cache k (CloseRemote b w))) as (-> & -> & -> & -> & -> & ->).
    simpl. by rewrite <- app_assoc.
Qed.

Lemma foldl_delete_lookup (order : list (string * RemoteBackend)) :
  ∀ (c : gmap string RemoteBackend) (k : string),
  foldl (λ c kb, delete kb.1 c) c order !! k =
    if decide (k ∈ order.*1) then None else c !! k.
Proof.
  induction order as [|[k0 b] rest IH]; intros c k; [done|].
  cbn [foldl]. rewrite IH, fmap_cons. cbn [fst].
  destruct (decide (k ∈ rest.*1)) as [Hin|Hin].
  - rewrite decide_True; [done | by right].
  - destruct (decide (k = k0)) as [->|Hne].
    + rewrite lookup_delete_eq, decide_True; [done | by left].
    + rewrite lookup_delete_ne by done.
      rewrite decide_False; [done|]. by intros [?|?]%elem_of_cons.
Qed.

Lemma Range_flush_empty (order : list (string * RemoteBackend)) (w : World) :
  order ≡ₚ map_to_list (remoteBackends (dir w)) →
  remoteBackends (dir (Range_flush order w)) = ∅.
Proof.
  intros Hperm. destruct (Range_flush_spec order w) as (-> & _).
  apply map_eq. intros k. rewrite foldl_delete_lookup, lookup_empty.
  destruct (decide _) as [|Hn]; [done|].
  destruct (remoteBackends (dir w) !! k) as [b|] eqn:Hk; [|done].
  exfalso. apply Hn. apply list_elem_of_fmap. exists (k, b). split; [done|].
  rewrite Hperm. by apply elem_of_map_to_list.
Qed.

(** X6. [FlushRemoteBackends], in whatever order the traversal visits the
    cache: afterwards the cache is empty, every backend that was cached has
    been closed, with one close per entry in the order of the traversal, and
    nothing else of the director has changed. *)
Theorem FlushRemoteBackends_closes_all (order : list (string * RemoteBackend)) (w : World) :
  order ≡ₚ map_to_list (remoteBackends (dir w)) →
  let w' := Range_flush order w in
  remoteBackends (dir w') = ∅ ∧
  closed w' = closed w ++ ((λ kb, rb_ptr kb.2) <$> order) ∧
  (∀ a b, remoteBackends (dir w) !! a = Some b → rb_ptr b ∈ closed w') ∧
  length (closed w') = length (closed w) + size (remoteBackends (dir w)) ∧
  dials w' = dials w ∧ localBackend (dir w') = localBackend (dir w) ∧
  localAddress (dir w') = localAddress (dir w) ∧ remotePort (dir w') = remotePort (dir w).
Proof.
  intros Hperm. destruct (Range_flush_spec order w) as (Hc & Hcl & Hd & Hlb & Hla & Hp).
  simpl. split_and!; auto.
  - by apply Range_flush_empty.
  - intros a b Hab. rewrite Hcl. apply elem_of_app. right.
    apply list_elem_of_fmap. exists (a, b). split; [done|].
    rewrite Hperm. by apply elem_of_map_to_list.
  - rewrite Hcl, length_app, length_fmap, Hperm. by rewrite length_map_to_list.
Qed.

Section Reach.
Variable dial_error : nat → string → Z → option string.

Lemma live_extends sock port w w' : live sock port w → extends w w' → live sock port w'.
Proof.
  intros (Hlb & Hp & Hc & Hcl) (Elb & Ela & Ep & Ecl & Ed & Ec).
  split_and!.
  - by rewrite Elb, Ela.
  - by rewrite Ep.
  - intros a b Hab. destruct (Ec a) as [E | (Hn & id & Hid & E)].
    + rewrite E in Hab. destruct (Hc a b Hab) as (? & ? & ? & ?).
      rewrite Ecl. split_and!; auto. lia.
    + rewrite E in Hab. injection Hab as <-. simpl. rewrite Ecl.
      split_and!; auto; [lia|]. intros Hin%Hcl. lia.
  - intros x Hx. rewrite Ecl in Hx. apply Hcl in Hx. lia.
Qed.

Lemma Director_extends ctx m w :
  extends w (Director_Director dial_error ctx m w).1.
Proof.
  destruct (Director_cases dial_error ctx m w) as [E | (md & machines & -> & Hp & Hm)].
  { rewrite E. apply extends_refl. }
  rewrite (Director_named _ _ _ _ _ Hp Hm).
  destruct (decide (length machines = 0)); [apply extends_refl|].
  destruct (fill _ _ _ _ _ _ _) as [w2 [bs1|e]] eqn:Hf;
    (apply fill_inv in Hf as [He _]; [|rewrite length_replicate; lia]); [|done].
  by destruct (decide (length bs1 = 1)).
Qed.

Lemma live_run_ops sock port ops : ∀ w,
  live sock port w → live sock port (run_ops dial_error ops w).
Proof.
  induction ops as [|op ops IH]; intros w Hw; [done|].
  simpl. apply IH. destruct op as [addr | ctx m |]; simpl.
  - destruct Hw as (Hlb & Hp & Hc & Hcl). split_and!; auto. simpl. by rewrite Hlb.
  - eapply live_extends; [exact Hw | apply Director_extends].
  - destruct Hw as (Hlb & Hp & Hc & Hcl).
    unfold FlushRemoteBackends.
    pose proof (Range_flush_empty (map_to_list (remoteBackends (dir w))) w
                  ltac:(done)) as Ec.
    destruct (Range_flush_spec (map_to_list (remoteBackends (dir w))) w)
      as (_ & Ecl & Ed & Elb & Ela & Ep).
    split_and!.
    + by rewrite Elb, Ela.
    + by rewrite Ep.
    + intros a b. rewrite Ec, lookup_empty. done.
    + intros x. rewrite Ecl, Ed. intros [Hx | Hx]%elem_of_app; [by apply Hcl|].
      apply list_elem_of_fmap in Hx as ([k b] & -> & Hkb).
      apply elem_of_map_to_list in Hkb. by destruct (Hc k b Hkb).
Qed.


Lemma live_new sock port : live sock port (new_world sock port).
Proof. split_and!; try done. intros x Hx. by apply elem_of_nil in Hx. Qed.

(** Every backend a call hands out is the local backend or one held in the
    cache when the call returns. *)
Lemma Director_backends ctx m w w' mode bs err b :
  Director_Director dial_error ctx m w = (w', (mode, bs, err)) → b ∈ bs →
  b = Local (localBackend (dir w')) ∨
  ∃ rb addr, b = Remote rb ∧ remoteBackends (dir w') !! addr = Some rb.
Proof.
  intros H Hb.
  destruct (Director_cases dial_error ctx m w) as [E | (md & machines & -> & Hp & Hm)].
  { rewrite E in H. injection H as <- <- <- <-. apply list_elem_of_singleton in Hb. by left. }
  rewrite (Director_named _ _ _ _ _ Hp Hm) in H.
  destruct (decide (length machines = 0)).
  { injection H as <- <- <- <-. by apply elem_of_nil in Hb. }
  destruct (fill _ _ _ _ _ _ _) as [w1 [bs1|e]] eqn:Hf.
  - assert (w1 = w' ∧ bs1 = bs) as [-> ->]
      by (destruct (decide (length bs1 = 1)); by injection H as <- _ <-).
    apply fill_inv in Hf as [He (Hl & _ & Hslots)]; [|rewrite length_replicate; lia].
    rewrite length_replicate in Hl.
    apply list_elem_of_lookup in Hb as [j Hj].
    assert (j < length machines) as Hlt by (rewrite <- Hl; by eapply lookup_lt_Some).
    destruct (lookup_lt_is_Some_2 machines j Hlt) as [a Ha].
    specialize (Hslots j a Ha). simpl in Hslots. destruct (decide _).
    + left. destruct He as (-> & _). congruence.
    + right. destruct Hslots as (rb & E & Hrb). exists rb, a. split; congruence.
  - injection H as <- <- <- <-. by apply elem_of_nil in Hb.
Qed.

(** X7. Over any history of calls of [UpdateLocalAddress], [Director] and
    [FlushRemoteBackends] on a director made by [NewDirector sock port], none
    overlapping another: a remote backend that [Director] hands out has not
    been closed, is for the director's port, and is the backend cached under
    its address; a local backend it hands out is for [sock] and the current
    local address. *)
Theorem Director_backends_live (sock : string) (port : Z) (ops : list DirOp)
    (ctx : option MD) (m : string) (w' : World) (mode : Mode) (bs : list Backend)
    (err : option Status) :
  Director_Director dial_error ctx m (run_ops dial_error ops (new_world sock port))
    = (w', (mode, bs, err)) →
  (∀ rb, Remote rb ∈ bs →
     (rb_ptr rb ∉ closed w') ∧ rb_port rb = port ∧
     remoteBackends (dir w') !! rb_addr rb = Some rb) ∧
  (∀ lb, Local lb ∈ bs → sockPath lb = sock ∧ lb_address lb = localAddress (dir w')).
Proof.
  intros H.
  pose proof (live_run_ops sock port ops _ (live_new sock port)) as Hw.
  pose proof (Director_extends ctx m (run_ops dial_error ops (new_world sock port))) as He.
  rewrite H in He. simpl in He.
  pose proof (live_extends _ _ _ _ Hw He) as (Hlb & Hp & Hc & Hcl).
  split.
  - intros rb Hin.
    destruct (Director_backends _ _ _ _ _ _ _ _ H Hin) as [E | (rb' & a & E & Ha)];
      [discriminate E|].
    injection E as <-. destruct (Hc a rb Ha) as (_ & ? & <- & ?). by split_and!.
  - intros lb Hin.
    destruct (Director_backends _ _ _ _ _ _ _ _ H Hin) as [E | (rb' & a & E & Ha)];
      [|discriminate E].
    injection E as ->. by rewrite Hlb.
Qed.

End Reach.


Lemma Director_outcome_witness :
  ∃ w' mode bs,
    Director_Director dial_ok (Some (plain_md ["10.210.0.1"; "10.210.0.2"]))
        "/api.Machine/Inspect" sample_world = (w', (mode, bs, None)) ∧
    extends sample_world w' ∧
    1 ≤ length bs ∧ (NilBackend ∉ bs) ∧ (mode = One2Many ↔ 2 ≤ length bs).
Proof.
  eexists _, _, _. split; [by vm_compute|].
  eapply (Director_outcome dial_ok (Some (plain_md ["10.210.0.1"; "10.210.0.2"]))
           "/api.Machine/Inspect" sample_world _ _ _ None).
  by vm_compute.
Defined.

Lemma Director_errors_witness :
  ∃ w' mode bs st,
    Director_Director dial_refused (Some (plain_md ["10.210.0.1"; "10.210.0.2"]))
        "/api.Machine/Inspect" sample_world = (w', (mode, bs, Some st)) ∧
    ∃ md machines, Some (plain_md ["10.210.0.1"; "10.210.0.2"]) = Some md ∧
      md !! "proxy-authority" = None ∧ md !! "machines" = Some machines ∧
      ((machines = [] ∧ st = mkStatus InvalidArgument "no machines specified" ∧
        w' = sample_world) ∨
       (st_code st = Internal ∧
        ∃ addr, addr ∈ machines ∧ addr ≠ localAddress (dir sample_world) ∧
                remoteBackends (dir w') !! addr = None ∧
                dial_refused (dials w' - 1) addr (remotePort (dir sample_world))
                  = Some (st_msg st) ∧
                dials sample_world < dials w')).
Proof.
  eexists _, _, _, _. split; [by vm_compute|].
  eapply (Director_errors dial_refused (Some (plain_md ["10.210.0.1"; "10.210.0.2"]))
           "/api.Machine/Inspect" sample_world _ _ _ _).
  by vm_compute.
Defined.

Lemma Director_again_witness :
  ∃ w' mode bs,
    Director_Director dial_ok (Some (plain_md ["10.210.0.1"; "10.210.0.2"]))
        "/api.Machine/Inspect" sample_world = (w', (mode, bs, None)) ∧
    Director_Director dial_ok (Some (plain_md ["10.210.0.1"; "10.210.0.2"]))
        "/api.Machine/Reset" w' = (w', (mode, bs, None)).
Proof.
  eexists _, _, _. split; [by vm_compute|].
  eapply (Director_again dial_ok (Some (plain_md ["10.210.0.1"; "10.210.0.2"]))
           "/api.Machine/Inspect" "/api.Machine/Reset" sample_world).
  by vm_compute.
Defined.

Lemma Director_shares_witness :
  ∃ w' mode bs,
    Director_Director dial_ok (Some (plain_md ["10.210.0.2"; "10.210.0.1"; "10.210.0.2"]))
        "/api.Machine/Inspect" sample_world = (w', (mode, bs, None)) ∧
    is_Some (bs !! 0) ∧ bs !! 0 = bs !! 2.
Proof.
  eexists _, _, _. split; [by vm_compute|].
  eapply (Director_shares dial_ok (plain_md ["10.210.0.2"; "10.210.0.1"; "10.210.0.2"])
           ["10.210.0.2"; "10.210.0.1"; "10.210.0.2"]
           "/api.Machine/Inspect" sample_world _ _ _ 0 2 "10.210.0.2").
  - by vm_compute.
  - by vm_compute.
  - by vm_compute.
  - reflexivity.
  - reflexivity.
Defined.

Lemma UpdateLocalAddress_reroutes_witness :
  ∃ w' mode bs,
    Director_Director dial_ok (Some (plain_md ["10.210.0.1"; "10.210.0.2"]))
        "/api.Machine/Inspect" (Director_UpdateLocalAddress "10.210.0.2" sample_world)
      = (w', (mode, bs, None)) ∧
    closed w' = closed sample_world ∧
    (∀ a b, remoteBackends (dir sample_world) !! a = Some b →
            remoteBackends (dir w') !! a = Some b) ∧
    ∀ i a, ["10.210.0.1"; "10.210.0.2"] !! i = Some a →
      if decide (a = "10.210.0.2") then
        bs !! i = Some (Local (NewLocalBackend (sockPath (localBackend (dir sample_world)))
                                               "10.210.0.2"))
      else ∃ rb, bs !! i = Some (Remote rb) ∧ remoteBackends (dir w') !! a = Some rb.
Proof.
  eexists _, _, _. split; [by vm_compute|].
  eapply (UpdateLocalAddress_reroutes dial_ok "10.210.0.2"
           (plain_md ["10.210.0.1"; "10.210.0.2"]) ["10.210.0.1"; "10.210.0.2"]
           "/api.Machine/Inspect" sample_world).
  - by vm_compute.
  - by vm_compute.
  - by vm_compute.
Defined.

Lemma FlushRemoteBackends_closes_all_witness :
  let w' := Range_flush (map_to_list (remoteBackends (dir cached_world))) cached_world in
  remoteBackends (dir w') = ∅ ∧
  closed w' = closed cached_world ++
    ((λ kb, rb_ptr kb.2) <$> map_to_list (remoteBackends (dir cached_world))) ∧
  (∀ a b, remoteBackends (dir cached_world) !! a = Some b → rb_ptr b ∈ closed w') ∧
  length (closed w') = length (closed cached_world) + size (remoteBackends (dir cached_world)) ∧
  dials w' = dials cached_world ∧ localBackend (dir w') = localBackend (dir cached_world) ∧
  localAddress (dir w') = localAddress (dir cached_world) ∧
  remotePort (dir w') = remotePort (dir cached_world).
Proof.
  apply (FlushRemoteBackends_closes_all
           (map_to_list (remoteBackends (dir cached_world))) cached_world).
  reflexivity.
Defined.


Lemma Director_backends_live_witness :
  ∃ w' mode bs err,
    Director_Director dial_ok (Some (plain_md ["10.210.0.1"; "10.210.0.2"]))
        "/api.Machine/Inspect"
        (run_ops dial_ok sample_ops (new_world "/run/uncloud.sock" 51000%Z))
      = (w', (mode, bs, err)) ∧
    (∀ rb, Remote rb ∈ bs →
       (rb_ptr rb ∉ closed w') ∧ rb_port rb = 51000%Z ∧
       remoteBackends (dir w') !! rb_addr rb = Some rb) ∧
    (∀ lb, Local lb ∈ bs →
       sockPath lb = "/run/uncloud.sock" ∧ lb_address lb = localAddress (dir w')).
Proof.
  eexists _, _, _, _. split; [by vm_compute|].
  eapply (Director_backends_live dial_ok "/run/uncloud.sock" 51000%Z sample_ops
           (Some (plain_md ["10.210.0.1"; "10.210.0.2"])) "/api.Machine/Inspect").
  by vm_compute.
Defined.

End ProxyFacts.

(* ===================================================================== *)
(** ** The WireGuard network driver: facts                                *)
(* ===================================================================== *)

Module NetworkFacts.
Import Network.

#[local] Set Warnings "-clear-no-such-hyp".

Lemma bind_Ret_inv {A B} (c : M A) (k : A → M B) s b s' :
  bind c k s = (Ret b, s') → ∃ a s1, c s = (Ret a, s1) ∧ k a s1 = (Ret b, s').
Proof.
  unfold bind. destruct (c s) as [[a|why] s1]; [eauto | discriminate].
Qed.

Section Keeps.
Context {V : Type} (view : State → V).

Lemma keeps_ret {A} (a : A) : keeps view (ret a).
Proof. by intros s r s' [= <- <-]. Qed.

Lemma keeps_panic {A} why : keeps view (@panic A why).
Proof. by intros s r s' [= <- <-]. Qed.

Lemma keeps_get : keeps view get.
Proof. by intros s r s' [= <- <-]. Qed.

Lemma keeps_get_net : keeps view get_net.
Proof. by intros s r s' [= <- <-]. Qed.

Lemma keeps_get_kernel : keeps view get_kernel.
Proof. by intros s r s' [= <- <-]. Qed.

Lemma keeps_bind {A B} (c : M A) (k : A → M B) :
  keeps view c → (∀ a, keeps view (k a)) → keeps view (bind c k).
Proof.
  intros Hc Hk s r s'. unfold bind.
  destruct (c s) as [[a|why] s1] eqn:E.
  - intros H. rewrite (Hk a _ _ _ H). eauto.
  - intros [= <- <-]. eauto.
Qed.

Lemma keeps_link_Attrs : keeps view link_Attrs.
Proof.
  apply keeps_bind; [apply keeps_get_net|]. intros n.
  destruct (link n); [apply keeps_ret | apply keeps_panic].
Qed.

End Keeps.

Create HintDb keeps.
#[local] Hint Resolve keeps_ret keeps_panic keeps_get keeps_get_net keeps_get_kernel
  keeps_link_Attrs : keeps.

Ltac keeps_step :=
  lazymatch goal with
  | |- keeps _ (bind _ _) => apply keeps_bind; [| intros ?]
  | |- keeps _ (match ?x with _ => _ end) => destruct x
  | |- keeps _ (let '(_, _) := ?x in _) => destruct x
  | |- keeps _ _ => solve [eauto with keeps]
  end.
Ltac keeps_auto := repeat keeps_step.

(** A computation given by what it does to the state keeps its view. *)
Ltac keeps_prim :=
  unfold keeps; intros;
  match goal with
  | H : _ = (_, _) |- _ =>
    cbv [bind ret panic get get_net get_kernel put_net put_kernel
         put_chans chan_send selected clock_at slog] in H;
    repeat case_match; simplify_eq; reflexivity
  end.

Lemma loop_view_tick : tick_view loop_view.
Proof. by split. Qed.

Lemma peers_nil_tick : tick_view peers_nil.
Proof.
  split; try done.
  intros s f. unfold peers_nil. simpl. by destruct (peers (net s)).
Qed.

Section KeepsLoop.

Variable fault : nat → option Z.
Variable select_plan : nat → SelectCase * Z.
Variable Secret_String : Secret → string.
Variable device_apply : wgConfig → list wgPeer → list wgPeer.
Variable updateConfig : Z → peer → PeerConfig → peer.
Variable updateFromDevice : Z → peer → wgPeer → peer * bool.
Variable shouldChangeEndpoint : Z → peer → peer * option AddrPort.

Context {V : Type} (view : State → V) (Hview : tick_view view).

Lemma keeps_put_kernel k : keeps view (put_kernel k).
Proof. intros s r s' [= <- <-]. apply (tv_kernel _ Hview). Qed.
Lemma keeps_slog l m e : keeps view (slog l m e).
Proof. intros s r s' [= <- <-]. apply (tv_logs _ Hview). Qed.
Lemma keeps_selected d : keeps view (selected d).
Proof. intros s r s' [= <- <-]. apply (tv_clock _ Hview). Qed.
Lemma keeps_clock_at t : keeps view (clock_at t).
Proof. intros s r s' [= <- <-]. apply (tv_clock _ Hview). Qed.
Lemma keeps_chan_send ch e : keeps view (chan_send ch e).
Proof. intros s r s' [= <- <-]. apply (tv_sent _ Hview). Qed.
Lemma keeps_store_peer k p : keeps view (store_peer k p).
Proof.
  intros s r s' H. cbv [store_peer bind get_net put_net] in H. simplify_eq.
  apply (tv_peers _ Hview s (λ m, <[k := p]> m)).
Qed.

Hint Resolve keeps_put_kernel keeps_slog keeps_selected keeps_clock_at keeps_chan_send
  keeps_store_peer : keeps.

Lemma keeps_syscall {A} (body : Kernel → Kernel * (A + error)) :
  keeps view (syscall fault body).
Proof. unfold syscall. keeps_auto. Qed.
Hint Resolve keeps_syscall : keeps.

Lemma keeps_wgctrl_New : keeps view (wgctrl_New fault).
Proof. unfold wgctrl_New. keeps_auto. Qed.

Lemma keeps_wg_Device name : keeps view (wg_Device fault name).
Proof. apply keeps_syscall. Qed.

Lemma keeps_wg_ConfigureDevice name cfg :
  keeps view (wg_ConfigureDevice fault device_apply name cfg).
Proof. unfold wg_ConfigureDevice. keeps_auto. Qed.

Hint Resolve keeps_wgctrl_New keeps_wg_Device keeps_wg_ConfigureDevice : keeps.

Lemma keeps_select_send ch e : keeps view (select_send select_plan ch e).
Proof. unfold select_send. keeps_auto. Qed.
Hint Resolve keeps_select_send : keeps.

Lemma keeps_notify_events ch events : keeps view (notify_events select_plan ch events).
Proof. induction events; simpl; keeps_auto. Qed.
Hint Resolve keeps_notify_events : keeps.

Lemma keeps_notify_chans chans events : keeps view (notify_chans select_plan chans events).
Proof. induction chans; simpl; keeps_auto. Qed.
Hint Resolve keeps_notify_chans : keeps.

Lemma keeps_notifyWatchers events : keeps view (notifyWatchers select_plan events).
Proof. unfold notifyWatchers. keeps_auto. Qed.
Hint Resolve keeps_notifyWatchers : keeps.

Lemma keeps_notify_or_log events : keeps view (notify_or_log select_plan events).
Proof. unfold notify_or_log. keeps_auto. Qed.
Hint Resolve keeps_notify_or_log : keeps.

Lemma keeps_peers_from_device devPeers : ∀ events,
  keeps view (peers_from_device Secret_String updateFromDevice devPeers events).
Proof. induction devPeers; intros events; simpl; keeps_auto. Qed.
Hint Resolve keeps_peers_from_device : keeps.

Lemma keeps_updatePeersFromDevice :
  keeps view (updatePeersFromDevice fault select_plan Secret_String updateFromDevice).
Proof. unfold updatePeersFromDevice. keeps_auto. Qed.

Lemma keeps_rotate_peers ps : ∀ cfgs events,
  keeps view (rotate_peers updateConfig shouldChangeEndpoint ps cfgs events).
Proof. induction ps as [|[k p] ps IH]; intros cfgs events; simpl; keeps_auto. Qed.
Hint Resolve keeps_rotate_peers : keeps.

Lemma keeps_log_changes cfgs : keeps view (log_changes Secret_String cfgs).
Proof. induction cfgs; simpl; keeps_auto. Qed.
Hint Resolve keeps_log_changes : keeps.

Lemma keeps_changeWireGuardEndpoints :
  keeps view (changeWireGuardEndpoints fault select_plan Secret_String device_apply
                                       updateConfig shouldChangeEndpoint).
Proof. unfold changeWireGuardEndpoints. keeps_auto. Qed.

Lemma keeps_log_failure what err : keeps view (log_failure what err).
Proof. unfold log_failure. keeps_auto. Qed.

Hint Resolve keeps_updatePeersFromDevice keeps_changeWireGuardEndpoints keeps_log_failure
  : keeps.

(** A tick leaves the view as it was. *)
Lemma keeps_Run_tick t :
  keeps view (Run_tick fault select_plan Secret_String device_apply updateConfig
                       updateFromDevice shouldChangeEndpoint t).
Proof. unfold Run_tick. keeps_auto. Qed.

End KeepsLoop.

Lemma check_inv (c : M (option error)) (w : error → error) (k : M (option error)) s s' :
  bind c (λ r, match r with Some err => ret (Some (w err)) | None => k end) s = (Ret None, s') →
  ∃ s1, c s = (Ret None, s1) ∧ k s1 = (Ret None, s').
Proof.
  intros (a & s1 & Hc & Hk)%bind_Ret_inv. destruct a; [discriminate Hk|]. eauto.
Qed.

Section Addresses.

Variable fault : nat → option Z.
Variable addr_clash : IPNet → list IPNet → bool.
Variable addr_left : IPNet → list IPNet → list IPNet.
Variable MachineIP : Prefix → Addr.
Variable prefixToIPNet : Prefix → IPNet.
Variable ipNetToPrefix : IPNet → Prefix + error.
Variable IPNet_String : IPNet → string.
Variable Prefix_String : Prefix → string.
Variable Secret_String : Secret → string.
Variable toDeviceConfig : Config → list wgPeer → wgConfig + error.
Variable prefixes : PeerConfig → list Prefix + error.
Variable IPSet_Prefixes : list Prefix → list Prefix + error.
Variable device_apply : wgConfig → list wgPeer → list wgPeer.
Variable newPeer : Z → PeerConfig → option wgPeer → peer.
Variable updateConfig : Z → peer → PeerConfig → peer.

Lemma addr_slog l m e : keeps addr_view (slog l m e).
Proof. keeps_prim. Qed.
Lemma addr_put_net n : keeps addr_view (put_net n).
Proof. keeps_prim. Qed.

(** A request that leaves the addresses alone. *)
Lemma addr_syscall {A} (body : Kernel → Kernel * (A + error)) :
  (∀ k, k_addrs (body k).1 = k_addrs k) →
  keeps addr_view (syscall fault body).
Proof.
  intros Hb s r s' H. unfold syscall in H. cbv [bind get_kernel put_kernel ret] in H.
  destruct (fault _).
  - by simplify_eq.
  - specialize (Hb (bump (kernel s))). destruct (body _) as [k' r']. by simplify_eq.
Qed.

Lemma addr_on_link {A} (body : Kernel → Kernel * (A + error)) :
  (∀ k, k_addrs (body k).1 = k_addrs k) →
  keeps addr_view (on_link fault body).
Proof. intros Hb. apply addr_syscall. intros k. destruct (k_link k); [apply Hb | done]. Qed.

Hint Resolve addr_slog addr_put_net : keeps.

Ltac addr_request :=
  first [apply addr_on_link | apply addr_syscall]; intros k; repeat case_match; done.

Lemma addr_wgctrl_New : keeps addr_view (wgctrl_New fault).
Proof. unfold wgctrl_New. keeps_auto. addr_request. Qed.
Lemma addr_wg_Device name : keeps addr_view (wg_Device fault name).
Proof. unfold wg_Device. addr_request. Qed.
Lemma addr_wg_ConfigureDevice name cfg :
  keeps addr_view (wg_ConfigureDevice fault device_apply name cfg).
Proof. unfold wg_ConfigureDevice. keeps_auto. addr_request. Qed.
Lemma addr_LinkSetUp : keeps addr_view (LinkSetUp fault).
Proof. unfold LinkSetUp. keeps_auto. addr_request. Qed.
Lemma addr_RouteAdd r : keeps addr_view (RouteAdd fault r).
Proof. unfold RouteAdd. keeps_auto. addr_request. Qed.
Lemma addr_RouteDel r : keeps addr_view (RouteDel fault r).
Proof. unfold RouteDel. keeps_auto. addr_request. Qed.
Lemma addr_RouteList : keeps addr_view (RouteList fault).
Proof. unfold RouteList. addr_request. Qed.

Hint Resolve addr_wgctrl_New addr_wg_Device addr_wg_ConfigureDevice addr_LinkSetUp
  addr_RouteAdd addr_RouteDel addr_RouteList : keeps.

Lemma addr_configureDevice config :
  keeps addr_view (configureDevice fault Secret_String toDeviceConfig device_apply newPeer
                                   updateConfig config).
Proof. unfold configureDevice. keeps_auto. Qed.

Lemma addr_add_routes prefs : keeps addr_view (add_routes fault prefixToIPNet prefs).
Proof. induction prefs; simpl; keeps_auto. Qed.
Lemma addr_del_routes added routes :
  keeps addr_view (del_routes fault ipNetToPrefix added routes).
Proof. induction routes; simpl; keeps_auto. Qed.
Hint Resolve addr_add_routes addr_del_routes : keeps.

Lemma addr_updatePeerRoutes :
  keeps addr_view (updatePeerRoutes fault prefixToIPNet ipNetToPrefix prefixes IPSet_Prefixes).
Proof. unfold updatePeerRoutes. keeps_auto. Qed.


(** What a request that did not fail did. *)
Lemma on_link_Ret {A} (body : Kernel → Kernel * (A + error)) s a s' :
  on_link fault body s = (Ret (inl a), s') →
  fault (k_calls (kernel s)) = None ∧
  body (bump (kernel s)) = (kernel s', inl a) ∧
  net s' = net s.
Proof.
  unfold on_link, syscall. cbv [bind get_kernel put_kernel ret].
  destruct (fault _); [discriminate|].
  destruct (k_link (bump (kernel s))); [|discriminate].
  destruct (body _) as [k' [x|e]]; intros H; by simplify_eq.
Qed.

(** [AddrAdd]: on success the address is appended; when the kernel says
    EEXIST by its rule, and is not made to say so by the fault plan, the
    address was there. *)
Lemma AddrAdd_spec a s err s' :
  (∀ n, fault n ≠ Some EEXIST) →
  clash_borne addr_clash →
  AddrAdd fault addr_clash a s = (Ret err, s') →
  net s' = net s ∧
  match err with
  | None => k_addrs (kernel s') = k_addrs (kernel s) ++ [a]
  | Some e =>
    k_addrs (kernel s') = k_addrs (kernel s) ∧
    (errors_Is e EEXIST = true → a ∈ k_addrs (kernel s))
  end.
Proof.
  intros Hf Hc. unfold AddrAdd, on_link, syscall. cbv [bind get_kernel put_kernel ret].
  specialize (Hf (k_calls (kernel s))).
  destruct (fault _) as [e|] eqn:E.
  - intros [= <- <-]. simpl. split_and!; auto.
    intros He%bool_decide_eq_true. congruence.
  - simpl. destruct (k_link (kernel s)); simpl.
    + destruct (addr_clash a (k_addrs (kernel s))) eqn:Ec; intros [= <- <-]; simpl; auto.
    + intros [= <- <-]. simpl. split_and!; auto. intros He. discriminate He.
Qed.

Lemma link_Attrs_Ret s (l : Link) s' : link_Attrs s = (Ret l, s') → s' = s.
Proof.
  cbv [link_Attrs bind get_net]. destruct (link (net s)); cbv [ret panic]; congruence.
Qed.

Lemma do_link_Attrs_inv {A} (k : M A) s r s' :
  bind link_Attrs (λ _, k) s = (Ret r, s') → k s = (Ret r, s').
Proof.
  intros (l & s1 & H1 & H2)%bind_Ret_inv. by rewrite (link_Attrs_Ret _ _ _ H1) in H2.
Qed.

Lemma add_addrs_ok addrs : ∀ s s',
  (∀ n, fault n ≠ Some EEXIST) →
  clash_borne addr_clash →
  add_addrs fault addr_clash prefixToIPNet addrs s = (Ret None, s') →
  ∀ a, a ∈ k_addrs (kernel s') ↔ a ∈ k_addrs (kernel s) ∨ a ∈ prefixToIPNet <$> addrs.
Proof.
  induction addrs as [|addr rest IH]; intros s s' Hf Hc H a; simpl in H.
  - injection H as <-. rewrite fmap_nil. set_solver.
  - apply do_link_Attrs_inv in H.
    apply bind_Ret_inv in H as (err & s1 & Hadd & H).
    apply AddrAdd_spec in Hadd as [_ Hadd]; [|done|done].
    rewrite fmap_cons.
    destruct err as [e|].
    + destruct Hadd as [Hsame Hin].
      destruct (errors_Is e EEXIST); [|discriminate H].
      rewrite (IH _ _ Hf Hc H a), Hsame. specialize (Hin eq_refl). set_solver.
    + rewrite (IH _ _ Hf Hc H a), Hadd. set_solver.
Qed.

Lemma AddrDel_spec a s s' :
  AddrDel fault addr_left a s = (Ret None, s') →
  k_addrs (kernel s') = addr_left a (k_addrs (kernel s)).
Proof.
  unfold AddrDel, on_link, syscall. cbv [bind get_kernel put_kernel ret].
  destruct (fault _); [discriminate|]. simpl.
  destruct (k_link (kernel s)); [|discriminate]. simpl.
  destruct (decide _); intros [= <-]; done.
Qed.

Lemma del_addrs_ok addrs linkAddrs : ∀ s s',
  left_others addr_left →
  del_addrs fault addr_left IPNet_String Prefix_String addrs linkAddrs s = (Ret None, s') →
  ∀ a, a ∈ k_addrs (kernel s') ↔
       a ∈ k_addrs (kernel s) ∧
       (a ∈ linkAddrs → wanted IPNet_String Prefix_String addrs a = true).
Proof.
  induction linkAddrs as [|la rest IH]; intros s s' Hl H a; simpl in H.
  - injection H as <-. set_solver.
  - destruct (wanted IPNet_String Prefix_String addrs la) eqn:Hw.
    + rewrite (IH _ _ Hl H a). set_solver.
    + apply do_link_Attrs_inv in H. apply check_inv in H as (s1 & Hdel & H).
      apply AddrDel_spec in Hdel.
      rewrite (IH _ _ Hl H a), Hdel, (Hl la).
      split.
      * intros [[Hin Hne] Hrest]. split; [done|].
        intros [->|Hr]%elem_of_cons; [done | auto].
      * intros [Hin Hall]. split_and!; auto.
        -- intros ->. rewrite Hall in Hw; [done | by left].
        -- intros Hr. apply Hall. by right.
Qed.

Lemma AddrList_spec s l s' :
  AddrList fault s = (Ret (inl l), s') →
  l = k_addrs (kernel s) ∧ k_addrs (kernel s') = k_addrs (kernel s).
Proof.
  unfold AddrList. intros (_ & Hb & _)%on_link_Ret. by injection Hb as <- <-.
Qed.

(** [updateAddresses]: when it succeeds, the interface is left with the
    addresses, old and just added, whose string is that of a wanted
    prefix. *)
Lemma updateAddresses_ok addrs s s' :
  (∀ n, fault n ≠ Some EEXIST) →
  clash_borne addr_clash →
  left_others addr_left →
  updateAddresses fault addr_clash addr_left prefixToIPNet IPNet_String Prefix_String addrs s = (Ret None, s') →
  ∀ a, a ∈ k_addrs (kernel s') ↔
       (a ∈ k_addrs (kernel s) ∨ a ∈ prefixToIPNet <$> addrs) ∧
       wanted IPNet_String Prefix_String addrs a = true.
Proof.
  intros Hf Hc Hl H a. unfold updateAddresses in H.
  apply check_inv in H as (s1 & Hadd & H).
  apply do_link_Attrs_inv in H.
  apply bind_Ret_inv in H as (r & s2 & Hlist & H).
  destruct r as [l|e]; [|discriminate H].
  apply AddrList_spec in Hlist as [-> Hsame].
  rewrite (del_addrs_ok _ _ _ _ Hl H a), Hsame, (add_addrs_ok _ _ _ Hf Hc Hadd a).
  rewrite <- (add_addrs_ok _ _ _ Hf Hc Hadd a). tauto.
Qed.


Hint Resolve addr_configureDevice addr_updatePeerRoutes : keeps.


End Addresses.

Section Lifecycle.

Variable fault : nat → option Z.
Variable select_plan : nat → SelectCase * Z.
Variable Secret_String : Secret → string.
Variable device_apply : wgConfig → list wgPeer → list wgPeer.
Variable updateConfig : Z → peer → PeerConfig → peer.
Variable updateFromDevice : Z → peer → wgPeer → peer * bool.
Variable shouldChangeEndpoint : Z → peer → peer * option AddrPort.

Local Abbreviation Run := (Run fault select_plan Secret_String device_apply updateConfig
                           updateFromDevice shouldChangeEndpoint).
Local Abbreviation Run_loop := (Run_loop fault select_plan Secret_String device_apply updateConfig
                                     updateFromDevice shouldChangeEndpoint).
Local Abbreviation Run_tick := (Run_tick fault select_plan Secret_String device_apply updateConfig
                                     updateFromDevice shouldChangeEndpoint).
Local Abbreviation run_step := (run_step fault select_plan Secret_String device_apply updateConfig
                                     updateFromDevice shouldChangeEndpoint).
Local Abbreviation run_threads := (run_threads fault select_plan Secret_String device_apply
                                 updateConfig updateFromDevice shouldChangeEndpoint).

Lemma wgctrl_New_eq s :
  wgctrl_New fault s = (Ret (Errno <$> fault (k_calls (kernel s))), served s).
Proof.
  unfold wgctrl_New, syscall. cbv [bind get_kernel put_kernel ret].
  by destruct (fault _).
Qed.

(** C10. [Cleanup] on a network whose control loop is running returns an
    error and changes nothing: the link field and the link itself are as
    they were. Whenever [Cleanup] changes the link field, the network was not
    running, the link has been deleted and the field is nil. And on a
    network that is not running, when the kernel deletes the link, [Cleanup]
    returns nil with the link field nil. *)
Theorem Cleanup_requires_stopped (s : State) :
  (running (net s) = true →
     Cleanup fault s
       = (Ret (Some (ErrorNew "network is still running, stop it before cleanup")), s)) ∧
  (∀ r s', Cleanup fault s = (r, s') → link (net s') ≠ link (net s) →
     running (net s) = false ∧ r = Ret None ∧
     link (net s') = None ∧ k_link (kernel s') = None) ∧
  (running (net s) = false → is_Some (link (net s)) → is_Some (k_link (kernel s)) →
   fault (k_calls (kernel s)) = None →
     ∃ s', Cleanup fault s = (Ret None, s') ∧
           link (net s') = None ∧ k_link (kernel s') = None).
Proof.
  unfold Cleanup, link_Attrs, LinkDel, on_link, syscall.
  cbv [bind get_net get_kernel put_kernel put_net slog ret panic].
  split_and!.
  - by intros ->.
  - intros r s'. destruct (running (net s)); [intros [= <- <-]; congruence|].
    destruct (link (net s)) eqn:Hl; [|intros [= <- <-]; congruence].
    destruct (fault _); [intros [= <- <-]; simpl; congruence|]. simpl.
    destruct (k_link (kernel s)); simpl; intros [= <- <-]; simpl; [done|congruence].
  - intros -> [l ->] [kl Hkl] ->. simpl. rewrite Hkl. simpl. eauto.
Qed.


(** *** [Run] *)

Lemma Run_guard_eq s :
  Run_guard s =
    if running (net s) then (Ret (Some (ErrorNew "network is already running")), s)
    else (Ret None, mkState (set_running true (net s)) (kernel s) (chan_next s)
                            (chan_closed s) (chan_sent s) (selects s) (now s) (logs s)).
Proof. cbv [Run_guard bind get_net put_net ret]. by destruct (running (net s)). Qed.

(** [Run] on a network that is running returns at once. *)
Lemma Run_running events s :
  running (net s) = true →
  Run events s
    = (Ret (Returned (Some (match fault (k_calls (kernel s)) with
                            | Some e => Wrapf "create WireGuard client" (Errno e)
                            | None => ErrorNew "network is already running"
                            end))), served s).
Proof.
  intros Hr. unfold Network.Run, bind. rewrite wgctrl_New_eq.
  destruct (fault _); simpl; [done|].
  rewrite Run_guard_eq. simpl. by rewrite Hr.
Qed.

(** The loop itself never returns an error. *)
Lemma Run_loop_no_error events : ∀ s err s',
  Run_loop events s = (Ret (Returned err), s') → err = None.
Proof.
  induction events as [|[t|] events IH]; intros s err s' H; simpl in H.
  - discriminate H.
  - apply bind_Ret_inv in H as (? & s1 & _ & H). eauto.
  - apply bind_Ret_inv in H as (? & s1 & _ & H).
    apply bind_Ret_inv in H as (? & s2 & _ & H).
    apply bind_Ret_inv in H as (? & s3 & _ & H). by injection H as <- <-.
Qed.

Lemma loop_Run_loop_ticks ts : ∀ s r s',
  Run_loop (TickerC <$> ts) s = (r, s') → loop_view s' = loop_view s.
Proof.
  induction ts as [|t ts IH]; intros s r s' H; simpl in H.
  - by injection H as <- <-.
  - unfold bind in H. destruct (Run_tick t s) as [[[]|why] s1] eqn:Ht.
    + rewrite (IH _ _ _ H). eapply keeps_Run_tick; eauto using loop_view_tick.
    + injection H as <- <-. eapply keeps_Run_tick; eauto using loop_view_tick.
Qed.

Lemma Run_loop_app ts events s s1 :
  Run_loop (TickerC <$> ts) s = (Ret Looping, s1) →
  Run_loop ((TickerC <$> ts) ++ events) s = Run_loop events s1.
Proof.
  revert s. induction ts as [|t ts IH]; intros s H; simpl in *.
  - by injection H as <-.
  - unfold bind in *. destruct (Run_tick t s) as [[[]|why] s2]; [eauto | discriminate H].
Qed.

(** Closing channels that are open and distinct closes them all. *)
Lemma close_all_open chans : ∀ s,
  NoDup chans → (∀ ch, ch ∈ chans → ch ∉ chan_closed s) →
  close_all chans s
    = (Ret tt, mkState (net s) (kernel s) (chan_next s) (chan_closed s ++ chans)
                       (chan_sent s) (selects s) (now s) (logs s)).
Proof.
  induction chans as [|ch chans IH]; intros s Hnd Hopen; simpl.
  - rewrite app_nil_r. by destruct s.
  - apply NoDup_cons in Hnd as [Hnin Hnd].
    cbv [bind close get put_chans panic].
    rewrite decide_False by (apply Hopen; by left).
    rewrite IH; simpl; [by rewrite <- app_assoc | done |].
    intros c Hc [Hin| ->%list_elem_of_singleton]%elem_of_app; [|done].
    eapply Hopen; [by right | done].
Qed.

(** [WatchEndpoints] registers a channel that is open and new. *)
Lemma WatchEndpoints_fresh s :
  chans_fresh s →
  ∃ s', WatchEndpoints s = (Ret (chan_next s), s') ∧
        watchers (net s') = watchers (net s) ++ [chan_next s] ∧
        chans_fresh s'.
Proof.
  intros ([Hnd Hopen] & Hw & Hc).
  cbv [WatchEndpoints bind get put_chans put_net ret]. eexists. split; [reflexivity|].
  simpl. split; [done|]. unfold chans_fresh, watchers_open. simpl. split_and!.
  - apply NoDup_app. split_and!; [done | | apply NoDup_singleton].
    intros ch Hch ->%list_elem_of_singleton. apply Hw in Hch. lia.
  - intros ch [Hch| ->%list_elem_of_singleton]%elem_of_app; simpl; [by apply Hopen|].
    intros Hcl. apply Hc in Hcl. lia.
  - intros ch [Hch| ->%list_elem_of_singleton]%elem_of_app; [apply Hw in Hch|]; lia.
  - intros ch Hch. apply Hc in Hch. simpl in *. lia.
Qed.

(** What [Run] does when its [select] receives the cancellation. *)
Lemma Run_loop_Done rest s :
  watchers_open s →
  Run_loop (Done :: rest) s
    = (Ret (Returned None),
       mkState (set_running false (net s)) (kernel s) (chan_next s)
               (chan_closed s ++ watchers (net s)) (chan_sent s) (selects s) (now s)
               (logs s)).
Proof.
  intros [Hnd Hopen]. simpl. cbv [bind get_net].
  rewrite close_all_open by done. by cbv [clear_running bind get_net put_net ret].
Qed.

Lemma Run_enters events s :
  running (net s) = false → fault (k_calls (kernel s)) = None →
  Run events s
    = Run_loop events
        (mkState (set_running true (net s)) (bump (kernel s)) (chan_next s)
                 (chan_closed s) (chan_sent s) (selects s) (now s) (logs s)).
Proof.
  intros Hr Hf. unfold Network.Run, bind. rewrite wgctrl_New_eq, Hf. simpl.
  rewrite Run_guard_eq. simpl. by rewrite Hr.
Qed.

(** The two errors of [Run], and when it returns them. *)
Lemma Run_error_causes events s e s' :
  Run events s = (Ret (Returned (Some e)), s') →
  (∃ x, e = Wrapf "create WireGuard client" (Errno x) ∧
        fault (k_calls (kernel s)) = Some x) ∨
  (e = ErrorNew "network is already running" ∧ running (net s) = true).
Proof.
  unfold Network.Run, bind. rewrite wgctrl_New_eq.
  destruct (fault _) as [x|]; simpl; [intros [= <- <-]; eauto|].
  rewrite Run_guard_eq. simpl. destruct (running (net s)); simpl.
  - intros [= <- <-]. by right.
  - by intros ?%Run_loop_no_error.
Qed.

Lemma Run_Looping_inv events s s1 :
  Run events s = (Ret Looping, s1) →
  running (net s) = false ∧ fault (k_calls (kernel s)) = None.
Proof.
  unfold Network.Run, bind. rewrite wgctrl_New_eq.
  destruct (fault _); simpl; [discriminate|].
  rewrite Run_guard_eq. simpl. destruct (running (net s)); [discriminate | done].
Qed.

(** [Run] has entered its loop and run some ticks, and the registered
    watcher channels are open. When its [select] then receives the
    cancellation of the context, [Run] closes every registered watcher
    channel, clears the running flag and returns nil. *)
Lemma Run_cancelled (ts : list Z) (rest : list RunEvent) (s s1 : State) :
  watchers_open s →
  Run (TickerC <$> ts) s = (Ret Looping, s1) →
  ∃ s', Run ((TickerC <$> ts) ++ Done :: rest) s = (Ret (Returned None), s') ∧
        running (net s') = false ∧
        watchers (net s') = watchers (net s) ∧
        chan_closed s' = chan_closed s ++ watchers (net s) ∧
        ∀ ch, ch ∈ watchers (net s) → ch ∈ chan_closed s'.
Proof.
  intros Hopen Hloop.
  destruct (Run_Looping_inv _ _ _ Hloop) as [Hr Hf].
  rewrite Run_enters in * by done.
  pose proof (loop_Run_loop_ticks _ _ _ _ Hloop) as Hv. unfold loop_view in Hv. simpl in Hv.
  injection Hv as Hw _ _ Hc _.
  rewrite (Run_loop_app _ _ _ _ Hloop), Run_loop_Done.
  - eexists. split; [done|]. simpl. rewrite Hw, Hc. split_and!; auto.
    intros ch Hch. apply elem_of_app. by right.
  - unfold watchers_open. by rewrite Hw, Hc.
Qed.


(** Closing the watcher channels when the first of them is closed. *)
Lemma close_all_closed ch chans s :
  ch ∈ chan_closed s →
  close_all (ch :: chans) s = (Panic "close of closed channel", s).
Proof. intros Hc. simpl. cbv [bind close get panic]. by rewrite decide_True. Qed.

(** C9. The cancellation branch of [Run] closes the channels of [n.watchers]
    and clears the running flag, which lets [Run] be called again, but it
    leaves the closed channels registered. The first [Run] on a network with
    watchers, cancelled after some ticks, closes every registered channel,
    clears the running flag and returns nil. A second [Run] on that network
    does none of that when its context is cancelled: it panics on the first
    channel, closing none, and the running flag stays set. *)
Theorem Run_cancelled_again (ts : list Z) (rest rest2 : list RunEvent) (s s1 : State) :
  watchers_open s →
  watchers (net s) ≠ [] →
  Run (TickerC <$> ts) s = (Ret Looping, s1) →
  ∃ s2, Run ((TickerC <$> ts) ++ Done :: rest) s = (Ret (Returned None), s2) ∧
        running (net s2) = false ∧
        (∀ ch, ch ∈ watchers (net s2) → ch ∈ chan_closed s2) ∧
        (fault (k_calls (kernel s2)) = None →
         ∃ s3, Run (Done :: rest2) s2 = (Panic "close of closed channel", s3) ∧
               running (net s3) = true ∧
               chan_closed s3 = chan_closed s2).
Proof.
  intros Hopen Hne Hloop.
  destruct (Run_cancelled ts rest s s1 Hopen Hloop) as (s2 & Hrun & Hr & Hw & Hc & Hall).
  exists s2. split_and!; auto.
  { intros ch Hch. apply Hall. by rewrite <- Hw. }
  intros Hf. rewrite Run_enters by done. cbn [Run_loop]. cbv [bind get_net]. simpl.
  destruct (watchers (net s2)) as [|ch chans] eqn:Ew; [congruence|].
  rewrite close_all_closed; [eauto|].
  simpl. apply Hall. rewrite <- Hw. by left.
Qed.

(** *** Several calls of [Run] *)

Lemma controllers_mid l1 pc l2 :
  controllers (l1 ++ pc :: l2) = controllers l1 + flag (in_loop pc) + controllers l2.
Proof.
  unfold controllers. rewrite filter_app, filter_cons, !length_app.
  destruct (in_loop pc); simpl; lia.
Qed.

Lemma controllers_insert ths t pc pc' :
  ths !! t = Some pc →
  controllers (<[t := pc']> ths) + flag (in_loop pc)
    = controllers ths + flag (in_loop pc').
Proof.
  intros Ht. rewrite insert_take_drop by (by eapply lookup_lt_Some).
  rewrite <- (take_drop_middle ths t pc Ht) at 3. rewrite !controllers_mid. lia.
Qed.

Lemma controllers_ge ths t pc :
  ths !! t = Some pc → flag (in_loop pc) ≤ controllers ths.
Proof.
  intros Ht. rewrite <- (take_drop_middle ths t pc Ht), controllers_mid. lia.
Qed.

Lemma running_close ch s r s' : close ch s = (r, s') → running (net s') = running (net s).
Proof.
  cbv [close bind get put_chans panic]. destruct (decide _); by intros [= <- <-].
Qed.

(** A step of one call keeps the count of calls in the loop equal to the
    flag. *)
Lemma run_step_flag ev pc s pc' s' :
  run_step ev pc s = (Ret pc', s') →
  flag (in_loop pc) ≤ flag (running (net s)) →
  flag (running (net s')) + flag (in_loop pc) = flag (running (net s)) + flag (in_loop pc').
Proof.
  destruct pc as [| | |chans| |err]; simpl.
  - unfold bind. rewrite wgctrl_New_eq. destruct (fault _); by intros [= <- <-] _.
  - unfold bind. rewrite Run_guard_eq.
    destruct (running (net s)) eqn:Hr; intros [= <- <-] _; simpl; by rewrite ?Hr.
  - destruct ev as [t|].
    + intros (? & s1 & Ht & [= <- <-])%bind_Ret_inv _.
      apply (keeps_Run_tick _ _ _ _ _ _ _ _ loop_view_tick) in Ht.
      unfold loop_view in Ht. injection Ht as _ -> _ _ _. done.
    + by intros [= <- <-] _.
  - destruct chans as [|ch chans].
    + by intros [= <- <-] _.
    + intros (? & s1 & Hc & [= <- <-])%bind_Ret_inv _.
      by rewrite (running_close _ _ _ _ Hc).
  - cbv [clear_running bind get_net put_net ret]. intros [= <- <-]. simpl.
    destruct (running (net s)); simpl; lia.
  - by intros [= <- <-] _.
Qed.

(** However the calls interleave, the number of calls in the control loop
    is one when the flag is set and zero when it is not. *)
Lemma run_threads_flag sch : ∀ ths s ths' s',
  controllers ths = flag (running (net s)) →
  run_threads sch ths s = (Ret ths', s') →
  controllers ths' = flag (running (net s')).
Proof.
  induction sch as [|[t ev] sch IH]; intros ths s ths' s' Hinv H; simpl in H.
  - by injection H as <- <-.
  - destruct (ths !! t) as [pc|] eqn:Ht; [|eauto].
    apply bind_Ret_inv in H as (pc' & s1 & Hstep & H).
    eapply IH; [|exact H].
    pose proof (controllers_insert ths t pc pc' Ht).
    pose proof (controllers_ge ths t pc Ht).
    pose proof (run_step_flag _ _ _ _ _ Hstep). lia.
Qed.

Lemma controllers_waiting n : controllers (replicate n AtNew) = 0.
Proof. induction n; [done|]. simpl. unfold controllers in *. by rewrite filter_cons_False. Qed.

Lemma run_threads_exited sch err s :
  run_threads sch [Exited err] s = (Ret [Exited err], s).
Proof.
  induction sch as [|[[|t] ev] sch IH]; simpl.
  - done.
  - unfold bind, ret. done.
  - apply IH.
Qed.

Lemma run_threads_closing chans : ∀ k s,
  run_threads (replicate (length chans + 2 + k) (0, Done)) [Closing chans] s
    = (exited ((do close_all chans in do clear_running in ret (Returned None)) s).1,
       ((do close_all chans in do clear_running in ret (Returned None)) s).2).
Proof.
  induction chans as [|ch chans IH]; intros k s; simpl.
  - cbv [bind ret clear_running get_net put_net]. simpl. apply run_threads_exited.
  - unfold bind. destruct (close ch s) as [[[]|why] s1]; simpl; [|done].
    rewrite IH. unfold bind. done.
Qed.

Lemma run_threads_loop ts : ∀ n s,
  n = length (watchers (net s)) →
  run_threads (((λ t, (0, TickerC t)) <$> ts) ++ replicate (n + 3) (0, Done)) [InLoop] s
    = (exited (Run_loop ((TickerC <$> ts) ++ [Done]) s).1,
       (Run_loop ((TickerC <$> ts) ++ [Done]) s).2).
Proof.
  induction ts as [|t ts IH]; intros n s Hn; simpl.
  - cbv [bind get_net ret] . simpl. subst n.
    replace (length (watchers (net s)) + 3) with (S (length (watchers (net s)) + 2 + 0)) by lia.
    simpl. cbv [bind get_net ret]. simpl. rewrite run_threads_closing. done.
  - unfold bind. destruct (Run_tick t s) as [[[]|why] s1] eqn:Ht; simpl; [|done].
    apply IH. apply (keeps_Run_tick _ _ _ _ _ _ _ _ loop_view_tick) in Ht.
    unfold loop_view in Ht. injection Ht as -> _ _ _ _. done.
Qed.

(** A call of [Run] that runs alone takes the steps of [Run]. *)
Lemma run_threads_alone ts s :
  run_threads (alone ts (length (watchers (net s)))) [AtNew] s
    = (exited (Run ((TickerC <$> ts) ++ [Done]) s).1,
       (Run ((TickerC <$> ts) ++ [Done]) s).2).
Proof.
  unfold alone, Network.Run. simpl.
  unfold bind. destruct (wgctrl_New fault s) as [[[e|]|why] s1] eqn:Hnew; simpl.
  - apply run_threads_exited.
  - unfold bind. destruct (Run_guard s1) as [[[e|]|why] s2] eqn:Hg; simpl.
    + apply run_threads_exited.
    + apply run_threads_loop.
      rewrite wgctrl_New_eq in Hnew. injection Hnew as _ <-.
      rewrite Run_guard_eq in Hg. simpl in Hg. destruct (running (net s)); by simplify_eq.
    + done.
  - done.
Qed.

(** C7. While the running flag is set, a call of [Run] returns an error
    and touches neither the network nor the channels nor the log: it runs no
    tick. And however the steps of further calls of [Run] interleave with
    the call that is in the loop, at most one call is in the control loop at
    any time, exactly when the flag is set. *)
Theorem Run_twice (s : State) :
  running (net s) = true →
  (∀ events,
     ∃ e, Run events s = (Ret (Returned (Some e)), served s)) ∧
  (∀ n sch ths' s',
     run_threads sch (InLoop :: replicate n AtNew) s = (Ret ths', s') →
     controllers ths' ≤ 1 ∧ (controllers ths' = 1 ↔ running (net s') = true)).
Proof.
  intros Hr. split.
  - intros events. rewrite Run_running by done. eauto.
  - intros n sch ths' s' H.
    apply run_threads_flag in H.
    + rewrite H. destruct (running (net s')); simpl; split; try lia; split; done.
    + rewrite Hr. change (InLoop :: replicate n AtNew) with ([] ++ InLoop :: replicate n AtNew).
      rewrite controllers_mid, controllers_waiting. done.
Qed.

End Lifecycle.

Section Publish.

Variable fault : nat → option Z.
Variable select_plan : nat → SelectCase * Z.
Variable Secret_String : Secret → string.
Variable device_apply : wgConfig → list wgPeer → list wgPeer.
Variable updateConfig : Z → peer → PeerConfig → peer.
Variable updateFromDevice : Z → peer → wgPeer → peer * bool.
Variable shouldChangeEndpoint : Z → peer → peer * option AddrPort.

Local Abbreviation Run := (Run fault select_plan Secret_String device_apply updateConfig
                           updateFromDevice shouldChangeEndpoint).
Local Abbreviation Run_loop := (Run_loop fault select_plan Secret_String device_apply updateConfig
                                     updateFromDevice shouldChangeEndpoint).
Local Abbreviation select_send := (select_send select_plan).
Local Abbreviation notifyWatchers := (notifyWatchers select_plan).
Local Abbreviation notify_or_log := (notify_or_log select_plan).
Local Abbreviation updatePeersFromDevice :=
  (updatePeersFromDevice fault select_plan Secret_String updateFromDevice).
Local Abbreviation changeWireGuardEndpoints :=
  (changeWireGuardEndpoints fault select_plan Secret_String device_apply updateConfig
                            shouldChangeEndpoint).

Lemma select_send_cases ch e s r s' :
  select_send ch e s = (r, s') →
  (now s ≤ now s' ≤ now s + notify_timeout)%Z ∧
  match r with
  | Ret (Some (Some err)) => err = timeout_error
  | _ => True
  end.
Proof.
  unfold Network.select_send. cbv [bind get].
  destruct (select_plan (selects s)) as [c d]. unfold notify_timeout. intros H.
  cbv [selected chan_send ret panic bind] in H.
  repeat (match type of H with context [match ?x with _ => _ end] => destruct x end);
    simplify_eq; simpl; (split; [lia|done]).
Qed.

Lemma select_send_slow ch e s :
  ch ∉ chan_closed s → slow (select_plan (selects s)) →
  select_send ch e s = (Ret (Some (Some timeout_error)), after_select notify_timeout s).
Proof.
  intros Hopen Hslow. unfold Network.select_send. cbv [bind get].
  destruct (select_plan (selects s)) as [c d]. rewrite decide_False by done.
  destruct Hslow as [Hc|Hd]; simpl in *.
  - by subst c.
  - destruct c; try done; by rewrite decide_False by lia.
Qed.

Lemma notify_events_errors ch events : ∀ s err s',
  notify_events select_plan ch events s = (Ret (Some (Some err)), s') → err = timeout_error.
Proof.
  induction events as [|e events IH]; intros s err s' H; simpl in H; [discriminate H|].
  apply bind_Ret_inv in H as (r & s1 & Hsel & H).
  apply select_send_cases in Hsel as [_ Hsel].
  destruct r as [[e'|]|]; [by injection H as <- <- | discriminate H | eauto].
Qed.

Lemma notify_chans_errors chans events : ∀ s err s',
  notify_chans select_plan chans events s = (Ret (Some err), s') → err = timeout_error.
Proof.
  induction chans as [|ch chans IH]; intros s err s' H; simpl in H; [discriminate H|].
  apply bind_Ret_inv in H as (r & s1 & Hev & H).
  destruct r as [[e'|]|].
  - injection H as <- <-. by eapply notify_events_errors.
  - discriminate H.
  - eauto.
Qed.

Lemma notifyWatchers_errors events s err s' :
  notifyWatchers events s = (Ret (Some err), s') → err = timeout_error.
Proof.
  unfold Network.notifyWatchers. cbv [bind get_net]. apply notify_chans_errors.
Qed.

Lemma notifyWatchers_slow ch chans e events s :
  watchers (net s) = ch :: chans → ch ∉ chan_closed s → slow (select_plan (selects s)) →
  notifyWatchers (e :: events) s = (Ret (Some timeout_error), after_select notify_timeout s).
Proof.
  intros Hw Hopen Hslow. unfold Network.notifyWatchers. cbv [bind get_net]. rewrite Hw.
  simpl. unfold bind. by rewrite select_send_slow.
Qed.

Lemma notify_or_log_logs events s err s1 :
  notifyWatchers events s = (Ret (Some err), s1) →
  notify_or_log events s = (Ret tt, logged (mkLog Error notify_failed (Some err)) s1).
Proof. intros H. unfold Network.notify_or_log, bind. by rewrite H. Qed.

Lemma syscall_error {A} (body : Kernel → Kernel * (A + error)) s e s' :
  (∀ k e, (body k).2 = inr e → is_timeout e = false) →
  syscall fault body s = (Ret (inr e), s') → is_timeout e = false.
Proof.
  intros Hb. unfold syscall. cbv [bind get_kernel put_kernel ret].
  destruct (fault _); [by intros [= <- <-]|].
  specialize (Hb (bump (kernel s))). destruct (body _) as [k' [a|e']].
  - discriminate.
  - intros [= <- <-]. by apply Hb.
Qed.

Lemma wgctrl_New_error s e s' :
  wgctrl_New fault s = (Ret (Some e), s') → is_timeout e = false.
Proof. rewrite wgctrl_New_eq. destruct (fault _); by intros [= <- <-]. Qed.

Lemma wg_Device_error name s e s' :
  wg_Device fault name s = (Ret (inr e), s') → is_timeout e = false.
Proof.
  apply syscall_error. intros k e'. repeat case_match; simpl; by intros [= <-].
Qed.

Lemma wg_ConfigureDevice_error name cfg s e s' :
  wg_ConfigureDevice fault device_apply name cfg s = (Ret (Some e), s') →
  is_timeout e = false.
Proof.
  intros (r & s1 & H & Hr)%bind_Ret_inv. destruct r as [|e']; [discriminate Hr|].
  injection Hr as <- <-. revert H.
  apply syscall_error. intros k e''. repeat case_match; simpl; by intros [= <-].
Qed.

Lemma updatePeersFromDevice_error s e s' :
  updatePeersFromDevice s = (Ret (Some e), s') → is_timeout e = false.
Proof.
  unfold Network.updatePeersFromDevice.
  intros (r & s1 & Hnew & H)%bind_Ret_inv. destruct r as [e1|].
  { injection H as <- <-. simpl. by eapply wgctrl_New_error. }
  apply bind_Ret_inv in H as (l & s2 & _ & H).
  apply bind_Ret_inv in H as (r & s3 & Hdev & H). destruct r as [devPeers|e1].
  - apply bind_Ret_inv in H as (events & s4 & _ & H).
    apply bind_Ret_inv in H as (? & s5 & _ & H). discriminate H.
  - injection H as <- <-. simpl. by eapply wg_Device_error.
Qed.

Lemma rotate_peers_error ps : ∀ cfgs events s e s',
  rotate_peers updateConfig shouldChangeEndpoint ps cfgs events s = (Ret (inr e), s') →
  is_timeout e = false.
Proof.
  induction ps as [|[k p] ps IH]; intros cfgs events s e s' H; simpl in H; [discriminate H|].
  cbv [bind get] in H. destruct (shouldChangeEndpoint (now s) p) as [p1 [ep|]].
  - cbv [store_peer bind get_net put_net] in H. simpl in H.
    unfold NewKey in H. repeat case_match; cbv [ret panic] in H; simplify_eq; eauto.
  - cbv [store_peer bind get_net put_net] in H. eauto.
Qed.

Lemma changeWireGuardEndpoints_error s e s' :
  changeWireGuardEndpoints s = (Ret (Some e), s') → is_timeout e = false.
Proof.
  unfold Network.changeWireGuardEndpoints.
  intros (n & s1 & _ & H)%bind_Ret_inv.
  apply bind_Ret_inv in H as (r & s2 & Hrot & H). destruct r as [[cfgs events]|e1].
  - destruct (decide _); [discriminate H|].
    apply bind_Ret_inv in H as (r & s3 & Hnew & H). destruct r as [e1|].
    { injection H as <- <-. simpl. by eapply wgctrl_New_error. }
    apply bind_Ret_inv in H as (l & s4 & _ & H).
    apply bind_Ret_inv in H as (r & s5 & Hcfg & H). destruct r as [e1|].
    { injection H as <- <-. simpl. by eapply wg_ConfigureDevice_error. }
    apply bind_Ret_inv in H as (? & s6 & _ & H).
    apply bind_Ret_inv in H as (? & s7 & _ & H). discriminate H.
  - injection H as <- <-. by eapply rotate_peers_error.
Qed.

Lemma Run_errors events s e s' :
  Run events s = (Ret (Returned (Some e)), s') →
  (∃ x, e = Wrapf "create WireGuard client" (Errno x)) ∨
  e = ErrorNew "network is already running".
Proof.
  intros [(x & -> & _)|[-> _]]%Run_error_causes; eauto.
Qed.

End Publish.

Section Unconfigured.

Variable fault : nat → option Z.
Variable select_plan : nat → SelectCase * Z.
Variable Secret_String : Secret → string.
Variable device_apply : wgConfig → list wgPeer → list wgPeer.
Variable updateConfig : Z → peer → PeerConfig → peer.
Variable updateFromDevice : Z → peer → wgPeer → peer * bool.
Variable shouldChangeEndpoint : Z → peer → peer * option AddrPort.

Local Abbreviation Run := (Run fault select_plan Secret_String device_apply updateConfig
                           updateFromDevice shouldChangeEndpoint).
Local Abbreviation Run_loop := (Run_loop fault select_plan Secret_String device_apply updateConfig
                                     updateFromDevice shouldChangeEndpoint).
Local Abbreviation Run_tick := (Run_tick fault select_plan Secret_String device_apply updateConfig
                                     updateFromDevice shouldChangeEndpoint).

Lemma triple_bind {A B} P (Q : A → State → Prop) (R : B → State → Prop) (c : M A) (k : A → M B) :
  triple P c Q → (∀ a, triple (Q a) (k a) R) → triple P (bind c k) R.
Proof.
  intros Hc Hk s HP. destruct (Hc s HP) as (a & s1 & E & HQ).
  destruct (Hk a s1 HQ) as (b & s2 & E' & HR). exists b, s2. unfold bind. by rewrite E.
Qed.

Lemma triple_ret {A} (P : State → Prop) (a : A) : triple P (ret a) (λ _, P).
Proof. intros s HP. by exists a, s. Qed.

(** A computation that cannot panic and keeps both the link and the
    nil-ness of the peers map. *)
Lemma triple_steady {A} (c : M A) :
  (∀ s, ∃ a s', c s = (Ret a, s')) → keeps peers_nil c → keeps loop_view c →
  triple unconfigured c (λ _, unconfigured).
Proof.
  intros Ht Hn Hl s [Hp Hlink]. destruct (Ht s) as (a & s' & E). exists a, s'.
  split; [done|]. apply Hn in E as En. apply Hl in E as El.
  unfold peers_nil, loop_view, unconfigured in *. injection El as _ _ -> _ _.
  rewrite Hp in En. by destruct (peers (net s')).
Qed.

Lemma syscall_total {A} (body : Kernel → Kernel * (A + error)) s :
  ∃ a s', syscall fault body s = (Ret a, s').
Proof.
  unfold syscall. cbv [bind get_kernel put_kernel ret].
  destruct (fault _); [eauto|]. destruct (body _); eauto.
Qed.

Lemma steady_syscall {A} (body : Kernel → Kernel * (A + error)) :
  triple unconfigured (syscall fault body) (λ _, unconfigured).
Proof.
  apply triple_steady; [apply syscall_total | |];
    apply keeps_syscall; auto using peers_nil_tick, loop_view_tick.
Qed.

Lemma steady_wgctrl_New : triple unconfigured (wgctrl_New fault) (λ _, unconfigured).
Proof.
  unfold wgctrl_New. eapply triple_bind; [apply steady_syscall|]. intros r. apply triple_ret.
Qed.

Lemma steady_slog l m e : triple unconfigured (slog l m e) (λ _, unconfigured).
Proof. intros s H. by exists tt, (logged (mkLog l m e) s). Qed.

Lemma steady_clock_at t : triple unconfigured (clock_at t) (λ _, unconfigured).
Proof. intros s H. eexists tt, _. split; [reflexivity | done]. Qed.

Lemma steady_link_Attrs : triple unconfigured link_Attrs (λ _, unconfigured).
Proof.
  intros s [Hp [l Hl]]. exists l, s. cbv [link_Attrs bind get_net]. rewrite Hl. by split.
Qed.

(** With a nil peers map no peer of the device is known: no event is
    collected. *)
Lemma steady_peers_from_device devPeers : ∀ events,
  triple unconfigured (peers_from_device Secret_String updateFromDevice devPeers events)
         (λ r s, r = events ∧ unconfigured s).
Proof.
  induction devPeers as [|wgp rest IH]; intros events s Hs; simpl.
  - by exists events, s.
  - cbv [bind get]. destruct Hs as [Hp Hl]. rewrite Hp. simpl. cbv [slog].
    apply IH. by split.
Qed.

Lemma steady_updatePeersFromDevice :
  triple unconfigured
         (updatePeersFromDevice fault select_plan Secret_String updateFromDevice)
         (λ _, unconfigured).
Proof.
  unfold updatePeersFromDevice.
  eapply triple_bind; [apply steady_wgctrl_New|]. intros [e|]; [apply triple_ret|].
  eapply triple_bind; [apply steady_link_Attrs|]. intros l.
  eapply triple_bind; [apply steady_syscall|]. intros [devPeers|e]; [|apply triple_ret].
  eapply triple_bind; [apply steady_peers_from_device|]. intros events s [-> Hs].
  simpl. cbv [bind ret]. eauto.
Qed.

(** Ranging over a nil peers map rotates no endpoint. *)
Lemma steady_changeWireGuardEndpoints :
  triple unconfigured
         (changeWireGuardEndpoints fault select_plan Secret_String device_apply updateConfig
                                   shouldChangeEndpoint)
         (λ _, unconfigured).
Proof.
  intros s Hs. unfold changeWireGuardEndpoints, peers_list. cbv [bind get_net].
  destruct Hs as [Hp Hl]. rewrite Hp. simpl. exists None, s. by split.
Qed.

Lemma steady_log_failure what err :
  triple unconfigured (log_failure what err) (λ _, unconfigured).
Proof.
  destruct err as [e|]; simpl; [|apply triple_ret].
  eapply triple_bind; [apply steady_link_Attrs|]. intros ?. apply steady_slog.
Qed.

Lemma steady_Run_tick t : triple unconfigured (Run_tick t) (λ _, unconfigured).
Proof.
  unfold Network.Run_tick.
  eapply triple_bind; [apply steady_clock_at|]. intros ?.
  eapply triple_bind; [apply steady_updatePeersFromDevice|]. intros err.
  eapply triple_bind; [apply steady_log_failure|]. intros ?.
  eapply triple_bind; [apply steady_changeWireGuardEndpoints|]. intros err'.
  apply steady_log_failure.
Qed.

Lemma Run_loop_unconfigured events : ∀ s,
  unconfigured s → watchers_open s → running (net s) = true →
  ∃ r s', Run_loop events s = (Ret r, s') ∧ peers (net s') = None ∧
    (r = Looping ∧ running (net s') = true ∧ Done ∉ events ∨
     r = Returned None ∧ running (net s') = false ∧ Done ∈ events).
Proof.
  induction events as [|[t|] events IH]; intros s Hs Hopen Hr.
  - exists Looping, s. destruct Hs. split_and!; auto. left. split_and!; auto. set_solver.
  - destruct (steady_Run_tick t s Hs) as ([] & s1 & Ht & Hs1).
    pose proof (keeps_Run_tick fault select_plan Secret_String device_apply updateConfig
                  updateFromDevice shouldChangeEndpoint _ loop_view_tick t _ _ _ Ht) as Hv.
    unfold loop_view in Hv. injection Hv as Hw Hrun _ Hc _.
    destruct (IH s1) as (r & s' & Hloop & Hp & Hres); auto.
    { unfold watchers_open. by rewrite Hw, Hc. }
    { congruence. }
    exists r, s'. simpl. unfold bind. rewrite Ht. split_and!; auto.
    destruct Hres as [(? & ? & ?)|(? & ? & ?)]; [left|right]; split_and!; auto; set_solver.
  - rewrite Run_loop_Done by done. eexists _, _. split; [done|]. simpl.
    destruct Hs. split; [done|]. right. split_and!; auto. set_solver.
Qed.

(** C4, amended. [Run] does not look at the peers map. Take a network that
    [Configure] was never called on (the peers map is nil), that is not
    running, that still has its link ([Cleanup] was not called) and whose
    registered watcher channels are open and distinct (no earlier [Run] was
    cancelled); the client can be created. Then [Run] returns no lifecycle
    error: it sets the running flag and enters the control loop, whose ticks
    find no peer and leave the map nil, and it returns nil when the context
    is cancelled. On any network, the only errors that [Run] returns are the
    failure to create the client, when the kernel refuses that request, and
    "network is already running", when the running flag is set. *)
Theorem Run_before_Configure (events : list RunEvent) (s : State) :
  peers (net s) = None →
  running (net s) = false →
  is_Some (link (net s)) →
  watchers_open s →
  fault (k_calls (kernel s)) = None →
  (∃ r s', Run events s = (Ret r, s') ∧ peers (net s') = None ∧
     (r = Looping ∧ running (net s') = true ∧ Done ∉ events ∨
      r = Returned None ∧ running (net s') = false ∧ Done ∈ events)) ∧
  (∀ events0 s0 e s0', Run events0 s0 = (Ret (Returned (Some e)), s0') →
     (∃ x, e = Wrapf "create WireGuard client" (Errno x) ∧
           fault (k_calls (kernel s0)) = Some x) ∨
     (e = ErrorNew "network is already running" ∧ running (net s0) = true)).
Proof.
  intros Hp Hr Hl Hopen Hf. split.
  - rewrite Run_enters by done. apply Run_loop_unconfigured; done.
  - intros events0 s0 e s0'.
    apply (Run_error_causes fault select_plan Secret_String device_apply updateConfig
             updateFromDevice shouldChangeEndpoint).
Qed.

End Unconfigured.

Lemma pair_with_fst {A B} (x : A * B) (a : A) : x.1 = a → x = (a, x.2).
Proof. destruct x. simpl. by intros ->. Qed.

Lemma watched_open : watchers_open watched_state.
Proof.
  assert (Ew : watchers (net watched_state) = [0; 1]) by (by vm_compute).
  assert (Ec : chan_closed watched_state = []) by (by vm_compute).
  unfold watchers_open. rewrite Ew, Ec. split.
  - apply NoDup_cons. split; [|apply NoDup_singleton].
    by intros ?%list_elem_of_singleton.
  - intros ch _ H. by apply elem_of_nil in H.
Defined.

Lemma configured_open : watchers_open configured_state.
Proof.
  assert (Ew : watchers (net configured_state) = [0; 1]) by (by vm_compute).
  assert (Ec : chan_closed configured_state = []) by (by vm_compute).
  unfold watchers_open. rewrite Ew, Ec. split.
  - apply NoDup_cons. split; [|apply NoDup_singleton].
    by intros ?%list_elem_of_singleton.
  - intros ch _ H. by apply elem_of_nil in H.
Defined.

(** The sample runs used below, evaluated. *)
Lemma configured_run :
  sample_Configure sample_config watched_state = (Ret None, configured_state).
Proof. unfold configured_state. apply pair_with_fst. by vm_compute. Qed.

Lemma two_ticks_run :
  sample_Run ready_plan (TickerC <$> [1000; 2000]%Z) configured_state
    = (Ret Looping, (sample_Run ready_plan (TickerC <$> [1000; 2000]%Z) configured_state).2).
Proof. apply pair_with_fst. by vm_compute. Qed.

Lemma sample_unwanted (a : IPNet) (p : Prefix) :
  a ∈ k_addrs (kernel watched_state) → want sample_MachineIP sample_config p →
  sample_IPNet_String a = sample_Prefix_String p → a = sample_prefixToIPNet p.
Proof.
  assert (Ek : k_addrs (kernel watched_state) = [mkIPNet (Addr4 3232235525) 24])
    by (by vm_compute).
  assert (Ea : sample_IPNet_String (mkIPNet (Addr4 3232235525) 24) = "192.168.0.5/24")
    by (by vm_compute).
  assert (E1 : sample_Prefix_String (mkPrefix (Addr4 181534721) 32) = "10.210.0.1/32")
    by (by vm_compute).
  assert (E2 : sample_Prefix_String (machinePrefix sample_MachineIP sample_config)
               = "10.210.0.1/24") by (by vm_compute).
  intros Ha Hp Hs. rewrite Ek in Ha. apply list_elem_of_singleton in Ha. subst a.
  rewrite Ea in Hs. destruct Hp as [Hp|Hp].
  - injection Hp as <-. rewrite E1 in Hs. discriminate Hs.
  - subst p. rewrite E2 in Hs. discriminate Hs.
Qed.

Lemma sample_clash_borne : clash_borne sample_addr_clash.
Proof. intros a l H. by apply bool_decide_eq_true in H. Qed.

Lemma sample_left_others : left_others sample_addr_left.
Proof. intros a l x. unfold sample_addr_left. rewrite list_elem_of_filter. tauto. Qed.



(** C4 as stated fails: on a network fresh from [NewWireGuardNetwork], with
    two watchers, [Run] returns nil when cancelled after a tick, and is in
    its loop with the running flag set while it is not cancelled. *)
Lemma Run_before_Configure_no_error :
  peers (net watched_state) = None ∧
  (sample_Run ready_plan [TickerC 1000; Done] watched_state).1 = Ret (Returned None) ∧
  (sample_Run ready_plan [TickerC 1000] watched_state).1 = Ret Looping ∧
  running (net (sample_Run ready_plan [TickerC 1000] watched_state).2) = true.
Proof. by vm_compute. Qed.

Lemma Run_before_Configure_witness :
  (∃ r s', sample_Run ready_plan [TickerC 1000; Done] watched_state = (Ret r, s') ∧
     peers (net s') = None ∧
     (r = Looping ∧ running (net s') = true ∧ Done ∉ [TickerC 1000; Done] ∨
      r = Returned None ∧ running (net s') = false ∧ Done ∈ [TickerC 1000; Done])) ∧
  (∀ events0 s0 e s0', sample_Run ready_plan events0 s0 = (Ret (Returned (Some e)), s0') →
     (∃ x, e = Wrapf "create WireGuard client" (Errno x) ∧
           no_fault (k_calls (kernel s0)) = Some x) ∨
     (e = ErrorNew "network is already running" ∧ running (net s0) = true)).
Proof.
  apply (Run_before_Configure no_fault ready_plan sample_Secret_String sample_device_apply
           sample_updateConfig sample_updateFromDevice sample_shouldChangeEndpoint
           [TickerC 1000; Done] watched_state).
  - by vm_compute.
  - by vm_compute.
  - vm_compute. by eexists.
  - exact watched_open.
  - by vm_compute.
Defined.

Lemma Run_twice_witness :
  running (net roaming_state) = true ∧
  (∀ events, ∃ e, sample_Run slow_plan events roaming_state
                  = (Ret (Returned (Some e)), served roaming_state)) ∧
  (∀ n sch ths' s',
     run_threads no_fault slow_plan sample_Secret_String sample_device_apply
                 sample_updateConfig sample_updateFromDevice sample_shouldChangeEndpoint
                 sch (InLoop :: replicate n AtNew) roaming_state = (Ret ths', s') →
     controllers ths' ≤ 1 ∧ (controllers ths' = 1 ↔ running (net s') = true)).
Proof.
  split; [by vm_compute|].
  apply (Run_twice no_fault slow_plan sample_Secret_String sample_device_apply
           sample_updateConfig sample_updateFromDevice sample_shouldChangeEndpoint
           roaming_state).
  by vm_compute.
Defined.

(** Two calls of [Run] next to the one in the loop: both are refused; when
    the first call is cancelled and has returned, a further call enters. *)
Example Run_twice_schedule :
  (run_threads no_fault ready_plan sample_Secret_String sample_device_apply
               sample_updateConfig sample_updateFromDevice sample_shouldChangeEndpoint
               [(1, Done); (1, Done); (0, TickerC 1000); (2, Done); (2, Done)]
               [InLoop; AtNew; AtNew] roaming_state).1
    = Ret [InLoop;
           Exited (Some (ErrorNew "network is already running"));
           Exited (Some (ErrorNew "network is already running"))] ∧
  (run_threads no_fault ready_plan sample_Secret_String sample_device_apply
               sample_updateConfig sample_updateFromDevice sample_shouldChangeEndpoint
               [(1, Done); (0, Done); (0, Done); (0, Done); (0, Done); (0, Done); (1, Done)]
               [InLoop; AtNew] roaming_state).1
    = Ret [Exited None; InLoop].
Proof. by vm_compute. Qed.

(** A tick with slow watchers: the timeout is logged and the loop goes on
    to return nil at the cancellation. *)
Example slow_watchers_tick :
  let r := Run_loop no_fault slow_plan sample_Secret_String sample_device_apply
                    sample_updateConfig sample_updateFromDevice sample_shouldChangeEndpoint
                    [TickerC 1000; TickerC 2000; Done] roaming_state in
  r.1 = Ret (Returned None) ∧
  last (logs r.2) = Some (mkLog Error notify_failed (Some timeout_error)) ∧
  chan_sent r.2 = [] ∧ selects r.2 = 1 ∧ now r.2 = 2000%Z.
Proof. by vm_compute. Qed.

Lemma Run_cancelled_again_witness :
  ∃ s2, sample_Run ready_plan ((TickerC <$> [1000; 2000]%Z) ++ [Done]) configured_state
          = (Ret (Returned None), s2) ∧
        running (net s2) = false ∧
        (∀ ch, ch ∈ watchers (net s2) → ch ∈ chan_closed s2) ∧
        (no_fault (k_calls (kernel s2)) = None →
         ∃ s3, sample_Run ready_plan [Done] s2 = (Panic "close of closed channel", s3) ∧
               running (net s3) = true ∧
               chan_closed s3 = chan_closed s2).
Proof.
  apply (Run_cancelled_again no_fault ready_plan sample_Secret_String sample_device_apply
           sample_updateConfig sample_updateFromDevice sample_shouldChangeEndpoint
           [1000; 2000]%Z [] [] configured_state
           (sample_Run ready_plan (TickerC <$> [1000; 2000]%Z) configured_state).2).
  - exact configured_open.
  - by vm_compute.
  - exact two_ticks_run.
Defined.

(** The two runs on the network with two watchers that was never
    configured: the first, cancelled, returns nil with the channels 0 and 1
    closed and the flag cleared; the second panics when it is cancelled,
    and leaves the flag set. *)
Example Run_again_panics :
  let first := sample_Run ready_plan [Done] watched_state in
  let second := sample_Run ready_plan [Done] first.2 in
  first.1 = Ret (Returned None) ∧
  watchers (net first.2) = [0; 1] ∧ chan_closed first.2 = [0; 1] ∧
  running (net first.2) = false ∧
  second.1 = Panic "close of closed channel" ∧
  running (net second.2) = true.
Proof. by vm_compute. Qed.

Lemma Cleanup_requires_stopped_witness :
  Cleanup no_fault roaming_state
    = (Ret (Some (ErrorNew "network is still running, stop it before cleanup")),
       roaming_state) ∧
  ∃ s', Cleanup no_fault configured_state = (Ret None, s') ∧
        link (net s') = None ∧ k_link (kernel s') = None.
Proof.
  split.
  - apply (proj1 (Cleanup_requires_stopped no_fault roaming_state)). by vm_compute.
  - apply (proj2 (proj2 (Cleanup_requires_stopped no_fault configured_state))).
    + by vm_compute.
    + vm_compute. by eexists.
    + vm_compute. by eexists.
    + by vm_compute.
Defined.


(** *** [NewWireGuardNetwork] and the peers of [configureDevice] *)

Section CreateFacts.
Variable fault : nat → option Z.
Variable ifindex : Z.

Lemma LinkByName_eq name s :
  LinkByName fault name s =
    (Ret (match fault (k_calls (kernel s)) with
          | Some e => inr (Errno e)
          | None => match k_link (kernel s) with
                    | Some l => if decide (Name l = name) then inl l
                                else inr LinkNotFoundError
                    | None => inr LinkNotFoundError
                    end
          end), served s).
Proof.
  unfold LinkByName, syscall. cbv [bind get_kernel put_kernel ret].
  destruct (fault _); [done|]. simpl.
  destruct (k_link (kernel s)) as [l|]; [|done]. by destruct (decide _).
Qed.

(** X8. [NewWireGuardNetwork] on a kernel whose link, if it has one, is the
    WireGuard interface. When it returns a network, the network's link is
    the link the kernel now has, and bears the name of the WireGuard
    interface; the peers map is nil, there are no watchers and the network
    is not running. An interface that existed is adopted with one request,
    itself and its addresses, routes and peers untouched; without one, a
    link is made and fetched again, in three requests. And when none of the
    next three requests fails, a network is returned. *)
Theorem NewWireGuardNetwork_adopts_or_creates (s : State) :
  (∀ l, k_link (kernel s) = Some l → Name l = WireGuardInterfaceName) →
  (∀ n s', NewWireGuardNetwork fault ifindex s = (Ret (inl n), s') →
     link n = k_link (kernel s') ∧
     (∃ l, link n = Some l ∧ Name l = WireGuardInterfaceName) ∧
     peers n = None ∧ watchers n = [] ∧ running n = false ∧
     net s' = net s ∧
     (is_Some (k_link (kernel s)) →
        iface_view s' = iface_view s ∧ k_calls (kernel s') = S (k_calls (kernel s))) ∧
     (k_link (kernel s) = None →
        k_link (kernel s') = Some (mkLink WireGuardInterfaceName ifindex 0) ∧
        k_calls (kernel s') = 3 + k_calls (kernel s))) ∧
  ((∀ i, i < 3 → fault (i + k_calls (kernel s)) = None) →
     ∃ n s', NewWireGuardNetwork fault ifindex s = (Ret (inl n), s')).
Proof.
  intros Hname. unfold NewWireGuardNetwork, createOrGetLink, bind.
  rewrite LinkByName_eq.
  destruct (fault (k_calls (kernel s))) as [e|] eqn:Hf0.
  { split; [intros n s' H; discriminate H|].
    intros Hf. specialize (Hf 0 ltac:(lia)). simpl in Hf. congruence. }
  destruct (k_link (kernel s)) as [l|] eqn:Hl.
  - rewrite decide_True by (by apply Hname).
    cbv [slog ret]. split; [|by eauto].
    intros n s' [= <- <-]. simpl. rewrite Hl. split_and!; eauto. intros [=].
  - unfold LinkAdd, syscall. cbv [bind get_kernel put_kernel ret slog]. simpl.
    destruct (fault (S (k_calls (kernel s)))) as [e|] eqn:Hf1; simpl.
    { split; [intros n s' H; discriminate H|].
      intros Hf. specialize (Hf 1 ltac:(lia)). simpl in Hf. congruence. }
    rewrite Hl. simpl. rewrite LinkByName_eq. simpl.
    destruct (fault (S (S (k_calls (kernel s))))) as [e|] eqn:Hf2; simpl.
    { split; [intros n s' H; discriminate H|].
      intros Hf. specialize (Hf 2 ltac:(lia)). simpl in Hf. congruence. }
    split; [|by eauto].
    intros n s' [= <- <-]. simpl. split_and!; eauto.
    intros [? [=]].
Qed.

End CreateFacts.

Section PeersFacts.

Variable fault : nat → option Z.
Variable Secret_String : Secret → string.
Variable toDeviceConfig : Config → list wgPeer → wgConfig + error.
Variable device_apply : wgConfig → list wgPeer → list wgPeer.
Variable newPeer : Z → PeerConfig → option wgPeer → peer.
Variable updateConfig : Z → peer → PeerConfig → peer.

Local Abbreviation peer_key := (peer_key Secret_String).
Local Abbreviation merge_peers := (merge_peers Secret_String newPeer updateConfig).
Local Abbreviation first_peers := (first_peers Secret_String newPeer).
Local Abbreviation configureDevice :=
  (configureDevice fault Secret_String toDeviceConfig device_apply newPeer updateConfig).
Local Abbreviation upsert := (upsert Secret_String newPeer updateConfig).
Local Abbreviation device_index := (device_index Secret_String).


Lemma upsert_lookup t m pc k :
  upsert t m pc !! k =
    if decide (k = peer_key pc) then
      Some (match m !! peer_key pc with
            | Some p => updateConfig t p pc
            | None => newPeer t pc None
            end)
    else m !! k.
Proof.
  unfold Network.upsert. destruct (decide (k = peer_key pc)) as [->|Hne].
  - destruct (m !! peer_key pc); by rewrite lookup_insert_eq.
  - destruct (m !! peer_key pc); by rewrite lookup_insert_ne.
Qed.

Lemma upserts_other t pcs : ∀ m k,
  k ∉ peer_key <$> pcs → foldl (upsert t) m pcs !! k = m !! k.
Proof.
  induction pcs as [|pc pcs IH]; intros m k Hk; [done|].
  rewrite fmap_cons, not_elem_of_cons in Hk. destruct Hk as [Hne Hk].
  cbn [foldl]. rewrite IH by done. rewrite upsert_lookup. by rewrite decide_False.
Qed.

Lemma upserts_dom t pcs : ∀ m k,
  is_Some (foldl (upsert t) m pcs !! k) ↔ is_Some (m !! k) ∨ k ∈ peer_key <$> pcs.
Proof.
  induction pcs as [|pc pcs IH]; intros m k; cbn [foldl].
  - rewrite fmap_nil, elem_of_nil. tauto.
  - rewrite IH, upsert_lookup, fmap_cons, elem_of_cons.
    destruct (decide (k = peer_key pc)) as [->|Hne].
    + split; [auto | intros _; left; eauto].
    + tauto.
Qed.

Lemma upserts_at t pcs : ∀ m pc,
  NoDup (peer_key <$> pcs) → pc ∈ pcs →
  foldl (upsert t) m pcs !! peer_key pc =
    Some (match m !! peer_key pc with
          | Some p => updateConfig t p pc
          | None => newPeer t pc None
          end).
Proof.
  induction pcs as [|pc0 pcs IH]; intros m pc Hnd Hin; [by apply elem_of_nil in Hin|].
  rewrite fmap_cons in Hnd. apply NoDup_cons in Hnd as [Hnin Hnd]. cbn [foldl].
  apply elem_of_cons in Hin as [->|Hin].
  - rewrite upserts_other by done. rewrite upsert_lookup. by rewrite decide_True.
  - rewrite (IH _ _ Hnd Hin). rewrite upsert_lookup. rewrite decide_False; [done|].
    intros E. apply Hnin. rewrite <- E. by apply list_elem_of_fmap_2.
Qed.

Lemma merge_peers_lookup t config m k :
  merge_peers t config m !! k =
    if decide (k ∈ peer_key <$> Peers config)
    then foldl (upsert t) m (Peers config) !! k else None.
Proof.
  unfold Network.merge_peers. fold (upsert t).
  destruct (decide _) as [Hin|Hnin].
  - destruct (foldl _ _ _ !! k) as [p|] eqn:E.
    + apply map_lookup_filter_Some. split; [done|]. simpl. by apply elem_of_list_to_set.
    + apply map_lookup_filter_None. by left.
  - apply map_lookup_filter_None. right. intros p _. simpl. by rewrite elem_of_list_to_set.
Qed.

Lemma merge_peers_dom t config m k :
  is_Some (merge_peers t config m !! k) ↔ k ∈ peer_key <$> Peers config.
Proof.
  rewrite merge_peers_lookup. destruct (decide _) as [Hin|Hnin].
  - rewrite upserts_dom. tauto.
  - split; [by intros [? [=]] | done].
Qed.


Lemma index_lookup devPeers : ∀ (m : gmap string wgPeer) k w,
  NoDup ((λ p, Secret_String (wg_PublicKey p)) <$> devPeers) →
  foldl (λ m p, <[Secret_String (wg_PublicKey p) := p]> m) m devPeers !! k = Some w ↔
    (w ∈ devPeers ∧ Secret_String (wg_PublicKey w) = k) ∨
    (k ∉ (λ p, Secret_String (wg_PublicKey p)) <$> devPeers) ∧ m !! k = Some w.
Proof.
  induction devPeers as [|w0 ws IH]; intros m k w Hnd.
  - cbn [foldl]. rewrite fmap_nil. set_solver.
  - rewrite fmap_cons in Hnd. apply NoDup_cons in Hnd as [Hnin Hnd].
    cbn [foldl]. rewrite IH by done. rewrite fmap_cons, not_elem_of_cons, elem_of_cons.
    destruct (decide (k = Secret_String (wg_PublicKey w0))) as [->|Hne].
    + rewrite lookup_insert_eq. split.
      * intros [[Hin Hk]|[Hk [= ->]]]; [|by left; split; [left|]].
        exfalso. apply Hnin. rewrite <- Hk.
        by apply (list_elem_of_fmap_2 (λ p, Secret_String (wg_PublicKey p))).
      * intros [[[->|Hin] Hk]|[[? _] _]]; [by right | | done].
        exfalso. apply Hnin. rewrite <- Hk.
        by apply (list_elem_of_fmap_2 (λ p, Secret_String (wg_PublicKey p))).
    + rewrite lookup_insert_ne by done. split.
      * intros [[Hin Hk]|[Hk Hm]]; [left; split; [by right | done] | by right].
      * intros [[[->|Hin] Hk]|[[_ Hk] Hm]]; [done | by left | by right].
Qed.

Lemma device_index_lookup devPeers k w :
  NoDup ((λ p, Secret_String (wg_PublicKey p)) <$> devPeers) →
  device_index devPeers !! k = Some w ↔ w ∈ devPeers ∧ Secret_String (wg_PublicKey w) = k.
Proof.
  intros Hnd. unfold Network.device_index. rewrite index_lookup by done.
  rewrite lookup_empty. split; [intros [?|[_ [=]]]; done | by left].
Qed.

Lemma first_peers_lookup t config devPeers pc :
  NoDup (peer_key <$> Peers config) → pc ∈ Peers config →
  first_peers t config devPeers !! peer_key pc =
    Some (newPeer t pc (device_index devPeers !! peer_key pc)).
Proof.
  unfold Network.first_peers. fold (device_index devPeers).
  generalize (device_index devPeers) as idx. intros idx.
  generalize (∅ : gmap string peer) as m.
  induction (Peers config) as [|pc0 pcs IH]; intros m Hnd Hin; [by apply elem_of_nil in Hin|].
  rewrite fmap_cons in Hnd. apply NoDup_cons in Hnd as [Hnin Hnd]. cbn [foldl].
  apply elem_of_cons in Hin as [->|Hin]; [|by apply IH].
  clear IH Hnd. revert m. induction pcs as [|pc1 pcs IH]; intros m.
  - simpl. by rewrite lookup_insert_eq.
  - rewrite fmap_cons, not_elem_of_cons in Hnin. destruct Hnin as [Hne Hnin].
    cbn [foldl]. rewrite insert_insert_ne by done. by apply IH.
Qed.

Lemma net_syscall {A} (body : Kernel → Kernel * (A + error)) : keeps net (syscall fault body).
Proof.
  intros s r s' H. unfold syscall in H. cbv [bind get_kernel put_kernel ret] in H.
  destruct (fault _); [|destruct (body _)]; by simplify_eq.
Qed.

Lemma net_wg_ConfigureDevice name cfg :
  keeps net (wg_ConfigureDevice fault device_apply name cfg).
Proof. unfold wg_ConfigureDevice. keeps_auto. apply net_syscall. Qed.

(** What [configureDevice] did up to the update of the peers. *)
Lemma configureDevice_inv config s r s' :
  configureDevice config s = (Ret r, s') →
  (net s' = net s ∧ is_Some r) ∨
  (fault (k_calls (kernel s)) = None ∧ fault (S (k_calls (kernel s))) = None ∧
   net s' =
     set_peers
       (Some (merge_peers (now s) config
                (match peers (net s) with
                 | None => first_peers (now s) config (k_peers (kernel s))
                 | Some m => m
                 end))) (net s)).
Proof.
  unfold Network.configureDevice. intros H.
  apply bind_Ret_inv in H as (e & s1 & Hnew & H).
  rewrite wgctrl_New_eq in Hnew. injection Hnew as <- <-.
  destruct (fault (k_calls (kernel s))) as [x|] eqn:Hf0; simpl in H.
  { injection H as <- <-. left. eauto. }
  apply bind_Ret_inv in H as (l & s2 & Hl & H).
  apply link_Attrs_Ret in Hl as ->.
  apply bind_Ret_inv in H as (d & s3 & Hdev & H).
  unfold wg_Device, syscall in Hdev. cbv [bind get_kernel put_kernel ret] in Hdev.
  simpl in Hdev.
  destruct (fault (S (k_calls (kernel s)))) as [x|] eqn:Hf1.
  { injection Hdev as <- <-. injection H as <- <-. left. eauto. }
  simpl in Hdev.
  assert (Hs3 : net s3 = net s ∧ now s3 = now s ∧
                (∀ dp, d = inl dp → dp = k_peers (kernel s))).
  { destruct (k_link (kernel s)); [destruct (decide _)|];
      injection Hdev as <- <-; split_and!; auto; intros dp [=]; done. }
  destruct Hs3 as (Hn & Ht & Hd).
  destruct d as [devPeers|e]; [|injection H as <- <-; left; rewrite Hn; eauto].
  rewrite (Hd _ eq_refl) in *.
  apply bind_Ret_inv in H as (sg & s4 & Hg & H). injection Hg as <- <-.
  apply bind_Ret_inv in H as ([] & s5 & Hput & H). injection Hput as <-.
  rewrite Hn, Ht in H. right. split_and!; auto.
  match type of H with ?c ?st = _ => assert (Hk : keeps net c) end.
  { destruct (toDeviceConfig config _); keeps_auto. apply net_wg_ConfigureDevice. }
  apply Hk in H. by rewrite H.
Qed.


(** X9. When [configureDevice] returns nil, the peers map is not nil and
    its keys are exactly the keys of the peers of the configuration: a peer
    that is no longer configured is gone. When it returns an error, the map
    is either as it was or already updated so. *)
Theorem configureDevice_peer_keys (config : Config) (s s' : State) (r : option error) :
  configureDevice config s = (Ret r, s') →
  let synced := ∃ m', peers (net s') = Some m' ∧
                      ∀ k, is_Some (m' !! k) ↔ k ∈ peer_key <$> Peers config in
  match r with
  | None => synced
  | Some _ => peers (net s') = peers (net s) ∨ synced
  end.
Proof.
  intros [[Hp [e ->]]|(_ & _ & Hp)]%configureDevice_inv; simpl; [left; by rewrite Hp|].
  assert (∃ m', peers (net s') = Some m' ∧
                ∀ k, is_Some (m' !! k) ↔ k ∈ peer_key <$> Peers config) as Hs.
  { eexists. split; [by rewrite Hp|]. intros k. apply merge_peers_dom. }
  destruct r; [by right | done].
Qed.

(** X10. When [configureDevice] returns nil for a configuration whose peers
    have distinct keys, the entry of each configured peer is: the peer that
    was in the map, updated with the new configuration; a new peer without
    device state, when the map had none under the key; and, when the map was
    nil (the first configuration of this network), a new peer built from the
    peer the device has under that key, then updated with the
    configuration. *)
Theorem configureDevice_peers (config : Config) (s s' : State) (pc : PeerConfig) :
  NoDup (peer_key <$> Peers config) →
  configureDevice config s = (Ret None, s') →
  pc ∈ Peers config →
  ∃ m', peers (net s') = Some m' ∧
    m' !! peer_key pc =
      Some (match peers (net s) with
            | Some m =>
              match m !! peer_key pc with
              | Some p => updateConfig (now s) p pc
              | None => newPeer (now s) pc None
              end
            | None =>
              updateConfig (now s)
                (newPeer (now s) pc (device_index (k_peers (kernel s)) !! peer_key pc)) pc
            end).
Proof.
  intros Hnd [[_ [e [=]]]|(_ & _ & Hp)]%configureDevice_inv Hin.
  eexists. split; [by rewrite Hp|].
  rewrite merge_peers_lookup, decide_True by (by apply list_elem_of_fmap_2).
  rewrite upserts_at by done.
  destruct (peers (net s)) as [m|]; [done|].
  by rewrite first_peers_lookup.
Qed.

End PeersFacts.


Lemma NewWireGuardNetwork_adopts_or_creates_witness :
  (∀ n s', NewWireGuardNetwork no_fault 7 fresh_state = (Ret (inl n), s') →
     link n = k_link (kernel s') ∧
     (∃ l, link n = Some l ∧ Name l = WireGuardInterfaceName) ∧
     peers n = None ∧ watchers n = [] ∧ running n = false ∧
     net s' = net fresh_state ∧
     (is_Some (k_link (kernel fresh_state)) →
        iface_view s' = iface_view fresh_state ∧
        k_calls (kernel s') = S (k_calls (kernel fresh_state))) ∧
     (k_link (kernel fresh_state) = None →
        k_link (kernel s') = Some (mkLink WireGuardInterfaceName 7 0) ∧
        k_calls (kernel s') = 3 + k_calls (kernel fresh_state))) ∧
  ((∀ i, i < 3 → no_fault (i + k_calls (kernel fresh_state)) = None) →
     ∃ n s', NewWireGuardNetwork no_fault 7 fresh_state = (Ret (inl n), s')).
Proof.
  apply (NewWireGuardNetwork_adopts_or_creates no_fault 7 fresh_state).
  intros l [= <-]. reflexivity.
Defined.

Lemma configureDevice_run :
  sample_configureDevice sample_config roaming_state
    = (Ret None, (sample_configureDevice sample_config roaming_state).2).
Proof. apply pair_with_fst. by vm_compute. Qed.

Lemma configureDevice_first_run :
  sample_configureDevice sample_config fresh_state
    = (Ret None, (sample_configureDevice sample_config fresh_state).2).
Proof. apply pair_with_fst. by vm_compute. Qed.

Lemma configureDevice_peer_keys_witness :
  ∃ m', peers (net (sample_configureDevice sample_config fresh_state).2) = Some m' ∧
        ∀ k, is_Some (m' !! k) ↔
             k ∈ Network.peer_key sample_Secret_String <$> Peers sample_config.
Proof.
  exact (configureDevice_peer_keys no_fault sample_Secret_String sample_toDeviceConfig
           sample_device_apply sample_newPeer sample_updateConfig sample_config
           fresh_state _ None configureDevice_first_run).
Defined.

Lemma sample_keys_NoDup : NoDup (Network.peer_key sample_Secret_String <$> Peers sample_config).
Proof. apply NoDup_singleton. Qed.

Lemma configureDevice_peers_witness :
  ∃ m', peers (net (sample_configureDevice sample_config roaming_state).2) = Some m' ∧
    m' !! Network.peer_key sample_Secret_String m2_config =
      Some (match peers (net roaming_state) with
            | Some m =>
              match m !! Network.peer_key sample_Secret_String m2_config with
              | Some p => sample_updateConfig (now roaming_state) p m2_config
              | None => sample_newPeer (now roaming_state) m2_config None
              end
            | None =>
              sample_updateConfig (now roaming_state)
                (sample_newPeer (now roaming_state) m2_config
                   (device_index sample_Secret_String (k_peers (kernel roaming_state))
                      !! Network.peer_key sample_Secret_String m2_config)) m2_config
            end).
Proof.
  apply (configureDevice_peers no_fault sample_Secret_String sample_toDeviceConfig
           sample_device_apply sample_newPeer sample_updateConfig sample_config
           roaming_state _ m2_config sample_keys_NoDup configureDevice_run).
  by left.
Defined.

(** *** [updatePeerRoutes] *)

Section Routes.

Variable fault : nat → option Z.
Variable prefixToIPNet : Prefix → IPNet.
Variable ipNetToPrefix : IPNet → Prefix + error.
Variable prefixes : PeerConfig → list Prefix + error.
Variable IPSet_Prefixes : list Prefix → list Prefix + error.

Lemma RouteAdd_spec r s err s' :
  (∀ n, fault n ≠ Some EEXIST) →
  RouteAdd fault r s = (Ret err, s') →
  net s' = net s ∧
  match err with
  | None => k_routes (kernel s') = k_routes (kernel s) ++ [r]
  | Some e =>
    k_routes (kernel s') = k_routes (kernel s) ∧
    (errors_Is e EEXIST = true → r ∈ k_routes (kernel s))
  end.
Proof.
  intros Hf. unfold RouteAdd, on_link, syscall. cbv [bind get_kernel put_kernel ret].
  specialize (Hf (k_calls (kernel s))).
  destruct (fault _) as [e|] eqn:E.
  - intros [= <- <-]. simpl. split_and!; auto.
    intros He%bool_decide_eq_true. congruence.
  - simpl. destruct (k_link (kernel s)); simpl.
    + destruct (decide _); intros [= <- <-]; simpl; auto.
    + intros [= <- <-]. simpl. split_and!; auto. intros He. discriminate He.
Qed.

Lemma RouteDel_spec r s s' :
  RouteDel fault r s = (Ret None, s') →
  net s' = net s ∧ k_routes (kernel s') = filter (λ x, x ≠ r) (k_routes (kernel s)).
Proof.
  unfold RouteDel, on_link, syscall. cbv [bind get_kernel put_kernel ret].
  destruct (fault _); [discriminate|]. simpl.
  destruct (k_link (kernel s)); [|discriminate]. simpl.
  destruct (decide _); intros [= <-]; done.
Qed.

Lemma RouteList_spec s l s' :
  RouteList fault s = (Ret (inl l), s') →
  l = k_routes (kernel s) ∧ k_routes (kernel s') = k_routes (kernel s) ∧ net s' = net s.
Proof.
  unfold RouteList. intros (_ & Hb & Hn)%on_link_Ret. by injection Hb as <- <-.
Qed.

Lemma link_Attrs_link s l s' : link_Attrs s = (Ret l, s') → link (net s) = Some l.
Proof.
  cbv [link_Attrs bind get_net]. destruct (link (net s)); cbv [ret panic]; congruence.
Qed.

Lemma add_routes_ok prefs : ∀ s s',
  (∀ n, fault n ≠ Some EEXIST) →
  add_routes fault prefixToIPNet prefs s = (Ret None, s') →
  net s' = net s ∧
  (prefs ≠ [] → is_Some (link (net s))) ∧
  ∀ l, link (net s) = Some l →
  ∀ r, r ∈ k_routes (kernel s') ↔
       r ∈ k_routes (kernel s) ∨ r ∈ peer_route prefixToIPNet l <$> prefs.
Proof.
  induction prefs as [|p rest IH]; intros s s' Hf H; simpl in H.
  - injection H as <-. split_and!; [done | done |]. intros l _ r. rewrite fmap_nil. set_solver.
  - apply bind_Ret_inv in H as (l0 & s0 & Hl & H).
    pose proof (link_Attrs_link _ _ _ Hl) as Hlink. apply link_Attrs_Ret in Hl as ->.
    apply bind_Ret_inv in H as (err & s1 & Hadd & H).
    apply RouteAdd_spec in Hadd as [Hn Hadd]; [|done].
    assert (∃ s2, net s2 = net s1 ∧ kernel s2 = kernel s1 ∧
                  add_routes fault prefixToIPNet rest s2 = (Ret None, s')) as (s2 & Hn2 & Hk2 & H2).
    { destruct err as [e|].
      - destruct (errors_Is e EEXIST); [|discriminate H]. by exists s1.
      - apply bind_Ret_inv in H as ([] & s2 & Hlog & H). injection Hlog as <-.
        eexists. split_and!; [| |exact H]; done. }
    destruct (IH _ _ Hf H2) as (Hn' & _ & Hr).
    split_and!; [congruence | eauto |].
    intros l Hl r. assert (l = l0) as -> by congruence.
    rewrite (Hr l0) by congruence. rewrite Hk2, fmap_cons.
    destruct err as [e|].
    + destruct Hadd as [Hsame Hin].
      destruct (errors_Is e EEXIST); [|discriminate H].
      rewrite Hsame. specialize (Hin eq_refl). unfold peer_route at 2. set_solver.
    + rewrite Hadd. unfold peer_route at 2. set_solver.
Qed.

Lemma del_routes_ok added routes : ∀ s s',
  del_routes fault ipNetToPrefix added routes s = (Ret None, s') →
  net s' = net s ∧
  (∀ r, r ∈ routes → ∃ dst p, Dst r = Some dst ∧ ipNetToPrefix dst = inl p) ∧
  ∀ r, r ∈ k_routes (kernel s') ↔
       r ∈ k_routes (kernel s) ∧ (r ∈ routes → routed ipNetToPrefix added r).
Proof.
  induction routes as [|route rest IH]; intros s s' H; simpl in H.
  - injection H as <-. split_and!; [done | set_solver | set_solver].
  - destruct (Dst route) as [dst|] eqn:Hdst; [|discriminate H].
    destruct (ipNetToPrefix dst) as [p|e] eqn:Hp; [|discriminate H].
    destruct (bool_decide (p ∈ added)) eqn:Hin.
    + apply bool_decide_eq_true in Hin.
      destruct (IH _ _ H) as (Hn & Hall & Hr). split_and!; [done | |].
      * intros r [->|Hr']%elem_of_cons; eauto.
      * intros r. rewrite Hr. split.
        -- intros [Hk Hrest]. split; [done|].
           intros [->|Hr']%elem_of_cons; [|auto]. by exists dst, p.
        -- intros [Hk Hall']. split; [done|]. intros Hr'. apply Hall'. by right.
    + apply bool_decide_eq_false in Hin.
      apply check_inv in H as (s1 & Hdel & H).
      apply RouteDel_spec in Hdel as [Hn1 Hdel].
      apply bind_Ret_inv in H as ([] & s2 & Hlog & H). injection Hlog as <-.
      destruct (IH _ _ H) as (Hn & Hall & Hr). simpl in *. split_and!; [congruence | |].
      * intros r [->|Hr']%elem_of_cons; eauto.
      * intros r. rewrite Hr, Hdel, list_elem_of_filter. split.
        -- intros [[Hne Hk] Hrest]. split; [done|].
           intros [->|Hr']%elem_of_cons; [done | auto].
        -- intros [Hk Hall']. split_and!; auto.
           ++ intros ->. destruct Hall' as (d & q & Hd & Hq & Hqin); [by left|].
              congruence.
           ++ intros Hr'. apply Hall'. by right.
Qed.

(** X11. When [updatePeerRoutes] returns nil, the kernel reporting EEXIST
    only for a route that is there: the routes on the link are those, old or
    just added, whose destination is one of the prefixes computed from the
    peers; each of these prefixes that [ipNetToPrefix] reads back from its
    [prefixToIPNet] form has its link-scope route; every old route to
    another destination is gone; the addresses and the network object are
    untouched. *)
Theorem updatePeerRoutes_reconciles (s s' : State) :
  (∀ n, fault n ≠ Some EEXIST) →
  updatePeerRoutes fault prefixToIPNet ipNetToPrefix prefixes IPSet_Prefixes s
    = (Ret None, s') →
  ∃ l added ipset,
    link (net s) = Some l ∧
    peer_prefixes prefixes ((peers_list (net s)).*2) [] = inl added ∧
    IPSet_Prefixes added = inl ipset ∧
    (∀ r, r ∈ k_routes (kernel s') ↔
          (r ∈ k_routes (kernel s) ∨ r ∈ peer_route prefixToIPNet l <$> ipset) ∧
          routed ipNetToPrefix ipset r) ∧
    (∀ p, p ∈ ipset → ipNetToPrefix (prefixToIPNet p) = inl p →
          peer_route prefixToIPNet l p ∈ k_routes (kernel s')) ∧
    (∀ r, r ∈ k_routes (kernel s) → ¬ routed ipNetToPrefix ipset r →
          r ∉ k_routes (kernel s')) ∧
    k_addrs (kernel s') = k_addrs (kernel s) ∧ net s' = net s.
Proof.
  intros Hf H.
  pose proof (addr_updatePeerRoutes fault prefixToIPNet ipNetToPrefix prefixes
                IPSet_Prefixes _ _ _ H) as Haddr.
  unfold updatePeerRoutes in H.
  apply bind_Ret_inv in H as (n & s0 & Hn & H). injection Hn as <- <-.
  destruct (peer_prefixes _ _ _) as [added|e] eqn:Hpp; [|discriminate H].
  destruct (IPSet_Prefixes added) as [ipset|e] eqn:Hset; [|discriminate H].
  apply check_inv in H as (s1 & Hadd & H).
  apply bind_Ret_inv in H as (l & s2 & Hl & H).
  pose proof (link_Attrs_link _ _ _ Hl) as Hlink. apply link_Attrs_Ret in Hl as ->.
  apply bind_Ret_inv in H as (r & s3 & Hlist & H).
  destruct r as [routes|e]; [|discriminate H].
  apply RouteList_spec in Hlist as (-> & Hsame & Hn3).
  destruct (add_routes_ok _ _ _ Hf Hadd) as (Hn1 & _ & Hadded).
  destruct (del_routes_ok _ _ _ _ H) as (Hn' & _ & Hdel).
  rewrite Hn1 in Hlink. specialize (Hadded l Hlink).
  assert (Hall : ∀ r, r ∈ k_routes (kernel s') ↔
            (r ∈ k_routes (kernel s) ∨ r ∈ peer_route prefixToIPNet l <$> ipset) ∧
            routed ipNetToPrefix ipset r).
  { intros r. rewrite Hdel, Hsame, Hadded. tauto. }
  exists l, added, ipset. split_and!.
  - exact Hlink.
  - done.
  - done.
  - exact Hall.
  - intros p Hp Hrt. apply Hall. split.
    + right. by apply list_elem_of_fmap_2.
    + by exists (prefixToIPNet p), p.
  - intros r _ Hnr [_ Hr]%Hall. done.
  - exact Haddr.
  - congruence.
Qed.

End Routes.



Lemma stale_run :
  sample_updatePeerRoutes stale_state = (Ret None, (sample_updatePeerRoutes stale_state).2).
Proof. apply pair_with_fst. by vm_compute. Qed.

Lemma no_fault_EEXIST : ∀ n, no_fault n ≠ Some EEXIST.
Proof. intros n. discriminate. Qed.

Lemma updatePeerRoutes_reconciles_witness :
  ∃ l added ipset,
    link (net stale_state) = Some l ∧
    peer_prefixes sample_prefixes ((peers_list (net stale_state)).*2) [] = inl added ∧
    sample_IPSet_Prefixes added = inl ipset ∧
    (∀ r, r ∈ k_routes (kernel (sample_updatePeerRoutes stale_state).2) ↔
          (r ∈ k_routes (kernel stale_state) ∨
           r ∈ peer_route sample_prefixToIPNet l <$> ipset) ∧
          routed sample_ipNetToPrefix ipset r) ∧
    (∀ p, p ∈ ipset → sample_ipNetToPrefix (sample_prefixToIPNet p) = inl p →
          peer_route sample_prefixToIPNet l p
            ∈ k_routes (kernel (sample_updatePeerRoutes stale_state).2)) ∧
    (∀ r, r ∈ k_routes (kernel stale_state) → ¬ routed sample_ipNetToPrefix ipset r →
          r ∉ k_routes (kernel (sample_updatePeerRoutes stale_state).2)) ∧
    k_addrs (kernel (sample_updatePeerRoutes stale_state).2) = k_addrs (kernel stale_state) ∧
    net (sample_updatePeerRoutes stale_state).2 = net stale_state.
Proof.
  exact (updatePeerRoutes_reconciles no_fault sample_prefixToIPNet sample_ipNetToPrefix
           sample_prefixes sample_IPSet_Prefixes stale_state _ no_fault_EEXIST stale_run).
Defined.

Example stale_route_removed :
  k_routes (kernel stale_state)
    = [stale_route; mkRoute 7 SCOPE_LINK (Some (mkIPNet (Addr4 181534976) 24))] ∧
  k_routes (kernel (sample_updatePeerRoutes stale_state).2)
    = [mkRoute 7 SCOPE_LINK (Some (mkIPNet (Addr4 181534976) 24))].
Proof. by vm_compute. Qed.

(** *** What the watchers receive *)

Section Delivery.

Variable select_plan : nat → SelectCase * Z.

Lemma select_send_step ch e s r s' :
  select_send select_plan ch e s = (r, s') →
  publish_view s' = publish_view s ∧
  match r with
  | Ret None => chan_sent s' = chan_sent s ++ [(ch, e)] ∧ selects s' = S (selects s)
  | _ => chan_sent s' = chan_sent s
  end.
Proof.
  unfold select_send. cbv [bind get].
  destruct (select_plan (selects s)) as [c d]. intros H.
  cbv [selected chan_send ret panic bind] in H.
  repeat (match type of H with context [match ?x with _ => _ end] => destruct x end);
    simplify_eq; by simpl.
Qed.

Lemma notify_events_prefix ch events : ∀ s r s',
  notify_events select_plan ch events s = (r, s') →
  publish_view s' = publish_view s ∧
  ∃ n, n ≤ length events ∧
       chan_sent s' = chan_sent s ++ (pair ch <$> take n events) ∧
       (r = Ret None → n = length events).
Proof.
  induction events as [|e events IH]; intros s r s' H; simpl in H.
  - injection H as <- <-. split; [done|]. exists 0. by rewrite app_nil_r.
  - unfold bind in H. destruct (select_send _ _ _ _) as [[x|why] s1] eqn:Hsel.
    + apply select_send_step in Hsel as [Hv Hsel]. destruct x as [x|].
      * injection H as <- <-. split; [done|]. exists 0. simpl.
        rewrite app_nil_r. split_and!; [lia | by destruct x | done].
      * destruct Hsel as [Hsent _]. apply IH in H as (Hv' & n & Hn & Hs & Hall).
        split; [congruence|]. exists (S n). simpl. split_and!; [lia | | auto].
        by rewrite Hs, Hsent, <- app_assoc.
    + apply select_send_step in Hsel as [Hv Hsel]. injection H as <- <-.
      split; [done|]. exists 0. simpl. rewrite app_nil_r. split_and!; [lia | done | done].
Qed.

Lemma notify_chans_prefix chans events : ∀ s r s',
  notify_chans select_plan chans events s = (r, s') →
  publish_view s' = publish_view s ∧
  ∃ n, chan_sent s' = chan_sent s ++ take n (deliveries chans events).
Proof.
  induction chans as [|ch chans IH]; intros s r s' H; simpl in H.
  - injection H as <- <-. split; [done|]. exists 0. by rewrite app_nil_r.
  - unfold bind in H. destruct (notify_events _ _ _ _) as [o s1] eqn:Hev.
    apply notify_events_prefix in Hev as (Hv & n & Hn & Hs & Hall).
    unfold deliveries. rewrite bind_cons. fold (deliveries chans events).
    assert (Hstop : chan_sent s1 = chan_sent s ++
                      take n ((pair ch <$> events) ++ deliveries chans events)).
    { rewrite take_app_le by (by rewrite length_fmap). by rewrite <- fmap_take. }
    destruct o as [[x|]|why].
    + injection H as <- <-. split; [done|]. by exists n.
    + apply IH in H as (Hv' & n' & Hs'). split; [congruence|].
      exists (length events + n'). rewrite Hs', Hs, (Hall eq_refl), firstn_all, <- app_assoc.
      f_equal. rewrite take_app_ge by (rewrite length_fmap; lia).
      rewrite length_fmap. by replace (length events + n' - length events) with n' by lia.
    + injection H as <- <-. split; [done|]. by exists n.
Qed.

(** X15. Whatever a publish meets (a slow watcher, the cancellation, a
    closed channel), the events received are a prefix of the sequence that
    goes watcher by watcher, each watcher getting the events in order: a
    watcher gets nothing before the watchers registered before it have got
    every event. The network object, the kernel, the channels and the log
    are untouched. *)
Theorem notifyWatchers_prefix (events : list EndpointChangeEvent) (s s' : State)
    (r : outcome (option error)) :
  notifyWatchers select_plan events s = (r, s') →
  publish_view s' = publish_view s ∧
  ∃ n, chan_sent s' = chan_sent s ++ take n (deliveries (watchers (net s)) events).
Proof. unfold notifyWatchers. cbv [bind get_net]. apply notify_chans_prefix. Qed.

Lemma select_send_ready ch e s :
  ch ∉ chan_closed s → ready (select_plan (selects s)) →
  ∃ s', select_send select_plan ch e s = (Ret None, s').
Proof.
  intros Hopen [Hc Hd]. unfold select_send. cbv [bind get].
  destruct (select_plan (selects s)) as [c d]. simpl in *. subst c.
  rewrite decide_False by done. rewrite decide_True by done. eauto.
Qed.

Lemma notify_events_ready ch events : ∀ s,
  ch ∉ chan_closed s →
  (∀ i, i < length events → ready (select_plan (selects s + i))) →
  ∃ s', notify_events select_plan ch events s = (Ret None, s') ∧
        selects s' = selects s + length events ∧
        chan_sent s' = chan_sent s ++ (pair ch <$> events).
Proof.
  induction events as [|e events IH]; intros s Hopen Hready; simpl.
  - exists s. rewrite app_nil_r. split_and!; [done | lia | done].
  - destruct (select_send_ready ch e s Hopen) as [s1 Hsel].
    { specialize (Hready 0 ltac:(simpl; lia)). by rewrite Nat.add_0_r in Hready. }
    unfold bind. rewrite Hsel.
    apply select_send_step in Hsel as [Hv [Hsent Hsel]].
    destruct (IH s1) as (s' & H & Hn & Hs).
    + injection Hv as _ _ _ -> _. done.
    + intros i Hi. rewrite Hsel. specialize (Hready (S i) ltac:(simpl; lia)).
      by replace (S (selects s) + i) with (selects s + S i) by lia.
    + exists s'. split_and!; [done | lia |]. by rewrite Hs, Hsent, <- app_assoc.
Qed.

Lemma deliveries_length chans events :
  length (deliveries chans events) = length chans * length events.
Proof.
  induction chans as [|ch chans IH]; [done|].
  unfold deliveries in *. rewrite bind_cons, length_app, length_fmap, IH. simpl. lia.
Qed.

Lemma notify_chans_ready chans events : ∀ s,
  (∀ ch, ch ∈ chans → ch ∉ chan_closed s) →
  (∀ i, i < length chans * length events → ready (select_plan (selects s + i))) →
  ∃ s', notify_chans select_plan chans events s = (Ret None, s') ∧
        selects s' = selects s + length chans * length events ∧
        chan_sent s' = chan_sent s ++ deliveries chans events.
Proof.
  induction chans as [|ch chans IH]; intros s Hopen Hready; cbn [notify_chans length] in *.
  - exists s. unfold deliveries. simpl. rewrite app_nil_r. split_and!; [done | lia | done].
  - destruct (notify_events_ready ch events s) as (s1 & Hev & Hn1 & Hs1).
    { apply Hopen. by left. }
    { intros i Hi. apply Hready. simpl. lia. }
    unfold bind. rewrite Hev.
    apply notify_events_prefix in Hev as (Hv & _).
    destruct (IH s1) as (s' & H & Hn & Hs).
    + injection Hv as _ _ _ -> _. intros c Hc. apply Hopen. by right.
    + intros i Hi. rewrite Hn1, <- Nat.add_assoc. apply Hready. simpl. lia.
    + exists s'. split_and!; [done | lia |].
      unfold deliveries. rewrite bind_cons. fold (deliveries chans events).
      by rewrite Hs, Hs1, <- app_assoc.
Qed.

(** X16. When every registered channel is open and every send finds its
    receiver ready within the timeout, [notifyWatchers] returns nil, every
    watcher has received every event, in order, and one [select] has run
    per watcher and event. *)
Theorem notifyWatchers_all_ready (events : list EndpointChangeEvent) (s : State) :
  (∀ ch, ch ∈ watchers (net s) → ch ∉ chan_closed s) →
  (∀ i, i < length (watchers (net s)) * length events →
        ready (select_plan (selects s + i))) →
  ∃ s', notifyWatchers select_plan events s = (Ret None, s') ∧
        chan_sent s' = chan_sent s ++ deliveries (watchers (net s)) events ∧
        selects s' = selects s + length (watchers (net s)) * length events ∧
        publish_view s' = publish_view s.
Proof.
  intros Hopen Hready. unfold notifyWatchers. cbv [bind get_net].
  destruct (notify_chans_ready _ events s Hopen Hready) as (s' & H & Hn & Hs).
  exists s'. split_and!; [done | done | done |].
  by apply notify_chans_prefix in H as (Hv & _).
Qed.

End Delivery.

(** *** Slow watchers *)

Lemma quiet_ret {A} (a : A) : quiet (ret a).
Proof. intros s o s' [= <- <-]. split; [done|]. exists []. by rewrite app_nil_r. Qed.
Lemma quiet_panic {A} why : quiet (@panic A why).
Proof. intros s o s' [= <- <-]. split; [done|]. exists []. by rewrite app_nil_r. Qed.

Lemma quiet_bind {A B} (c : M A) (k : A → M B) :
  quiet c → (∀ a, quiet (k a)) → quiet (bind c k).
Proof.
  intros Hc Hk s o s'. unfold bind.
  destruct (c s) as [[a|why] s1] eqn:E; apply Hc in E as (Hs & l & Hl).
  - intros (Hs' & l' & Hl')%Hk. split; [congruence|].
    exists (l ++ l'). by rewrite Hl', Hl, <- app_assoc.
  - intros [= <- <-]. eauto.
Qed.

Ltac quiet_prim :=
  unfold quiet; intros;
  match goal with
  | H : _ = (_, _) |- _ =>
    cbv [bind ret panic get get_net get_kernel put_net put_kernel
         put_chans chan_send clock_at slog store_peer] in H;
    repeat case_match; simplify_eq; simpl;
    (split; [reflexivity|]);
    first [by (exists []; rewrite app_nil_r) | by eexists [_]]
  end.

Lemma quiet_get : quiet get. Proof. quiet_prim. Qed.
Lemma quiet_get_net : quiet get_net. Proof. quiet_prim. Qed.
Lemma quiet_get_kernel : quiet get_kernel. Proof. quiet_prim. Qed.
Lemma quiet_put_net n : quiet (put_net n). Proof. quiet_prim. Qed.
Lemma quiet_put_kernel k : quiet (put_kernel k). Proof. quiet_prim. Qed.
Lemma quiet_put_chans n c x : quiet (put_chans n c x). Proof. quiet_prim. Qed.
Lemma quiet_clock_at t : quiet (clock_at t). Proof. quiet_prim. Qed.
Lemma quiet_slog l m e : quiet (slog l m e). Proof. quiet_prim. Qed.
Lemma quiet_store_peer k p : quiet (store_peer k p). Proof. quiet_prim. Qed.

Create HintDb quiet.
#[local] Hint Resolve quiet_ret quiet_panic quiet_get quiet_get_net quiet_get_kernel
  quiet_put_net quiet_put_kernel quiet_put_chans quiet_clock_at quiet_slog quiet_store_peer
  : quiet.

Ltac quiet_step :=
  lazymatch goal with
  | |- quiet (bind _ _) => apply quiet_bind; [| intros ?]
  | |- quiet (match ?x with _ => _ end) => destruct x
  | |- quiet (let '(_, _) := ?x in _) => destruct x
  | |- quiet _ => solve [eauto with quiet]
  end.
Ltac quiet_auto := repeat quiet_step.

Section Timeout.

Variable fault : nat → option Z.
Variable select_plan : nat → SelectCase * Z.
Variable Secret_String : Secret → string.
Variable device_apply : wgConfig → list wgPeer → list wgPeer.
Variable updateConfig : Z → peer → PeerConfig → peer.
Variable updateFromDevice : Z → peer → wgPeer → peer * bool.
Variable shouldChangeEndpoint : Z → peer → peer * option AddrPort.

Local Abbreviation Run := (Run fault select_plan Secret_String device_apply updateConfig
                           updateFromDevice shouldChangeEndpoint).
Local Abbreviation Run_loop := (Run_loop fault select_plan Secret_String device_apply updateConfig
                                     updateFromDevice shouldChangeEndpoint).
Local Abbreviation Run_tick := (Run_tick fault select_plan Secret_String device_apply updateConfig
                                     updateFromDevice shouldChangeEndpoint).
Local Abbreviation select_send := (select_send select_plan).
Local Abbreviation notifyWatchers := (notifyWatchers select_plan).
Local Abbreviation notify_or_log := (notify_or_log select_plan).
Local Abbreviation updatePeersFromDevice :=
  (updatePeersFromDevice fault select_plan Secret_String updateFromDevice).
Local Abbreviation changeWireGuardEndpoints :=
  (changeWireGuardEndpoints fault select_plan Secret_String device_apply updateConfig
                            shouldChangeEndpoint).
Local Abbreviation slow_select := (slow_select select_plan).
Local Abbreviation logs_slow := (logs_slow select_plan).

Lemma quiet_link_Attrs : quiet link_Attrs.
Proof. unfold link_Attrs. quiet_auto. Qed.
Lemma quiet_syscall {A} (body : Kernel → Kernel * (A + error)) : quiet (syscall fault body).
Proof. unfold syscall. quiet_auto. Qed.
Hint Resolve quiet_link_Attrs quiet_syscall : quiet.
Lemma quiet_wgctrl_New : quiet (wgctrl_New fault).
Proof. unfold wgctrl_New. quiet_auto. Qed.
Lemma quiet_wg_Device name : quiet (wg_Device fault name).
Proof. apply quiet_syscall. Qed.
Lemma quiet_wg_ConfigureDevice name cfg : quiet (wg_ConfigureDevice fault device_apply name cfg).
Proof. unfold wg_ConfigureDevice. quiet_auto. Qed.
Hint Resolve quiet_wgctrl_New quiet_wg_Device quiet_wg_ConfigureDevice : quiet.
Lemma quiet_peers_from_device devPeers : ∀ events,
  quiet (peers_from_device Secret_String updateFromDevice devPeers events).
Proof. induction devPeers; intros events; simpl; quiet_auto. Qed.
Lemma quiet_rotate_peers ps : ∀ cfgs events,
  quiet (rotate_peers updateConfig shouldChangeEndpoint ps cfgs events).
Proof. induction ps as [|[k p] ps IH]; intros cfgs events; simpl; quiet_auto. Qed.
Lemma quiet_log_changes cfgs : quiet (log_changes Secret_String cfgs).
Proof. induction cfgs; simpl; quiet_auto. Qed.
Lemma quiet_log_failure what err : quiet (log_failure what err).
Proof. unfold log_failure. quiet_auto. Qed.
Lemma quiet_close ch : quiet (close ch).
Proof. unfold close. quiet_auto. Qed.
Hint Resolve quiet_peers_from_device quiet_rotate_peers quiet_log_changes quiet_log_failure
  quiet_close : quiet.
Lemma quiet_close_all chans : quiet (close_all chans).
Proof. induction chans; simpl; quiet_auto. Qed.
Lemma quiet_clear_running : quiet clear_running.
Proof. unfold clear_running. quiet_auto. Qed.
Lemma quiet_Run_guard : quiet Run_guard.
Proof. unfold Run_guard. quiet_auto. Qed.
Hint Resolve quiet_close_all quiet_clear_running quiet_Run_guard : quiet.

(** One [select]. *)
Lemma select_send_window ch e s o s' :
  select_send ch e s = (o, s') →
  logs s' = logs s ∧
  match o with
  | Panic _ => selects s' = selects s
  | Ret r => selects s' = S (selects s) ∧
             (slow (select_plan (selects s)) ↔ r = Some (Some timeout_error))
  end.
Proof.
  unfold Network.select_send. cbv [bind get]. unfold slow.
  destruct (select_plan (selects s)) as [c d]. unfold notify_timeout. intros H.
  cbv [selected chan_send ret panic bind] in H. simpl.
  repeat (match type of H with context [match ?x with _ => _ end] => destruct x end);
    simplify_eq; simpl; (split; [done|]); try done;
    (split; [done|]); split; try done; try (intros [?|?]; (done || lia)); try (by left); try (right; lia).
Qed.

Lemma notify_events_window ch events : ∀ s o s',
  notify_events select_plan ch events s = (o, s') →
  logs s' = logs s ∧ selects s ≤ selects s' ∧
  ∀ n, selects s ≤ n < selects s' → slow (select_plan n) →
       o = Ret (Some (Some timeout_error)) ∧ S n = selects s'.
Proof.
  induction events as [|e events IH]; intros s o s' H; simpl in H.
  - injection H as <- <-. split_and!; [done | lia | lia].
  - unfold bind in H. destruct (select_send ch e s) as [[r|why] s1] eqn:Hsel;
      apply select_send_window in Hsel as [Hl Hsel].
    + destruct Hsel as [Hs Hslow]. destruct r as [x|].
      * injection H as <- <-. split_and!; [done | lia |].
        intros n Hn Hn'. assert (n = selects s) as -> by lia.
        apply Hslow in Hn' as [= ->]. done.
      * apply IH in H as (Hl' & Hs' & Hw). split_and!; [congruence | lia |].
        intros n Hn Hn'. apply Hw; [|done].
        destruct (decide (n = selects s)) as [->|]; [|lia].
        by apply Hslow in Hn'.
    + injection H as <- <-. split_and!; [done | lia | lia].
Qed.

Lemma notify_chans_window chans events : ∀ s o s',
  notify_chans select_plan chans events s = (o, s') →
  logs s' = logs s ∧ selects s ≤ selects s' ∧
  ∀ n, selects s ≤ n < selects s' → slow (select_plan n) →
       o = Ret (Some timeout_error) ∧ S n = selects s'.
Proof.
  induction chans as [|ch chans IH]; intros s o s' H; simpl in H.
  - injection H as <- <-. split_and!; [done | lia | lia].
  - unfold bind in H. destruct (notify_events select_plan ch events s) as [[r|why] s1] eqn:Hev;
      apply notify_events_window in Hev as (Hl & Hs & Hw).
    + destruct r as [x|].
      * injection H as <- <-. split_and!; [done | lia |].
        intros n Hn Hn'. by destruct (Hw n Hn Hn') as [[= ->] ?].
      * apply IH in H as (Hl' & Hs' & Hw'). split_and!; [congruence | lia |].
        intros n Hn Hn'. apply Hw'; [|done].
        destruct (decide (n < selects s1)) as [Hlt|]; [|lia].
        by destruct (Hw n ltac:(lia) Hn').
    + injection H as <- <-. split_and!; [done | lia |].
      intros n Hn Hn'. by destruct (Hw n Hn Hn').
Qed.

(** A publish in which a [select] finds its watcher slow: that [select] is
    its last, and the publish returns the timeout error. *)
Lemma notifyWatchers_window events s o s' :
  notifyWatchers events s = (o, s') →
  logs s' = logs s ∧ selects s ≤ selects s' ∧
  ∀ n, selects s ≤ n < selects s' → slow (select_plan n) →
       o = Ret (Some timeout_error) ∧ S n = selects s'.
Proof. unfold Network.notifyWatchers. cbv [bind get_net]. apply notify_chans_window. Qed.

Lemma notify_or_log_window events s o s' :
  notify_or_log events s = (o, s') →
  selects s ≤ selects s' ∧
  ∃ l, logs s' = logs s ++ l ∧
       (slow_select s s' → o = Ret tt ∧ l = [timeout_log]).
Proof.
  unfold Network.notify_or_log, bind.
  destruct (notifyWatchers events s) as [[r|why] s1] eqn:Hn;
    apply notifyWatchers_window in Hn as (Hl & Hs & Hw).
  - destruct r as [e|].
    + intros [= <- <-]. simpl. split; [done|].
      exists [mkLog Error notify_failed (Some e)]. rewrite Hl. split; [done|].
      intros (n & Hn & Hn'). by destruct (Hw n Hn Hn') as [[= ->] _].
    + intros [= <- <-]. split; [done|]. exists []. rewrite app_nil_r. split; [done|].
      intros (n & Hn & Hn'). by destruct (Hw n Hn Hn').
  - intros [= <- <-]. split; [done|]. exists []. rewrite app_nil_r. split; [done|].
    intros (n & Hn & Hn'). by destruct (Hw n Hn Hn').
Qed.

(** *** The log of a tick *)

Lemma logs_slow_quiet {A} (c : M A) : quiet c → logs_slow c.
Proof.
  intros Hc s o s' (Hs & l & Hl)%Hc. split; [lia|]. exists l. split; [done|].
  intros (n & Hn & _). lia.
Qed.

Lemma logs_slow_bind {A B} (c : M A) (k : A → M B) :
  logs_slow c → (∀ a, logs_slow (k a)) → logs_slow (bind c k).
Proof.
  intros Hc Hk s o s'. unfold bind.
  destruct (c s) as [[a|why] s1] eqn:E; apply Hc in E as (Hs & l & Hl & Hin).
  - intros (Hs' & l' & Hl' & Hin')%Hk. split; [lia|].
    exists (l ++ l'). split; [by rewrite Hl', Hl, <- app_assoc|].
    intros (n & Hn & Hslow). apply elem_of_app.
    destruct (decide (n < selects s1)).
    + left. apply Hin. exists n. split; [lia | done].
    + right. apply Hin'. exists n. split; [lia | done].
  - intros [= <- <-]. split; [done|]. by exists l.
Qed.

Lemma logs_slow_notify_or_log events : logs_slow (notify_or_log events).
Proof.
  intros s o s' (Hs & l & Hl & Hslow)%notify_or_log_window. split; [done|].
  exists l. split; [done|]. intros [_ ->]%Hslow. by apply list_elem_of_singleton.
Qed.

Hint Resolve logs_slow_notify_or_log : quiet.

Ltac slow_step :=
  lazymatch goal with
  | |- Network.logs_slow _ (bind _ _) => apply logs_slow_bind; [| intros ?]
  | |- Network.logs_slow _ (match ?x with _ => _ end) => destruct x
  | |- Network.logs_slow _ (let '(_, _) := ?x in _) => destruct x
  | |- Network.logs_slow _ _ => solve [eauto with quiet | apply logs_slow_quiet; eauto with quiet]
  end.
Ltac slow_auto := repeat slow_step.

Lemma logs_slow_updatePeersFromDevice : logs_slow updatePeersFromDevice.
Proof. unfold Network.updatePeersFromDevice. slow_auto. Qed.

Lemma logs_slow_changeWireGuardEndpoints : logs_slow changeWireGuardEndpoints.
Proof. unfold Network.changeWireGuardEndpoints. slow_auto. Qed.

Hint Resolve logs_slow_updatePeersFromDevice logs_slow_changeWireGuardEndpoints : quiet.

Lemma logs_slow_Run_tick t : logs_slow (Run_tick t).
Proof. unfold Network.Run_tick. slow_auto. Qed.
Hint Resolve logs_slow_Run_tick : quiet.

Lemma logs_slow_Run_loop events : logs_slow (Run_loop events).
Proof. induction events as [|[t|] events IH]; simpl; slow_auto. Qed.
Hint Resolve logs_slow_Run_loop : quiet.

Lemma logs_slow_Run events : logs_slow (Run events).
Proof. unfold Network.Run. slow_auto. Qed.

(** *** What the callers of the publish return *)

Lemma bind_quiet_slow {A B} (c : M A) (k : A → M B) s o s' :
  quiet c → bind c k s = (o, s') → slow_select s s' →
  ∃ a s1, k a s1 = (o, s') ∧ slow_select s1 s'.
Proof.
  intros Hc. unfold bind. destruct (c s) as [[a|why] s1] eqn:E; apply Hc in E as [Hs _].
  - intros H (n & Hn & Hslow). exists a, s1. split; [done|]. exists n. split; [lia | done].
  - intros [= <- <-] (n & Hn & _). lia.
Qed.

Lemma ret_not_slow {A} (a : A) s o s' : ret a s = (o, s') → ¬ slow_select s s'.
Proof. intros [= <- <-] (n & Hn & _). lia. Qed.

Lemma notify_or_log_slow {B} events (b : B) s o s' :
  (do notify_or_log events in ret b) s = (o, s') → slow_select s s' →
  o = Ret b ∧ ∃ s1, s' = logged timeout_log s1.
Proof.
  unfold bind at 1. unfold Network.notify_or_log, bind.
  destruct (notifyWatchers events s) as [[r|why] s1] eqn:Hn;
    apply notifyWatchers_window in Hn as (Hl & Hs & Hw).
  - destruct r as [e|]; intros [= <- <-] (n & Hn & Hslow); simpl in *.
    + destruct (Hw n Hn Hslow) as [[= ->] _]. split; [done|]. by exists s1.
    + by destruct (Hw n Hn Hslow).
  - intros [= <- <-] (n & Hn & Hslow). by destruct (Hw n Hn Hslow).
Qed.

Lemma updatePeersFromDevice_slow s o s' :
  updatePeersFromDevice s = (o, s') → slow_select s s' →
  o = Ret None ∧ ∃ s1, s' = logged timeout_log s1.
Proof.
  unfold Network.updatePeersFromDevice. intros H Hslow.
  apply bind_quiet_slow in H as (r & s1 & H & Hslow1); [|by auto with quiet|done].
  destruct r as [e|]; [by apply ret_not_slow in H|].
  apply bind_quiet_slow in H as (l & s2 & H & Hslow2); [|by auto with quiet|done].
  apply bind_quiet_slow in H as (r & s3 & H & Hslow3); [|by auto with quiet|done].
  destruct r as [devPeers|e]; [|by apply ret_not_slow in H].
  apply bind_quiet_slow in H as (events & s4 & H & Hslow4); [|by auto with quiet|done].
  destruct (decide (0 < length events)).
  - by apply notify_or_log_slow in H.
  - unfold bind in H. simpl in H. by apply ret_not_slow in H.
Qed.

Lemma changeWireGuardEndpoints_slow s o s' :
  changeWireGuardEndpoints s = (o, s') → slow_select s s' →
  o = Ret None ∧ ∃ s1, s' = logged timeout_log s1.
Proof.
  unfold Network.changeWireGuardEndpoints. intros H Hslow.
  apply bind_quiet_slow in H as (n & s1 & H & Hslow1); [|by auto with quiet|done].
  apply bind_quiet_slow in H as (r & s2 & H & Hslow2); [|by auto with quiet|done].
  destruct r as [[cfgs events]|e]; [|by apply ret_not_slow in H].
  destruct (decide _); [by apply ret_not_slow in H|].
  apply bind_quiet_slow in H as (r & s3 & H & Hslow3); [|by auto with quiet|done].
  destruct r as [e|]; [by apply ret_not_slow in H|].
  apply bind_quiet_slow in H as (l & s4 & H & Hslow4); [|by auto with quiet|done].
  apply bind_quiet_slow in H as (r & s5 & H & Hslow5); [|by auto with quiet|done].
  destruct r as [e|]; [by apply ret_not_slow in H|].
  apply bind_quiet_slow in H as (? & s6 & H & Hslow6); [|by auto with quiet|done].
  by apply notify_or_log_slow in H.
Qed.

(** *** A slow watcher at any place of the publish *)

Lemma notify_events_slow_at ch sent e more : ∀ s,
  ch ∉ chan_closed s →
  (∀ i, i < length sent → ready (select_plan (selects s + i))) →
  slow (select_plan (selects s + length sent)) →
  ∃ s', notify_events select_plan ch (sent ++ e :: more) s
          = (Ret (Some (Some timeout_error)), s') ∧
        selects s' = selects s + length sent + 1 ∧
        chan_sent s' = chan_sent s ++ (pair ch <$> sent) ∧
        publish_view s' = publish_view s.
Proof.
  induction sent as [|x sent IH]; intros s Hopen Hready Hslow; simpl in *.
  - rewrite Nat.add_0_r in Hslow. unfold bind.
    rewrite (select_send_slow select_plan) by done.
    eexists. split; [done|]. simpl. rewrite app_nil_r. split_and!; [lia | done | done].
  - destruct (select_send_ready select_plan ch x s Hopen) as [s1 Hsel].
    { specialize (Hready 0 ltac:(lia)). by rewrite Nat.add_0_r in Hready. }
    unfold bind. rewrite Hsel.
    apply select_send_step in Hsel as [Hv [Hsent Hsel]].
    destruct (IH s1) as (s' & H & Hn & Hs & Hv').
    + injection Hv as _ _ _ -> _. done.
    + intros i Hi. rewrite Hsel. specialize (Hready (S i) ltac:(lia)).
      by replace (S (selects s) + i) with (selects s + S i) by lia.
    + rewrite Hsel. by replace (S (selects s) + length sent) with (selects s + S (length sent)) by lia.
    + exists s'. split_and!; [done | lia | | congruence].
      by rewrite Hs, Hsent, <- app_assoc.
Qed.

Lemma notify_chans_slow_at done ch rest sent e more : ∀ s,
  (∀ c, c ∈ done ++ [ch] → c ∉ chan_closed s) →
  (∀ i, i < length done * length (sent ++ e :: more) + length sent →
        ready (select_plan (selects s + i))) →
  slow (select_plan (selects s + (length done * length (sent ++ e :: more) + length sent))) →
  ∃ s', notify_chans select_plan (done ++ ch :: rest) (sent ++ e :: more) s
          = (Ret (Some timeout_error), s') ∧
        selects s' = selects s + (length done * length (sent ++ e :: more) + length sent) + 1 ∧
        chan_sent s' = chan_sent s ++ deliveries done (sent ++ e :: more) ++ (pair ch <$> sent) ∧
        publish_view s' = publish_view s.
Proof.
  induction done as [|c done IH]; intros s Hopen Hready Hslow.
  - cbn [app notify_chans length Nat.mul Nat.add] in *.
    destruct (notify_events_slow_at ch sent e more s) as (s' & H & Hn & Hs & Hv); auto.
    { apply Hopen. by left. }
    unfold bind. rewrite H. exists s'. by split_and!.
  - cbn [app notify_chans length] in *.
    set (events := sent ++ e :: more) in *.
    destruct (notify_events_ready select_plan c events s) as (s1 & Hev & Hn1 & Hs1).
    { apply Hopen. by left. }
    { intros i Hi. apply Hready. simpl. lia. }
    unfold bind. rewrite Hev.
    apply notify_events_prefix in Hev as (Hv & _).
    destruct (IH s1) as (s' & H & Hn & Hs & Hv').
    + injection Hv as _ _ _ -> _. intros x Hx. apply Hopen. by right.
    + intros i Hi. rewrite Hn1, <- Nat.add_assoc. apply Hready. simpl. lia.
    + rewrite Hn1, <- Nat.add_assoc.
      by replace (length events + (length done * length events + length sent))
        with (S (length done) * length events + length sent) by (simpl; lia).
    + exists s'. split_and!; [done | simpl in *; lia | | congruence].
      rewrite Hs, Hs1, <- app_assoc. f_equal.
      unfold deliveries. rewrite bind_cons. by rewrite <- app_assoc.
Qed.

Lemma notifyWatchers_slow_at done ch rest sent e more s :
  watchers (net s) = done ++ ch :: rest →
  (∀ c, c ∈ done ++ [ch] → c ∉ chan_closed s) →
  (∀ i, i < length done * length (sent ++ e :: more) + length sent →
        ready (select_plan (selects s + i))) →
  slow (select_plan (selects s + (length done * length (sent ++ e :: more) + length sent))) →
  ∃ s', notifyWatchers (sent ++ e :: more) s = (Ret (Some timeout_error), s') ∧
        selects s' = selects s + (length done * length (sent ++ e :: more) + length sent) + 1 ∧
        chan_sent s' = chan_sent s ++ deliveries done (sent ++ e :: more) ++ (pair ch <$> sent) ∧
        publish_view s' = publish_view s.
Proof.
  intros Hw. unfold Network.notifyWatchers. cbv [bind get_net]. rewrite Hw.
  apply notify_chans_slow_at.
Qed.

(** C8. Every [select] of [notifyWatchers] takes at most the timeout of one
    second. A send to a slow watcher ends in the timeout error, wherever in
    the publish it comes: the watchers before have received every event,
    this one those before, and the publish aborts there with that error.
    Whatever else a publish meets, a [select] that finds its watcher slow is
    its last, and makes it return the timeout error; any error of
    [notifyWatchers] is that timeout. [updatePeersFromDevice] and
    [changeWireGuardEndpoints], when a [select] of theirs finds a watcher
    slow, log the error and return nil, so that the tick goes on; the log of
    a tick, and of a whole [Run], has the record of it. Neither function
    returns the timeout, the loop of [Run] returns no error at all, and no
    error of [Run] is the timeout. *)
Theorem notifyWatchers_timeout :
  (∀ ch e s r s', select_send ch e s = (r, s') →
     (now s ≤ now s' ≤ now s + notify_timeout)%Z) ∧
  (∀ ch e s, ch ∉ chan_closed s → slow (select_plan (selects s)) →
     select_send ch e s = (Ret (Some (Some timeout_error)), after_select notify_timeout s)) ∧
  (∀ ch chans e events s,
     watchers (net s) = ch :: chans → ch ∉ chan_closed s → slow (select_plan (selects s)) →
     notifyWatchers (e :: events) s
       = (Ret (Some timeout_error), after_select notify_timeout s)) ∧
  (∀ done ch rest sent e more s,
     watchers (net s) = done ++ ch :: rest →
     (∀ c, c ∈ done ++ [ch] → c ∉ chan_closed s) →
     (∀ i, i < length done * length (sent ++ e :: more) + length sent →
           ready (select_plan (selects s + i))) →
     slow (select_plan (selects s + (length done * length (sent ++ e :: more) + length sent))) →
     ∃ s', notifyWatchers (sent ++ e :: more) s = (Ret (Some timeout_error), s') ∧
           selects s' = selects s + (length done * length (sent ++ e :: more) + length sent) + 1 ∧
           chan_sent s' = chan_sent s ++ deliveries done (sent ++ e :: more)
                                      ++ (pair ch <$> sent) ∧
           publish_view s' = publish_view s) ∧
  (∀ events s o s', notifyWatchers events s = (o, s') →
     ∀ n, selects s ≤ n < selects s' → slow (select_plan n) →
          o = Ret (Some timeout_error) ∧ S n = selects s') ∧
  (∀ events s err s', notifyWatchers events s = (Ret (Some err), s') →
     err = timeout_error ∧
     notify_or_log events s = (Ret tt, logged (mkLog Error notify_failed (Some err)) s')) ∧
  (∀ s o s', updatePeersFromDevice s = (o, s') → slow_select s s' →
     o = Ret None ∧ ∃ s1, s' = logged timeout_log s1) ∧
  (∀ s o s', changeWireGuardEndpoints s = (o, s') → slow_select s s' →
     o = Ret None ∧ ∃ s1, s' = logged timeout_log s1) ∧
  (∀ t s o s', Run_tick t s = (o, s') → slow_select s s' →
     ∃ l, logs s' = logs s ++ l ∧ timeout_log ∈ l) ∧
  (∀ events s o s', Run events s = (o, s') → slow_select s s' →
     ∃ l, logs s' = logs s ++ l ∧ timeout_log ∈ l) ∧
  (∀ s e s', updatePeersFromDevice s = (Ret (Some e), s') → is_timeout e = false) ∧
  (∀ s e s', changeWireGuardEndpoints s = (Ret (Some e), s') → is_timeout e = false) ∧
  (∀ events s err s', Run_loop events s = (Ret (Returned err), s') → err = None) ∧
  (∀ events s e s', Run events s = (Ret (Returned (Some e)), s') → is_timeout e = false).
Proof.
  split_and!.
  - intros ch e s r s' H. by apply select_send_cases in H as [? _].
  - apply select_send_slow.
  - apply notifyWatchers_slow.
  - apply notifyWatchers_slow_at.
  - intros events s o s' H. by apply notifyWatchers_window in H as (_ & _ & ?).
  - intros events s err s' H. split; [by eapply notifyWatchers_errors|].
    by apply notify_or_log_logs.
  - apply updatePeersFromDevice_slow.
  - apply changeWireGuardEndpoints_slow.
  - intros t s o s' H Hslow. apply logs_slow_Run_tick in H as (_ & l & Hl & Hin). eauto.
  - intros events s o s' H Hslow. apply logs_slow_Run in H as (_ & l & Hl & Hin). eauto.
  - apply updatePeersFromDevice_error.
  - apply changeWireGuardEndpoints_error.
  - apply Run_loop_no_error.
  - intros events s e s' [[x ->]| ->]%Run_errors; done.
Qed.

End Timeout.


Lemma notifyWatchers_timeout_witness :
  slow_select slow_plan roaming_state (sample_update slow_plan roaming_state).2 ∧
  (sample_update slow_plan roaming_state).1 = Ret None ∧
  ∃ s1, (sample_update slow_plan roaming_state).2 = logged timeout_log s1.
Proof.
  assert (Es : selects roaming_state = 0) by (by vm_compute).
  assert (Es' : selects (sample_update slow_plan roaming_state).2 = 1) by (by vm_compute).
  assert (Hslow : slow_select slow_plan roaming_state (sample_update slow_plan roaming_state).2).
  { exists 0. rewrite Es, Es'. split; [lia|]. right. unfold slow_plan, notify_timeout. simpl. lia. }
  split; [exact Hslow|].
  exact (proj1 (proj2 (proj2 (proj2 (proj2 (proj2 (proj2
           (notifyWatchers_timeout no_fault slow_plan sample_Secret_String
              sample_device_apply sample_updateConfig sample_updateFromDevice
              sample_shouldChangeEndpoint)))))))
           roaming_state _ _ (surjective_pairing _) Hslow).
Defined.

(** The first watcher is ready and the second is slow: the first has the
    event, and the publish ends in the timeout at its second [select]. *)
Example second_watcher_slow :
  let r := notifyWatchers second_slow_plan [m2_roamed] configured_state in
  r.1 = Ret (Some timeout_error) ∧ chan_sent r.2 = [(0, m2_roamed)] ∧
  selects r.2 = selects configured_state + 2.
Proof. by vm_compute. Qed.


Lemma notifyWatchers_prefix_witness :
  publish_view (notifyWatchers slow_plan [m2_roamed] roaming_state).2
    = publish_view roaming_state ∧
  ∃ n, chan_sent (notifyWatchers slow_plan [m2_roamed] roaming_state).2
       = chan_sent roaming_state ++
         take n (deliveries (watchers (net roaming_state)) [m2_roamed]).
Proof.
  apply (notifyWatchers_prefix slow_plan [m2_roamed] roaming_state _
           (notifyWatchers slow_plan [m2_roamed] roaming_state).1).
  by destruct (notifyWatchers slow_plan [m2_roamed] roaming_state).
Defined.

Lemma roaming_watchers : watchers (net roaming_state) = [0; 1].
Proof. by vm_compute. Qed.
Lemma roaming_closed : chan_closed roaming_state = [].
Proof. by vm_compute. Qed.

Lemma notifyWatchers_all_ready_witness :
  ∃ s', notifyWatchers ready_plan [m2_roamed] roaming_state = (Ret None, s') ∧
        chan_sent s' = chan_sent roaming_state ++
                       deliveries (watchers (net roaming_state)) [m2_roamed] ∧
        selects s' = selects roaming_state + length (watchers (net roaming_state)) * 1 ∧
        publish_view s' = publish_view roaming_state.
Proof.
  apply (notifyWatchers_all_ready ready_plan [m2_roamed] roaming_state).
  - intros ch _. rewrite roaming_closed. apply not_elem_of_nil.
  - intros i _. split; [reflexivity|]. unfold ready_plan, notify_timeout. simpl. lia.
Defined.

(** *** The rotation of endpoints, and the keys of the peers map *)

Section Rotation.

Variable fault : nat → option Z.
Variable select_plan : nat → SelectCase * Z.
Variable Secret_String : Secret → string.
Variable device_apply : wgConfig → list wgPeer → list wgPeer.
Variable updateConfig : Z → peer → PeerConfig → peer.
Variable updateFromDevice : Z → peer → wgPeer → peer * bool.
Variable shouldChangeEndpoint : Z → peer → peer * option AddrPort.

Local Abbreviation Run := (Run fault select_plan Secret_String device_apply updateConfig
                           updateFromDevice shouldChangeEndpoint).
Local Abbreviation Run_loop := (Run_loop fault select_plan Secret_String device_apply updateConfig
                                     updateFromDevice shouldChangeEndpoint).
Local Abbreviation Run_tick := (Run_tick fault select_plan Secret_String device_apply updateConfig
                                     updateFromDevice shouldChangeEndpoint).
Local Abbreviation rotate_peers := (rotate_peers updateConfig shouldChangeEndpoint).
Local Abbreviation changeWireGuardEndpoints :=
  (changeWireGuardEndpoints fault select_plan Secret_String device_apply updateConfig
                            shouldChangeEndpoint).
Local Abbreviation updatePeersFromDevice :=
  (updatePeersFromDevice fault select_plan Secret_String updateFromDevice).

(** *** The keys of the peers map *)

Lemma keys_put_kernel k : keeps peer_keys (put_kernel k).
Proof. keeps_prim. Qed.
Lemma keys_slog l m e : keeps peer_keys (slog l m e).
Proof. keeps_prim. Qed.
Lemma keys_selected d : keeps peer_keys (selected d).
Proof. keeps_prim. Qed.
Lemma keys_clock_at t : keeps peer_keys (clock_at t).
Proof. keeps_prim. Qed.
Lemma keys_chan_send ch e : keeps peer_keys (chan_send ch e).
Proof. keeps_prim. Qed.
Lemma keys_put_chans n c x : keeps peer_keys (put_chans n c x).
Proof. keeps_prim. Qed.
Lemma keys_clear_running : keeps peer_keys clear_running.
Proof. intros s r s' H. cbv [clear_running bind get_net put_net] in H. by simplify_eq. Qed.

Hint Resolve keys_put_kernel keys_slog keys_selected keys_clock_at keys_chan_send
  keys_put_chans keys_clear_running : keeps.

Lemma keys_syscall {A} (body : Kernel → Kernel * (A + error)) :
  keeps peer_keys (syscall fault body).
Proof. unfold syscall. keeps_auto. Qed.
Hint Resolve keys_syscall : keeps.

Lemma keys_wgctrl_New : keeps peer_keys (wgctrl_New fault).
Proof. unfold wgctrl_New. keeps_auto. Qed.
Lemma keys_wg_Device name : keeps peer_keys (wg_Device fault name).
Proof. apply keys_syscall. Qed.
Lemma keys_wg_ConfigureDevice name cfg :
  keeps peer_keys (wg_ConfigureDevice fault device_apply name cfg).
Proof. unfold wg_ConfigureDevice. keeps_auto. Qed.
Hint Resolve keys_wgctrl_New keys_wg_Device keys_wg_ConfigureDevice : keeps.

Lemma keys_notify_or_log events : keeps peer_keys (notify_or_log select_plan events).
Proof.
  unfold notify_or_log. apply keeps_bind; [|intros ?; keeps_auto].
  intros s r s' H. unfold notifyWatchers in H. cbv [bind get_net] in H.
  apply notify_chans_prefix in H as [Hv _]. unfold peer_keys.
  by injection Hv as -> _ _ _ _.
Qed.
Hint Resolve keys_notify_or_log : keeps.

Lemma keys_log_changes cfgs : keeps peer_keys (log_changes Secret_String cfgs).
Proof. induction cfgs; simpl; keeps_auto. Qed.
Lemma keys_log_failure what err : keeps peer_keys (log_failure what err).
Proof. unfold log_failure. keeps_auto. Qed.
Lemma keys_close ch : keeps peer_keys (close ch).
Proof. unfold close. keeps_auto. Qed.
Hint Resolve keys_log_changes keys_log_failure keys_close : keeps.

Lemma keys_close_all chans : keeps peer_keys (close_all chans).
Proof. induction chans; simpl; keeps_auto. Qed.
Hint Resolve keys_close_all : keeps.

(** Storing a peer under a key of the map keeps the keys. *)
Lemma store_peer_keys k p s r s' :
  (∀ m, peers (net s) = Some m → is_Some (m !! k)) →
  store_peer k p s = (r, s') → peer_keys s' = peer_keys s.
Proof.
  intros Hk H. cbv [store_peer bind get_net put_net] in H. injection H as <- <-.
  unfold peer_keys. simpl. destruct (peers (net s)) as [m|]; [|done]. simpl.
  f_equal. apply dom_insert_lookup_L. by apply Hk.
Qed.

Lemma keys_peers_from_device devPeers : ∀ events,
  keeps peer_keys (peers_from_device Secret_String updateFromDevice devPeers events).
Proof.
  induction devPeers as [|wgp rest IH]; intros events s r s' H; simpl in H.
  - by injection H as <- <-.
  - cbv [bind get] in H.
    destruct (peers (net s) ≫= _) as [p|] eqn:Hp.
    + destruct (updateFromDevice (now s) p wgp) as [p' changed].
      destruct (store_peer _ p' s) as [[[]|why] s1] eqn:Hst.
      * apply store_peer_keys in Hst.
        2:{ intros m Hm. rewrite Hm in Hp. simpl in Hp. eauto. }
        rewrite <- Hst. destruct changed; [|by eapply IH].
        destruct (Endpoint (config p')); [by eapply IH|]. by injection H as <- <-.
      * cbv [store_peer bind get_net put_net] in Hst. discriminate Hst.
    + cbv [slog] in H. by apply IH in H.
Qed.

Lemma keys_updatePeersFromDevice : keeps peer_keys updatePeersFromDevice.
Proof.
  unfold Network.updatePeersFromDevice. keeps_auto. apply keys_peers_from_device.
Qed.

Lemma store_peer_eq k p s :
  store_peer k p s
    = (Ret tt, mkState (set_peers ((λ m, <[k := p]> m) <$> peers (net s)) (net s)) (kernel s)
                       (chan_next s) (chan_closed s) (chan_sent s) (selects s) (now s)
                       (logs s)).
Proof. done. Qed.



Lemma stored_pres K k q s :
  k ∈ K → has_keys K s →
  peer_keys (stored k q s) = peer_keys s ∧
  outside_peers (stored k q s) = outside_peers s ∧
  has_keys K (stored k q s).
Proof.
  intros Hk HK. split_and!; [| done |].
  - eapply (store_peer_keys k q s); [|apply store_peer_eq]. intros m Hm. by eapply HK.
  - intros k' m Hk'. simpl. destruct (peers (net s)) as [m0|] eqn:Hm0; [|done].
    intros [= <-]. apply lookup_insert_is_Some'. right. by eapply HK.
Qed.

Lemma has_keys_tail k K s : has_keys (k :: K) s → has_keys K s.
Proof. intros H k' m Hk'. apply H. by right. Qed.

(** The loop over a list of entries of the map keeps the keys and all but
    the entries; the patch and the events grow together. *)
Lemma rotate_peers_inv ps : ∀ cfgs events s r s',
  has_keys ps.*1 s →
  rotate_peers ps cfgs events s = (r, s') →
  peer_keys s' = peer_keys s ∧ outside_peers s' = outside_peers s ∧
  ∀ cfgs' events', r = Ret (inl (cfgs', events')) →
    ∃ cs es, cfgs' = cfgs ++ cs ∧ events' = events ++ es ∧ Forall2 patch_event cs es ∧
             ((∀ kp, kp ∈ ps → (shouldChangeEndpoint (now s) kp.2).2 = None) → cs = []).
Proof.
  induction ps as [|[k p] ps IH]; intros cfgs events s r s' HK H; simpl in H.
  - injection H as <- <-. split_and!; [done | done |].
    intros cfgs' events' [= <- <-]. exists [], []. by rewrite !app_nil_r.
  - cbv [bind get] in H. rewrite fmap_cons in HK. cbn [fst] in HK.
    assert (Hk : k ∈ k :: ps.*1) by (by left).
    destruct (shouldChangeEndpoint (now s) p) as [p1 [ep|]] eqn:Hshould.
    + rewrite store_peer_eq in H. fold (stored k p1 s) in H.
      destruct (stored_pres _ k p1 s Hk HK) as (Hk1 & Ho1 & HK1).
      match type of H with context [store_peer k ?q _] =>
        rewrite (store_peer_eq k q (stored k p1 s)) in H;
        fold (stored k q (stored k p1 s)) in H;
        destruct (stored_pres _ k q (stored k p1 s) Hk HK1) as (Hk2 & Ho2 & HK2);
        set (p2 := q) in *
      end.
      set (s2 := stored k p2 (stored k p1 s)) in *.
      assert (Hks : peer_keys s2 = peer_keys s) by congruence.
      assert (Hos : outside_peers s2 = outside_peers s) by congruence.
      unfold NewKey in H. destruct (decide (String.length _ = 32)) as [Hlen|_].
      * destruct (Endpoint (config p2)) as [ep'|] eqn:Hep.
        -- apply IH in H as (Hk' & Ho' & Hres); [|by eapply has_keys_tail].
           split_and!; [congruence | congruence |].
           intros cfgs' events' Hr. destruct (Hres _ _ Hr) as (cs & es & -> & -> & HF & _).
           eexists (_ :: cs), (_ :: es). rewrite <- !app_assoc. split_and!; [done | done | |].
           ++ apply Forall2_cons. split; [|done]. by split_and!.
           ++ intros Hq. specialize (Hq (k, p) ltac:(by left)). simpl in Hq.
              rewrite Hshould in Hq. discriminate Hq.
        -- injection H as <- <-. split_and!; [done | done |]. intros ? ? [=].
      * injection H as <- <-. split_and!; [done | done |]. intros ? ? [=].
    + rewrite store_peer_eq in H. fold (stored k p1 s) in H.
      destruct (stored_pres _ k p1 s Hk HK) as (Hk1 & Ho1 & HK1).
      apply IH in H as (Hk' & Ho' & Hres); [|by eapply has_keys_tail].
      split_and!; [congruence | congruence |].
      intros cfgs' events' Hr. destruct (Hres _ _ Hr) as (cs & es & -> & -> & HF & Hq).
      exists cs, es. split_and!; [done | done | done |].
      intros Hall. apply Hq. intros kp Hkp.
      replace (now (stored k p1 s)) with (now s) by done. apply Hall. by right.
Qed.

Lemma rotate_peers_quiet ps : ∀ cfgs events s,
  (∀ kp, kp ∈ ps → (shouldChangeEndpoint (now s) kp.2).2 = None) →
  ∃ s', rotate_peers ps cfgs events s = (Ret (inl (cfgs, events)), s').
Proof.
  induction ps as [|[k p] ps IH]; intros cfgs events s Hq; simpl; [by eexists|].
  cbv [bind get]. pose proof (Hq (k, p) ltac:(by left)) as Hp. simpl in Hp.
  destruct (shouldChangeEndpoint (now s) p) as [p1 r]. simpl in Hp. subst r.
  rewrite store_peer_eq. apply IH. intros kp Hkp. simpl. apply Hq. by right.
Qed.

Lemma peers_list_keys s : has_keys (peers_list (net s)).*1 s.
Proof.
  intros k m Hk Hm. unfold peers_list in Hk. rewrite Hm in Hk.
  apply list_elem_of_fmap in Hk as ([k' p] & -> & Hin).
  apply elem_of_map_to_list in Hin. eauto.
Qed.

(** X17. When no peer asks for another endpoint, [changeWireGuardEndpoints]
    returns nil without a request to the kernel, a log record or a send to a
    watcher; of the whole state only entries of the peers map may have
    changed, and not its keys. *)
Theorem changeWireGuardEndpoints_quiet (s : State) :
  (∀ kp, kp ∈ peers_list (net s) → (shouldChangeEndpoint (now s) kp.2).2 = None) →
  ∃ s', changeWireGuardEndpoints s = (Ret None, s') ∧
        outside_peers s' = outside_peers s ∧ peer_keys s' = peer_keys s.
Proof.
  intros Hq. unfold Network.changeWireGuardEndpoints. cbv [bind get_net].
  destruct (rotate_peers_quiet _ [] [] s Hq) as [s' Hrot]. rewrite Hrot. simpl.
  exists s'. split; [done|].
  by apply rotate_peers_inv in Hrot as (? & ? & _); [|apply peers_list_keys].
Qed.


Lemma wire_slog l m e : keeps wire_view (slog l m e).
Proof. keeps_prim. Qed.
Hint Resolve wire_slog : keeps.
Lemma wire_log_changes cfgs : keeps wire_view (log_changes Secret_String cfgs).
Proof. induction cfgs; simpl; keeps_auto. Qed.

Lemma wg_ConfigureDevice_spec name cfg s r s' :
  wg_ConfigureDevice fault device_apply name cfg s = (r, s') →
  chan_sent s' = chan_sent s ∧ net s' = net s ∧
  (k_peers (kernel s') = k_peers (kernel s) ∧ r ≠ Ret None ∨
   k_peers (kernel s') = device_apply cfg (k_peers (kernel s)) ∧ r = Ret None).
Proof.
  unfold wg_ConfigureDevice, syscall. cbv [bind get_kernel put_kernel ret].
  destruct (fault _).
  { intros [= <- <-]. simpl. split_and!; auto. }
  simpl. destruct (k_link (kernel s)) as [l|]; [destruct (decide _)|];
    intros [= <- <-]; simpl; split_and!; auto.
Qed.

Lemma changeWireGuardEndpoints_inv (s s' : State) (r : outcome (option error)) :
  changeWireGuardEndpoints s = (r, s') →
  peer_keys s' = peer_keys s ∧
  ((k_peers (kernel s') = k_peers (kernel s) ∧ chan_sent s' = chan_sent s) ∨
   ∃ cfgs events n,
     cfgs ≠ [] ∧ Forall2 patch_event cfgs events ∧
     k_peers (kernel s') = device_apply (mkWgConfig false cfgs) (k_peers (kernel s)) ∧
     chan_sent s' = chan_sent s ++ take n (deliveries (watchers (net s)) events)).
Proof.
  intros H. unfold Network.changeWireGuardEndpoints in H. cbv [bind get_net] in H.
  destruct (rotate_peers _ _ _ s) as [o s1] eqn:Hrot.
  apply rotate_peers_inv in Hrot as (Hk1 & Ho1 & Hres); [|apply peers_list_keys].
  assert (Hw1 : wire_view s1 = wire_view s ∧ watchers (net s1) = watchers (net s)).
  { unfold wire_view. injection Ho1 as _ Hw _ -> _ _ -> _ _ _. by rewrite Hw. }
  destruct Hw1 as [Hw1 Hwatch]. unfold wire_view in Hw1. injection Hw1 as Hkp1 Hcs1.
  destruct o as [[[cfgs events]|e]|why].
  2:{ injection H as <- <-. split; [done|]. by left. }
  2:{ injection H as <- <-. split; [done|]. by left. }
  destruct (Hres _ _ eq_refl) as (cs & es & -> & -> & HF & _). simpl in *.
  destruct (decide (length cs = 0)) as [|Hne].
  { injection H as <- <-. split; [done|]. by left. }
  rewrite wgctrl_New_eq in H.
  destruct (fault _); simpl in H.
  { injection H as <- <-. split; [done|]. by left. }
  cbv [link_Attrs bind get_net] in H. simpl in H.
  destruct (link (net s1)) as [l|]; cbv [ret panic] in H.
  2:{ injection H as <- <-. split; [done|]. by left. }
  destruct (wg_ConfigureDevice _ _ _ _ _) as [oc s2] eqn:Hcfg.
  pose proof (keys_wg_ConfigureDevice _ _ _ _ _ Hcfg) as Hk2.
  apply wg_ConfigureDevice_spec in Hcfg as (Hcs2 & Hn2 & Hcfg).
  unfold served, peer_keys in Hcs2, Hn2, Hcfg, Hk2. simpl in Hcs2, Hn2, Hcfg, Hk2.
  fold (peer_keys s1) in Hk2. fold (peer_keys s2) in Hk2.
  destruct Hcfg as [[Hkp2 Hfail]|[Hkp2 ->]].
  { split.
    - destruct oc as [[e|]|why]; [| done |]; injection H as <- <-; by rewrite Hk2.
    - left. destruct oc as [[e|]|why]; [| done |]; injection H as <- <-;
        simpl in *; split; congruence. }
  simpl in *.
  destruct (log_changes _ _ _) as [ol s3] eqn:Hlog.
  pose proof (keys_log_changes _ _ _ _ Hlog) as Hk3.
  apply wire_log_changes in Hlog as Hw3. unfold wire_view in Hw3. injection Hw3 as Hkp3 Hcs3.
  assert (Hn3 : watchers (net s3) = watchers (net s)).
  { eapply (keeps_log_changes Secret_String loop_view loop_view_tick) in Hlog.
    unfold loop_view in Hlog. injection Hlog as -> _ _ _ _. by rewrite Hn2. }
  assert (Hdev : k_peers (kernel s3) = device_apply (mkWgConfig false cs) (k_peers (kernel s)))
    by congruence.
  assert (Hsent : chan_sent s3 = chan_sent s) by congruence.
  assert (Hkeys : peer_keys s3 = peer_keys s) by congruence.
  assert (Hcs : cs ≠ []) by (by destruct cs).
  destruct ol as [[]|why].
  2:{ injection H as <- <-. split; [done|]. right. exists cs, es, 0.
      rewrite app_nil_r. by split_and!. }
  destruct (notify_or_log _ _ _) as [on s4] eqn:Hnot.
  pose proof (keys_notify_or_log _ _ _ _ Hnot) as Hk4.
  assert (Hpub : kernel s4 = kernel s3 ∧
                 ∃ n, chan_sent s4 = chan_sent s3 ++ take n (deliveries (watchers (net s3)) es)).
  { unfold notify_or_log, bind in Hnot.
    destruct (notifyWatchers _ _ _) as [ow s5] eqn:Hnw.
    unfold notifyWatchers in Hnw. cbv [bind get_net] in Hnw.
    apply notify_chans_prefix in Hnw as (Hv & n & Hs). injection Hv as _ Hker _ _ _.
    destruct ow as [[e|]|why]; cbv [slog ret] in Hnot; injection Hnot as _ <-; simpl; eauto. }
  destruct Hpub as (Hker & n & Hs4).
  assert (s' = s4) as -> by (destruct on; by injection H as _ <-).
  split; [congruence|]. right. exists cs, es, n. split_and!; [done | done | congruence |].
  by rewrite Hs4, Hsent, Hn3.
Qed.

(** X18. Whatever [changeWireGuardEndpoints] returns: either the peers of
    the device and the events received by the watchers are as before; or the
    device has applied a patch that leaves the peer list in place and whose
    entries, at least one, each update an existing peer only, remove none,
    and carry a key of 32 bytes and the new endpoint, and the events
    received since are a prefix of the deliveries of the events made with
    the entries, one per entry with its key and endpoint. So no watcher
    hears of an endpoint that was not applied to the device. *)
Theorem changeWireGuardEndpoints_patch (s s' : State) (r : outcome (option error)) :
  changeWireGuardEndpoints s = (r, s') →
  (k_peers (kernel s') = k_peers (kernel s) ∧ chan_sent s' = chan_sent s) ∨
  ∃ cfgs events n,
    cfgs ≠ [] ∧ Forall2 patch_event cfgs events ∧
    k_peers (kernel s') = device_apply (mkWgConfig false cfgs) (k_peers (kernel s)) ∧
    chan_sent s' = chan_sent s ++ take n (deliveries (watchers (net s)) events).
Proof. by intros [_ H]%changeWireGuardEndpoints_inv. Qed.

Lemma keys_changeWireGuardEndpoints : keeps peer_keys changeWireGuardEndpoints.
Proof. intros s r s' H. by apply changeWireGuardEndpoints_inv in H as [? _]. Qed.

Hint Resolve keys_updatePeersFromDevice keys_changeWireGuardEndpoints : keeps.

Lemma keys_Run_tick t : keeps peer_keys (Run_tick t).
Proof. unfold Network.Run_tick. keeps_auto. Qed.

Lemma keys_Run_loop events : keeps peer_keys (Run_loop events).
Proof.
  induction events as [|[t|] events IH]; simpl.
  - keeps_auto.
  - apply keeps_bind; [apply keys_Run_tick | done].
  - keeps_auto.
Qed.

(** X19. [Run], whatever its [select] receives and however it ends, leaves
    the keys of the peers map as they were, and a nil map nil: the control
    loop neither adds nor removes a peer. *)
Theorem Run_keeps_peer_keys (events : list RunEvent) (s s' : State) (r : outcome RunResult) :
  Run events s = (r, s') → peer_keys s' = peer_keys s.
Proof.
  unfold Network.Run, bind. rewrite wgctrl_New_eq.
  destruct (fault _); simpl; [by intros [= <- <-]|].
  rewrite Run_guard_eq. simpl. destruct (running (net s)); simpl; [by intros [= <- <-]|].
  intros H. by apply keys_Run_loop in H.
Qed.

End Rotation.



Lemma changeWireGuardEndpoints_quiet_witness :
  ∃ s', sample_change sample_shouldChangeEndpoint configured_state = (Ret None, s') ∧
        outside_peers s' = outside_peers configured_state ∧
        peer_keys s' = peer_keys configured_state.
Proof.
  apply (changeWireGuardEndpoints_quiet no_fault ready_plan sample_Secret_String
           sample_device_apply sample_updateConfig sample_shouldChangeEndpoint
           configured_state).
  intros kp _. reflexivity.
Defined.


Lemma changeWireGuardEndpoints_patch_witness :
  (k_peers (kernel (sample_change rotating_shouldChangeEndpoint silent_state).2)
     = k_peers (kernel silent_state) ∧
   chan_sent (sample_change rotating_shouldChangeEndpoint silent_state).2
     = chan_sent silent_state) ∨
  ∃ cfgs events n,
    cfgs ≠ [] ∧ Forall2 patch_event cfgs events ∧
    k_peers (kernel (sample_change rotating_shouldChangeEndpoint silent_state).2)
      = sample_device_apply (mkWgConfig false cfgs) (k_peers (kernel silent_state)) ∧
    chan_sent (sample_change rotating_shouldChangeEndpoint silent_state).2
      = chan_sent silent_state ++ take n (deliveries (watchers (net silent_state)) events).
Proof.
  apply (changeWireGuardEndpoints_patch no_fault ready_plan sample_Secret_String
           sample_device_apply sample_updateConfig rotating_shouldChangeEndpoint
           silent_state _ (sample_change rotating_shouldChangeEndpoint silent_state).1).
  by destruct (sample_change rotating_shouldChangeEndpoint silent_state).
Defined.

Example silent_state_rotates :
  chan_sent (sample_change rotating_shouldChangeEndpoint silent_state).2
    = [(0, m2_roamed); (1, m2_roamed)] ∧
  k_peers (kernel (sample_change rotating_shouldChangeEndpoint silent_state).2)
    = [mkWgPeer m2_key (Some m2_lan_endpoint) 0].
Proof. by vm_compute. Qed.

Lemma Run_keeps_peer_keys_witness :
  peer_keys (sample_Run ready_plan (TickerC <$> [1000; 2000]%Z) configured_state).2
    = peer_keys configured_state.
Proof.
  exact (Run_keeps_peer_keys no_fault ready_plan sample_Secret_String sample_device_apply
           sample_updateConfig sample_updateFromDevice sample_shouldChangeEndpoint
           _ _ _ _ two_ticks_run).
Defined.

(** *** [Cleanup] and [Configure] as wholes *)

Section Whole.

Variable fault : nat → option Z.
Variable addr_clash : IPNet → list IPNet → bool.
Variable addr_left : IPNet → list IPNet → list IPNet.
Variable select_plan : nat → SelectCase * Z.
Variable MachineIP : Prefix → Addr.
Variable prefixToIPNet : Prefix → IPNet.
Variable ipNetToPrefix : IPNet → Prefix + error.
Variable IPNet_String : IPNet → string.
Variable Prefix_String : Prefix → string.
Variable Secret_String : Secret → string.
Variable toDeviceConfig : Config → list wgPeer → wgConfig + error.
Variable prefixes : PeerConfig → list Prefix + error.
Variable IPSet_Prefixes : list Prefix → list Prefix + error.
Variable device_apply : wgConfig → list wgPeer → list wgPeer.
Variable newPeer : Z → PeerConfig → option wgPeer → peer.
Variable updateConfig : Z → peer → PeerConfig → peer.
Variable updateFromDevice : Z → peer → wgPeer → peer * bool.
Variable shouldChangeEndpoint : Z → peer → peer * option AddrPort.

Local Abbreviation Configure :=
  (Configure fault addr_clash addr_left MachineIP prefixToIPNet ipNetToPrefix IPNet_String Prefix_String
             Secret_String toDeviceConfig prefixes IPSet_Prefixes device_apply newPeer
             updateConfig).
Local Abbreviation configureDevice :=
  (configureDevice fault Secret_String toDeviceConfig device_apply newPeer updateConfig).
Local Abbreviation Run_tick := (Run_tick fault select_plan Secret_String device_apply updateConfig
                                     updateFromDevice shouldChangeEndpoint).

Lemma link_Attrs_nil s : link (net s) = None → link_Attrs s = (Panic nil_dereference, s).
Proof. intros H. cbv [link_Attrs bind get_net]. by rewrite H. Qed.

(** X20. After a [Cleanup] that returned nil, the link field is nil and the
    network is not running, and the object cannot be used again: a second
    [Cleanup] panics on the nil link, so does every tick of the control
    loop, and so does [Configure], unless its WireGuard client cannot be
    created, which it reports. *)
Theorem Cleanup_is_final (s s1 : State) :
  Cleanup fault s = (Ret None, s1) →
  link (net s1) = None ∧ running (net s1) = false ∧
  Cleanup fault s1 = (Panic nil_dereference, s1) ∧
  (∀ t, (Run_tick t s1).1 = Panic nil_dereference) ∧
  (∀ config, (Configure config s1).1 =
     match fault (k_calls (kernel s1)) with
     | Some e => Ret (Some (Wrapf "create WireGuard client" (Errno e)))
     | None => Panic nil_dereference
     end).
Proof.
  intros H.
  assert (Hs1 : link (net s1) = None ∧ running (net s1) = false).
  { revert H. unfold Cleanup, LinkDel, on_link, syscall.
    cbv [link_Attrs bind get_net get_kernel put_kernel put_net slog ret panic].
    destruct (running (net s)) eqn:Hr; [discriminate|].
    destruct (link (net s)); [|discriminate].
    destruct (fault _); [discriminate|]. simpl.
    destruct (k_link (kernel s)); simpl; [|discriminate].
    intros [= <-]. simpl. by rewrite Hr. }
  destruct Hs1 as [Hl Hr]. split_and!; [done | done | | |].
  - unfold Cleanup. cbv [bind get_net]. rewrite Hr. by rewrite link_Attrs_nil.
  - intros t. unfold Network.Run_tick, Network.updatePeersFromDevice.
    cbv [bind clock_at]. rewrite wgctrl_New_eq.
    destruct (fault _); simpl.
    + unfold log_failure, bind. by rewrite link_Attrs_nil.
    + by rewrite link_Attrs_nil.
  - intros config. unfold Network.Configure, Network.configureDevice. unfold bind.
    rewrite wgctrl_New_eq. destruct (fault _); simpl; [done|].
    by rewrite link_Attrs_nil.
Qed.

(** *** The link in the kernel *)

Lemma klink_syscall {A} (body : Kernel → Kernel * (A + error)) :
  (∀ k, k_link (body k).1 = k_link k) →
  keeps klink_view (syscall fault body).
Proof.
  intros Hb s r s' H. unfold syscall in H. cbv [bind get_kernel put_kernel ret] in H.
  destruct (fault _).
  - by simplify_eq.
  - specialize (Hb (bump (kernel s))). destruct (body _) as [k' r']. by simplify_eq.
Qed.

Lemma klink_on_link {A} (body : Kernel → Kernel * (A + error)) :
  (∀ k, k_link (body k).1 = k_link k) →
  keeps klink_view (on_link fault body).
Proof.
  intros Hb. apply klink_syscall. intros k. destruct (k_link k) eqn:E; [by rewrite Hb | done].
Qed.

Lemma klink_slog l m e : keeps klink_view (slog l m e).
Proof. keeps_prim. Qed.
Lemma klink_put_net n : keeps klink_view (put_net n).
Proof. keeps_prim. Qed.
Hint Resolve klink_slog klink_put_net : keeps.

Ltac klink_request :=
  first [apply klink_on_link | apply klink_syscall]; intros k; repeat case_match; done.

Lemma klink_wgctrl_New : keeps klink_view (wgctrl_New fault).
Proof. unfold wgctrl_New. keeps_auto. klink_request. Qed.
Lemma klink_wg_Device name : keeps klink_view (wg_Device fault name).
Proof. unfold wg_Device. klink_request. Qed.
Lemma klink_wg_ConfigureDevice name cfg :
  keeps klink_view (wg_ConfigureDevice fault device_apply name cfg).
Proof. unfold wg_ConfigureDevice. keeps_auto. klink_request. Qed.
Lemma klink_AddrAdd a : keeps klink_view (AddrAdd fault addr_clash a).
Proof. unfold AddrAdd. keeps_auto. klink_request. Qed.
Lemma klink_AddrDel a : keeps klink_view (AddrDel fault addr_left a).
Proof. unfold AddrDel. keeps_auto. klink_request. Qed.
Lemma klink_AddrList : keeps klink_view (AddrList fault).
Proof. unfold AddrList. klink_request. Qed.
Lemma klink_RouteAdd r : keeps klink_view (RouteAdd fault r).
Proof. unfold RouteAdd. keeps_auto. klink_request. Qed.
Lemma klink_RouteDel r : keeps klink_view (RouteDel fault r).
Proof. unfold RouteDel. keeps_auto. klink_request. Qed.
Lemma klink_RouteList : keeps klink_view (RouteList fault).
Proof. unfold RouteList. klink_request. Qed.

Hint Resolve klink_wgctrl_New klink_wg_Device klink_wg_ConfigureDevice klink_AddrAdd
  klink_AddrDel klink_AddrList klink_RouteAdd klink_RouteDel klink_RouteList : keeps.

Lemma klink_configureDevice config : keeps klink_view (configureDevice config).
Proof. unfold Network.configureDevice. keeps_auto. Qed.

Lemma klink_add_addrs addrs : keeps klink_view (add_addrs fault addr_clash prefixToIPNet addrs).
Proof. induction addrs; simpl; keeps_auto. Qed.
Lemma klink_del_addrs addrs linkAddrs :
  keeps klink_view (del_addrs fault addr_left IPNet_String Prefix_String addrs linkAddrs).
Proof. induction linkAddrs; simpl; keeps_auto. Qed.
Hint Resolve klink_add_addrs klink_del_addrs : keeps.

Lemma klink_updateAddresses addrs :
  keeps klink_view (updateAddresses fault addr_clash addr_left prefixToIPNet IPNet_String Prefix_String addrs).
Proof. unfold updateAddresses. keeps_auto. Qed.

Lemma klink_add_routes prefs : keeps klink_view (add_routes fault prefixToIPNet prefs).
Proof. induction prefs; simpl; keeps_auto. Qed.
Lemma klink_del_routes added routes :
  keeps klink_view (del_routes fault ipNetToPrefix added routes).
Proof. induction routes; simpl; keeps_auto. Qed.
Hint Resolve klink_add_routes klink_del_routes : keeps.

Lemma klink_updatePeerRoutes :
  keeps klink_view (updatePeerRoutes fault prefixToIPNet ipNetToPrefix prefixes IPSet_Prefixes).
Proof. unfold updatePeerRoutes. keeps_auto. Qed.

Hint Resolve klink_configureDevice klink_updateAddresses klink_updatePeerRoutes : keeps.

Lemma up_after_set f : Z.land (Z.lor f IFF_UP) IFF_UP = IFF_UP.
Proof.
  unfold IFF_UP. change 1%Z with (Z.ones 1) at 2. rewrite Z.land_ones by lia.
  change (2 ^ 1)%Z with 2%Z. rewrite <- Z.bit0_mod, Z.lor_spec. simpl.
  by rewrite orb_true_r.
Qed.

Lemma LinkSetUp_spec s s' :
  LinkSetUp fault s = (Ret None, s') →
  ∃ kl, k_link (kernel s') = Some kl ∧ is_up kl.
Proof.
  unfold LinkSetUp, on_link, syscall. cbv [bind get_kernel put_kernel ret].
  destruct (fault _); [discriminate|]. simpl.
  destruct (k_link (kernel s)) as [l|]; [|discriminate]. simpl.
  intros [= <-]. simpl. eexists. split; [done|]. apply up_after_set.
Qed.

(** *** The peers, in the driver and in the device *)

Lemma pv_syscall {A} (body : Kernel → Kernel * (A + error)) :
  (∀ k, k_peers (body k).1 = k_peers k) →
  keeps peers_view (syscall fault body).
Proof.
  intros Hb s r s' H. unfold syscall in H. cbv [bind get_kernel put_kernel ret] in H.
  destruct (fault _).
  - by simplify_eq.
  - specialize (Hb (bump (kernel s))). destruct (body _) as [k' r'].
    simplify_eq. unfold peers_view. simpl in *. by rewrite Hb.
Qed.

Lemma pv_on_link {A} (body : Kernel → Kernel * (A + error)) :
  (∀ k, k_peers (body k).1 = k_peers k) →
  keeps peers_view (on_link fault body).
Proof.
  intros Hb. apply pv_syscall. intros k. destruct (k_link k) eqn:E; [by rewrite Hb | done].
Qed.

Lemma pv_slog l m e : keeps peers_view (slog l m e).
Proof. keeps_prim. Qed.
Hint Resolve pv_slog : keeps.

Ltac pv_request :=
  first [apply pv_on_link | apply pv_syscall]; intros k; repeat case_match; done.

Lemma pv_AddrAdd a : keeps peers_view (AddrAdd fault addr_clash a).
Proof. unfold AddrAdd. keeps_auto. pv_request. Qed.
Lemma pv_AddrDel a : keeps peers_view (AddrDel fault addr_left a).
Proof. unfold AddrDel. keeps_auto. pv_request. Qed.
Lemma pv_AddrList : keeps peers_view (AddrList fault).
Proof. unfold AddrList. pv_request. Qed.
Lemma pv_RouteAdd r : keeps peers_view (RouteAdd fault r).
Proof. unfold RouteAdd. keeps_auto. pv_request. Qed.
Lemma pv_RouteDel r : keeps peers_view (RouteDel fault r).
Proof. unfold RouteDel. keeps_auto. pv_request. Qed.
Lemma pv_RouteList : keeps peers_view (RouteList fault).
Proof. unfold RouteList. pv_request. Qed.
Lemma pv_LinkSetUp : keeps peers_view (LinkSetUp fault).
Proof. unfold LinkSetUp. keeps_auto. pv_request. Qed.

Hint Resolve pv_AddrAdd pv_AddrDel pv_AddrList pv_RouteAdd pv_RouteDel pv_RouteList
  pv_LinkSetUp : keeps.

Lemma pv_add_addrs addrs : keeps peers_view (add_addrs fault addr_clash prefixToIPNet addrs).
Proof. induction addrs; simpl; keeps_auto. Qed.
Lemma pv_del_addrs addrs linkAddrs :
  keeps peers_view (del_addrs fault addr_left IPNet_String Prefix_String addrs linkAddrs).
Proof. induction linkAddrs; simpl; keeps_auto. Qed.
Hint Resolve pv_add_addrs pv_del_addrs : keeps.

Lemma pv_updateAddresses addrs :
  keeps peers_view (updateAddresses fault addr_clash addr_left prefixToIPNet IPNet_String Prefix_String addrs).
Proof. unfold updateAddresses. keeps_auto. Qed.

Lemma pv_add_routes prefs : keeps peers_view (add_routes fault prefixToIPNet prefs).
Proof. induction prefs; simpl; keeps_auto. Qed.
Lemma pv_del_routes added routes :
  keeps peers_view (del_routes fault ipNetToPrefix added routes).
Proof. induction routes; simpl; keeps_auto. Qed.
Hint Resolve pv_add_routes pv_del_routes : keeps.

Lemma pv_updatePeerRoutes :
  keeps peers_view (updatePeerRoutes fault prefixToIPNet ipNetToPrefix prefixes IPSet_Prefixes).
Proof. unfold updatePeerRoutes. keeps_auto. Qed.

Hint Resolve pv_updateAddresses pv_updatePeerRoutes : keeps.

(** X12. [Configure] undoes nothing: whatever it returns, the network
    object with its peers map and the peers of the device are as
    [configureDevice], its first step, left them; and when that step fails
    or panics, [Configure] ends there with the same outcome. *)
Theorem Configure_no_rollback (config : Config) (s s' : State) (r : outcome (option error)) :
  Configure config s = (r, s') →
  ∃ rd s1, configureDevice config s = (rd, s1) ∧
           peers_view s' = peers_view s1 ∧
           (rd ≠ Ret None → r = rd ∧ s' = s1).
Proof.
  unfold Network.Configure. unfold bind at 1.
  destruct (configureDevice config s) as [[[e|]|why] s1] eqn:Hdev; intros H.
  - injection H as <- <-. by exists (Ret (Some e)), s1.
  - exists (Ret None), s1. split_and!; [done | | done].
    revert H. match goal with |- ?c s1 = _ → _ => assert (Hk : keeps peers_view c) end.
    { keeps_auto. }
    apply Hk.
  - injection H as <- <-. by exists (Panic why), s1.
Qed.

(** X13. When [Configure] returns nil, the link held by the network object
    is the one it held before: it is not fetched again. If the flags of that
    link lack IFF_UP, the kernel's link is up afterwards; if they have it,
    [Configure] leaves the kernel's link as it was. *)
Theorem Configure_brings_up (config : Config) (s s' : State) (l : Link) :
  Configure config s = (Ret None, s') →
  link (net s) = Some l →
  link (net s') = Some l ∧
  (¬ is_up l → ∃ kl, k_link (kernel s') = Some kl ∧ is_up kl) ∧
  (is_up l → k_link (kernel s') = k_link (kernel s)).
Proof.
  intros H Hl. unfold Network.Configure in H.
  apply check_inv in H as (s1 & Hdev & H).
  apply klink_configureDevice in Hdev as Hk1.
  assert (Hl1 : link (net s1) = Some l).
  { apply (configureDevice_inv fault Secret_String toDeviceConfig device_apply newPeer
             updateConfig) in Hdev as [[-> _]|(_ & _ & ->)]; done. }
  apply do_link_Attrs_inv in H.
  apply bind_Ret_inv in H as ([] & s2 & Hlog & H). injection Hlog as <-.
  destruct (addrToSingleIPPrefix (ManagementIP config)) as [mp|e]; [|discriminate H].
  apply check_inv in H as (s3 & Hupd & H).
  apply klink_updateAddresses in Hupd as Hk3.
  apply pv_updateAddresses in Hupd as Hv3. injection Hv3 as Hn3 _. simpl in Hn3.
  apply bind_Ret_inv in H as ([] & s4 & Hlog & H). injection Hlog as <-.
  apply bind_Ret_inv in H as (l' & s5 & Hattrs & H).
  assert (l' = l) as ->.
  { revert Hattrs. cbv [link_Attrs bind get_net ret]. simpl. rewrite Hn3, Hl1. by intros [= <-]. }
  apply link_Attrs_Ret in Hattrs as ->.
  apply check_inv in H as (s6 & Hup & H).
  assert (Hn6 : net s6 = net s3).
  { revert Hup. match goal with |- ?c ?st = _ → _ => assert (Hk : keeps peers_view c) end.
    { keeps_auto. }
    intros Hup. apply Hk in Hup. by injection Hup as -> _. }
  apply check_inv in H as (s7 & Hroutes & H).
  apply klink_updatePeerRoutes in Hroutes as Hk7.
  apply pv_updatePeerRoutes in Hroutes as Hv7. injection Hv7 as Hn7 _.
  apply bind_Ret_inv in H as ([] & s8 & Hlog & H). injection Hlog as <-. injection H as <-.
  unfold klink_view in *. simpl in *.
  split; [by rewrite Hn7, Hn6, Hn3|].
  destruct (decide (Z.land (Flags l) IFF_UP ≠ IFF_UP)) as [Hdown|Hisup].
  - split; [|by intros ?].
    intros _. apply check_inv in Hup as (s9 & Hset & Hup).
    apply LinkSetUp_spec in Hset as (kl & Hkl & Hklup).
    apply bind_Ret_inv in Hup as ([] & s10 & Hlog & Hup). injection Hlog as <-.
    injection Hup as <-. simpl in *. exists kl. by rewrite Hk7.
  - split; [intros Hn; by destruct Hisup|].
    intros _. injection Hup as <-. simpl in *. congruence.
Qed.

End Whole.

Lemma Cleanup_run : Cleanup no_fault fresh_state = (Ret None, (Cleanup no_fault fresh_state).2).
Proof. apply pair_with_fst. by vm_compute. Qed.


Lemma Cleanup_is_final_witness :
  let s1 := (Cleanup no_fault fresh_state).2 in
  link (net s1) = None ∧ running (net s1) = false ∧
  Cleanup no_fault s1 = (Panic nil_dereference, s1) ∧
  (∀ t, (sample_Run_tick t s1).1 = Panic nil_dereference) ∧
  (∀ config, (sample_Configure config s1).1 =
     match no_fault (k_calls (kernel s1)) with
     | Some e => Ret (Some (Wrapf "create WireGuard client" (Errno e)))
     | None => Panic nil_dereference
     end).
Proof.
  exact (Cleanup_is_final no_fault sample_addr_clash sample_addr_left ready_plan
           sample_MachineIP sample_prefixToIPNet
           sample_ipNetToPrefix sample_IPNet_String sample_Prefix_String sample_Secret_String
           sample_toDeviceConfig sample_prefixes sample_IPSet_Prefixes sample_device_apply
           sample_newPeer sample_updateConfig sample_updateFromDevice
           sample_shouldChangeEndpoint fresh_state _ Cleanup_run).
Defined.


Lemma Configure_no_rollback_witness :
  ∃ rd s1, sample_configureDevice bad_config fresh_state = (rd, s1) ∧
           peers_view (sample_Configure bad_config fresh_state).2 = peers_view s1 ∧
           (rd ≠ Ret None →
            (sample_Configure bad_config fresh_state).1 = rd ∧
            (sample_Configure bad_config fresh_state).2 = s1).
Proof.
  apply (Configure_no_rollback no_fault sample_addr_clash sample_addr_left
           sample_MachineIP sample_prefixToIPNet
           sample_ipNetToPrefix sample_IPNet_String sample_Prefix_String sample_Secret_String
           sample_toDeviceConfig sample_prefixes sample_IPSet_Prefixes sample_device_apply
           sample_newPeer sample_updateConfig bad_config fresh_state).
  by destruct (sample_Configure bad_config fresh_state).
Defined.

Example bad_config_outcome :
  (sample_Configure bad_config fresh_state).1
    = Ret (Some (Wrapf "parse management IP" (ErrorNew "invalid IP address"))) ∧
  k_peers (kernel (sample_Configure bad_config fresh_state).2)
    = [mkWgPeer m2_key (Some m2_endpoint) 0] ∧
  k_addrs (kernel (sample_Configure bad_config fresh_state).2) = k_addrs (kernel fresh_state).
Proof. by vm_compute. Qed.

Lemma watched_link : link (net watched_state) = Some sample_link.
Proof. by vm_compute. Qed.

Lemma Configure_brings_up_witness :
  link (net configured_state) = Some sample_link ∧
  (¬ is_up sample_link → ∃ kl, k_link (kernel configured_state) = Some kl ∧ is_up kl) ∧
  (is_up sample_link → k_link (kernel configured_state) = k_link (kernel watched_state)).
Proof.
  exact (Configure_brings_up no_fault sample_addr_clash sample_addr_left
           sample_MachineIP sample_prefixToIPNet
           sample_ipNetToPrefix sample_IPNet_String sample_Prefix_String sample_Secret_String
           sample_toDeviceConfig sample_prefixes sample_IPSet_Prefixes sample_device_apply
           sample_newPeer sample_updateConfig sample_config watched_state configured_state
           sample_link configured_run watched_link).
Defined.

Lemma fresh_chans : chans_fresh fresh_state.
Proof.
  unfold chans_fresh, watchers_open. split_and!.
  - apply NoDup_nil_2.
  - intros ch H. by apply elem_of_nil in H.
  - intros ch H. by apply elem_of_nil in H.
  - intros ch H. by apply elem_of_nil in H.
Qed.

Lemma WatchEndpoints_fresh_witness :
  ∃ s', WatchEndpoints fresh_state = (Ret (chan_next fresh_state), s') ∧
        watchers (net s') = watchers (net fresh_state) ++ [chan_next fresh_state] ∧
        chans_fresh s'.
Proof. exact (WatchEndpoints_fresh fresh_state fresh_chans). Defined.

(** *** [Configure] on a healthy interface *)

Section Total.

Variable fault : nat → option Z.
Variable addr_clash : IPNet → list IPNet → bool.
Variable addr_left : IPNet → list IPNet → list IPNet.
Variable MachineIP : Prefix → Addr.
Variable prefixToIPNet : Prefix → IPNet.
Variable ipNetToPrefix : IPNet → Prefix + error.
Variable IPNet_String : IPNet → string.
Variable Prefix_String : Prefix → string.
Variable Secret_String : Secret → string.
Variable toDeviceConfig : Config → list wgPeer → wgConfig + error.
Variable prefixes : PeerConfig → list Prefix + error.
Variable IPSet_Prefixes : list Prefix → list Prefix + error.
Variable device_apply : wgConfig → list wgPeer → list wgPeer.
Variable newPeer : Z → PeerConfig → option wgPeer → peer.
Variable updateConfig : Z → peer → PeerConfig → peer.

Hypothesis no_faults : ∀ n, fault n = None.
Hypothesis clash_rule : borne_clash addr_clash.
Hypothesis left_rule : left_exact addr_left.
Hypothesis reads_back : ∀ p, ∃ q, ipNetToPrefix (prefixToIPNet p) = inl q.
Hypothesis prefixes_total : ∀ pc, ∃ ps, prefixes pc = inl ps.
Hypothesis IPSet_total : ∀ ps, ∃ set, IPSet_Prefixes ps = inl set.

Variable l : Link.

Local Abbreviation healthy := (healthy ipNetToPrefix l).
Local Abbreviation Configure :=
  (Configure fault addr_clash addr_left MachineIP prefixToIPNet ipNetToPrefix IPNet_String Prefix_String
             Secret_String toDeviceConfig prefixes IPSet_Prefixes device_apply newPeer
             updateConfig).
Local Abbreviation configureDevice :=
  (configureDevice fault Secret_String toDeviceConfig device_apply newPeer updateConfig).

Lemma triple_pre {A} (P P' : State → Prop) (Q : A → State → Prop) (c : M A) :
  (∀ s, P' s → P s) → triple P c Q → triple P' c Q.
Proof. intros HP Hc s Hs. exact (Hc s (HP s Hs)). Qed.

Lemma syscall_ok {A} (body : Kernel → Kernel * (A + error)) s :
  syscall fault body s
    = (Ret (body (bump (kernel s))).2, set_kernel (body (bump (kernel s))).1 s).
Proof.
  unfold syscall. cbv [bind get_kernel put_kernel ret]. rewrite no_faults.
  by destruct (body _).
Qed.

Lemma on_link_ok {A} (body : Kernel → Kernel * (A + error)) s :
  healthy s →
  on_link fault body s
    = (Ret (body (bump (kernel s))).2, set_kernel (body (bump (kernel s))).1 s).
Proof.
  intros (_ & (kl & Hkl & _) & _). unfold on_link. rewrite syscall_ok. simpl. by rewrite Hkl.
Qed.

Lemma healthy_served s : healthy s → healthy (served s).
Proof. by intros H. Qed.

Lemma healthy_logged e s : healthy s → healthy (logged e s).
Proof. by intros H. Qed.

Lemma total_slog lv m e : triple healthy (slog lv m e) (λ _, healthy).
Proof. intros s H. by exists tt, (logged (mkLog lv m e) s). Qed.

Lemma link_Attrs_ok s : healthy s → link_Attrs s = (Ret l, s).
Proof. intros (Hl & _). cbv [link_Attrs bind get_net]. by rewrite Hl. Qed.

Lemma total_link_Attrs : triple healthy link_Attrs (λ r s, r = l ∧ healthy s).
Proof. intros s H. exists l, s. by rewrite link_Attrs_ok. Qed.

Lemma total_wgctrl_New : triple healthy (wgctrl_New fault) (λ r s, r = None ∧ healthy s).
Proof.
  intros s H. exists None, (served s). rewrite wgctrl_New_eq, no_faults. by split.
Qed.

(** *** Addresses *)

Lemma total_AddrAdd a :
  triple healthy (AddrAdd fault addr_clash a)
         (λ r s, (r = None ∨ r = Some (Errno EEXIST)) ∧ healthy s).
Proof.
  intros s H. unfold AddrAdd, bind. rewrite on_link_ok by done.
  destruct H as (Hl & Hk & Ha & Hr & Hp). simpl.
  destruct (addr_clash a (k_addrs (kernel s))) eqn:Hclash; simpl.
  - eexists _, _. split; [reflexivity|]. split; [by right|]. by split_and!.
  - eexists _, _. split; [reflexivity|]. split; [by left|]. split_and!; simpl; auto.
    apply NoDup_app. split_and!; [done | | apply NoDup_singleton].
    intros x Hx ->%list_elem_of_singleton.
    apply clash_rule in Hx. congruence.
Qed.

Lemma total_add_addrs addrs :
  triple healthy (add_addrs fault addr_clash prefixToIPNet addrs) (λ r s, r = None ∧ healthy s).
Proof.
  induction addrs as [|addr rest IH]; simpl.
  - intros s H. by exists None, s.
  - eapply triple_bind; [apply total_link_Attrs|]. intros ?.
    eapply triple_bind.
    { eapply triple_pre; [|apply total_AddrAdd]. by intros s [_ H]. }
    intros r. intros s [[->| ->] H]; simpl; by apply IH.
Qed.

Lemma total_del_addrs addrs linkAddrs :
  NoDup linkAddrs →
  triple (λ s, healthy s ∧ ∀ x, x ∈ linkAddrs → x ∈ k_addrs (kernel s))
         (del_addrs fault addr_left IPNet_String Prefix_String addrs linkAddrs)
         (λ r s, r = None ∧ healthy s).
Proof.
  induction linkAddrs as [|la rest IH]; intros Hnd; simpl.
  - intros s [H _]. by exists None, s.
  - apply NoDup_cons in Hnd as [Hnin Hnd].
    destruct (wanted IPNet_String Prefix_String addrs la).
    + eapply triple_pre; [|apply (IH Hnd)].
      intros s [H Hin]. split; [done|]. intros x Hx. apply Hin. by right.
    + intros s [H Hin]. unfold bind at 1.
      rewrite link_Attrs_ok by done.
      unfold bind at 1. unfold AddrDel, bind at 1. rewrite on_link_ok by done. simpl.
      rewrite decide_True by (apply Hin; by left). simpl. rewrite left_rule.
      apply (IH Hnd). destruct H as (Hl & Hk & Ha & Hr & Hp).
      split; [split_and!; simpl; auto; by apply NoDup_filter|].
      intros x Hx. simpl. apply list_elem_of_filter. split; [by intros ->|].
      apply Hin. by right.
Qed.

Lemma total_updateAddresses addrs :
  triple healthy (updateAddresses fault addr_clash addr_left prefixToIPNet IPNet_String Prefix_String addrs)
         (λ r s, r = None ∧ healthy s).
Proof.
  unfold updateAddresses.
  eapply triple_bind; [apply total_add_addrs|]. intros r s [-> H].
  unfold bind at 1. rewrite link_Attrs_ok by done.
  unfold bind at 1. unfold AddrList. rewrite on_link_ok by done. simpl.
  apply total_del_addrs.
  - by destruct H as (_ & _ & Ha & _).
  - split; [done|]. by intros x Hx.
Qed.

(** *** Routes *)

Lemma total_RouteAdd p :
  triple healthy (RouteAdd fault (mkRoute (Index l) SCOPE_LINK (Some (prefixToIPNet p))))
         (λ r s, (r = None ∨ r = Some (Errno EEXIST)) ∧ healthy s).
Proof.
  intros s H. unfold RouteAdd, bind. rewrite on_link_ok by done.
  destruct H as (Hl & Hk & Ha & Hr & Hp). simpl.
  destruct (decide (_ ∈ k_routes (kernel s))) as [Hin|Hnin]; simpl.
  - eexists _, _. split; [reflexivity|]. split; [by right|]. by split_and!.
  - eexists _, _. split; [reflexivity|]. split; [by left|]. split_and!; simpl; auto.
    + apply NoDup_app. split_and!; [done | | apply NoDup_singleton].
      intros x Hx ->%list_elem_of_singleton. done.
    + apply Forall_app. split; [done|]. apply Forall_singleton.
      destruct (reads_back p) as [q Hq]. by exists (prefixToIPNet p), q.
Qed.

Lemma total_add_routes prefs :
  triple healthy (add_routes fault prefixToIPNet prefs) (λ r s, r = None ∧ healthy s).
Proof.
  induction prefs as [|p rest IH]; simpl.
  - intros s H. by exists None, s.
  - eapply triple_bind; [apply total_link_Attrs|]. intros ? s [-> H].
    revert s H. eapply triple_bind; [apply total_RouteAdd|].
    intros r s [[->| ->] H]; simpl; [|by apply IH].
    unfold bind at 1. cbv [slog]. by apply IH.
Qed.

Lemma total_del_routes added routes :
  NoDup routes → Forall (parseable ipNetToPrefix) routes →
  triple (λ s, healthy s ∧ ∀ x, x ∈ routes → x ∈ k_routes (kernel s))
         (del_routes fault ipNetToPrefix added routes)
         (λ r s, r = None ∧ healthy s).
Proof.
  induction routes as [|route rest IH]; intros Hnd Hparse; simpl.
  - intros s [H _]. by exists None, s.
  - apply NoDup_cons in Hnd as [Hnin Hnd].
    apply Forall_cons in Hparse as [(dst & p & Hdst & Hp) Hparse].
    rewrite Hdst, Hp.
    destruct (bool_decide (p ∈ added)).
    + eapply triple_pre; [|apply (IH Hnd Hparse)].
      intros s [H Hin]. split; [done|]. intros x Hx. apply Hin. by right.
    + intros s [H Hin]. unfold bind at 1.
      unfold RouteDel, bind at 1. rewrite on_link_ok by done. simpl.
      rewrite decide_True by (apply Hin; by left). simpl.
      unfold bind at 1. cbv [slog].
      apply (IH Hnd Hparse). destruct H as (Hl & Hk & Ha & Hr & Hps).
      split.
      { split_and!; simpl; auto; [by apply NoDup_filter|].
        apply Forall_forall. intros x [_ Hx]%list_elem_of_filter.
        by eapply Forall_forall in Hps. }
      intros x Hx. simpl. apply list_elem_of_filter. split; [by intros ->|].
      apply Hin. by right.
Qed.

Lemma peer_prefixes_total ps : ∀ acc, ∃ all, peer_prefixes prefixes ps acc = inl all.
Proof.
  induction ps as [|p ps IH]; intros acc; simpl; [eauto|].
  destruct (prefixes_total (config p)) as [x ->]. apply IH.
Qed.

Lemma total_updatePeerRoutes :
  triple healthy
         (updatePeerRoutes fault prefixToIPNet ipNetToPrefix prefixes IPSet_Prefixes)
         (λ r s, r = None ∧ healthy s).
Proof.
  intros s H. unfold updatePeerRoutes. cbv [bind get_net].
  destruct (peer_prefixes_total (peers_list (net s)).*2 []) as [added ->].
  destruct (IPSet_total added) as [ipset ->].
  destruct (total_add_routes ipset s H) as (? & s1 & -> & -> & H1).
  rewrite link_Attrs_ok by done.
  unfold RouteList. rewrite on_link_ok by done. simpl.
  destruct H1 as (Hl & Hk & Ha & Hr & Hp).
  apply total_del_routes; [done | done |].
  split; [by split_and!|]. by intros x Hx.
Qed.

(** *** The device *)

Lemma total_configureDevice config :
  (∀ devPeers, ∃ cfg, toDeviceConfig config devPeers = inl cfg) →
  triple healthy (configureDevice config) (λ r s, r = None ∧ healthy s).
Proof.
  intros Hcfg s H. unfold Network.configureDevice.
  unfold bind at 1. rewrite wgctrl_New_eq, no_faults. simpl.
  unfold bind at 1. rewrite link_Attrs_ok by done.
  unfold bind at 1. unfold wg_Device. rewrite syscall_ok.
  destruct H as (Hl & (kl & Hkl & Hname) & Ha & Hr & Hp). simpl.
  rewrite Hkl. simpl. rewrite decide_True by done. simpl.
  cbv [bind get put_net]. simpl.
  destruct (Hcfg (k_peers (kernel s))) as [cfg ->].
  unfold wg_ConfigureDevice, bind. rewrite syscall_ok. simpl.
  rewrite Hkl. simpl. rewrite decide_True by done. simpl.
  eexists _, _. split; [reflexivity|]. split; [done|].
  split_and!; simpl; eauto.
Qed.

Lemma total_LinkSetUp : triple healthy (LinkSetUp fault) (λ r s, r = None ∧ healthy s).
Proof.
  intros s H. unfold LinkSetUp, bind. rewrite on_link_ok by done. simpl.
  eexists _, _. split; [reflexivity|]. split; [done|].
  destruct H as (Hl & (kl & Hkl & Hname) & Ha & Hr & Hp).
  split_and!; simpl; auto. rewrite Hkl. simpl. eauto.
Qed.

(** X23. [Configure] succeeds on a healthy interface, on a kernel that
    answers EEXIST for an address the interface bears with that prefix
    length and whose [AddrDel] deletes the named address and nothing else.
    No request to the kernel fails otherwise; the prefixes of a peer and of the set of all peers can
    always be computed, and [ipNetToPrefix] reads every destination made by
    [prefixToIPNet]. The network object holds the link [l], the kernel has a
    link of that name, lists no address and no route twice, and every route
    there has a destination that can be read. Then for a configuration that
    has a device configuration and a valid management IP, [Configure]
    returns nil, and leaves the interface healthy: it can be configured
    again. *)
Theorem Configure_total (config : Config) (s : State) :
  (∀ devPeers, ∃ cfg, toDeviceConfig config devPeers = inl cfg) →
  (∃ mp, addrToSingleIPPrefix (ManagementIP config) = inl mp) →
  healthy s →
  ∃ s', Configure config s = (Ret None, s') ∧ healthy s'.
Proof.
  intros Hcfg [mp Hmp] H.
  cut (triple healthy (Configure config) (λ r s, r = None ∧ healthy s)).
  { intros HT. destruct (HT s H) as (r & s' & E & -> & H'). eauto. }
  clear s H. unfold Network.Configure.
  eapply triple_bind; [by apply total_configureDevice|]. intros ? s [-> H]. revert s H.
  eapply triple_bind; [apply total_link_Attrs|]. intros ? s [-> H]. revert s H.
  eapply triple_bind; [apply total_slog|]. intros [].
  rewrite Hmp.
  eapply triple_bind; [apply total_updateAddresses|]. intros ? s [-> H]. revert s H.
  eapply triple_bind; [apply total_slog|]. intros [].
  eapply triple_bind; [apply total_link_Attrs|]. intros ? s [-> H]. revert s H.
  eapply triple_bind.
  { instantiate (1 := λ r s, r = None ∧ healthy s).
    destruct (decide (Z.land (Flags l) IFF_UP ≠ IFF_UP)).
    - eapply triple_bind; [apply total_LinkSetUp|]. intros ? s [-> H]. revert s H.
      eapply triple_bind; [apply total_slog|]. intros []. intros s H. by exists None, s.
    - intros s H. by exists None, s. }
  intros ? s [-> H]. revert s H.
  eapply triple_bind; [apply total_updatePeerRoutes|]. intros ? s [-> H]. revert s H.
  eapply triple_bind; [apply total_slog|]. intros []. intros s H. by exists None, s.
Qed.

End Total.

Lemma watched_healthy : healthy sample_ipNetToPrefix sample_link watched_state.
Proof.
  assert (El : link (net watched_state) = Some sample_link) by (by vm_compute).
  assert (Ek : kernel watched_state = sample_kernel) by (by vm_compute).
  unfold healthy. rewrite El, Ek. simpl. split_and!.
  - done.
  - by exists sample_link.
  - apply NoDup_singleton.
  - apply NoDup_nil_2.
  - apply Forall_nil_2.
Qed.

(** Without the rule for [AddrDel], [Configure] can fail on a healthy
    interface: on Linux, removing 192.168.0.5/24 takes 192.168.0.6/24, a
    secondary address, along; [AddrDel] of that one then fails, and
    [Configure] returns the error with the link still down. *)
Example Configure_secondary_gone :
  (linux_Configure sample_config (bearing lan_addrs)).1
    = Ret (Some (Wrapf "remove address from WireGuard link" (Errno EADDRNOTAVAIL))) ∧
  (Flags <$> k_link (kernel (linux_Configure sample_config (bearing lan_addrs)).2))
    = Some 0%Z.
Proof. by vm_compute. Qed.

Lemma Configure_total_witness :
  ∃ s', sample_Configure sample_config watched_state = (Ret None, s') ∧
        healthy sample_ipNetToPrefix sample_link s'.
Proof.
  apply (Configure_total no_fault sample_addr_clash sample_addr_left
           sample_MachineIP sample_prefixToIPNet
           sample_ipNetToPrefix sample_IPNet_String sample_Prefix_String sample_Secret_String
           sample_toDeviceConfig sample_prefixes sample_IPSet_Prefixes sample_device_apply
           sample_newPeer sample_updateConfig).
  - done.
  - intros a l H. by apply bool_decide_eq_true.
  - done.
  - intros p. by eexists.
  - intros pc. by eexists.
  - intros ps. by eexists.
  - intros devPeers. by eexists.
  - by eexists.
  - exact watched_healthy.
Defined.


End NetworkFacts.

(* ===================================================================== *)
(** ** The command line: facts                                            *)
(* ===================================================================== *)

Module CliFacts.
Import Network Cli.

Lemma HasPrefix_split prefix : ∀ s,
  HasPrefix s prefix = true → s = prefix +:+ string_from (String.length prefix) s.
Proof.
  unfold HasPrefix. induction prefix as [|a p IH]; intros s H; [done|].
  destruct s as [|b s]; simpl in H; [done|].
  destruct (Ascii.ascii_dec a b) as [->|]; [|done].
  change (String b s = String b (p +:+ string_from (String.length p) s)).
  f_equal. by apply IH.
Qed.

Lemma HasPrefix_app prefix s : HasPrefix (prefix +:+ s) prefix = true.
Proof.
  unfold HasPrefix. induction prefix as [|a p IH]; [by destruct s|].
  change (String.prefix (String a p) (String a (p +:+ s)) = true). simpl.
  by destruct (Ascii.ascii_dec a a).
Qed.

Lemma string_from_app prefix s : string_from (String.length prefix) (prefix +:+ s) = s.
Proof.
  induction prefix as [|a p IH]; [done|].
  change (string_from (String.length p) (p +:+ s) = s). exact IH.
Qed.

Section ConnectFacts.
Variable ParseAddrPort : string → AddrPort + error.

(** X21. The [--connect] flag. The connection is nil exactly for the empty
    flag. A TCP connection comes from a flag [tcp://rest] whose [rest] parses
    as an address and port, and has no SSH destination. An SSH connection
    comes from a flag without the [tcp://] prefix, and its destination is the
    flag itself, or the flag without its [ssh://] prefix. An error comes
    only from a flag [tcp://rest] whose [rest] does not parse, and wraps the
    error of the parser. *)
Theorem connection_cases (connect : string) :
  match connection ParseAddrPort connect with
  | inl None => connect = ""
  | inl (Some conn) =>
    connect ≠ "" ∧
    match TCP conn with
    | Some addrPort =>
      SSH conn = "" ∧
      ∃ rest, connect = "tcp://" +:+ rest ∧ ParseAddrPort rest = inl addrPort
    | None =>
      HasPrefix connect "tcp://" = false ∧
      (connect = SSH conn ∧ HasPrefix connect "ssh://" = false ∨
       connect = "ssh://" +:+ SSH conn)
    end
  | inr err =>
    ∃ rest e, connect = "tcp://" +:+ rest ∧ ParseAddrPort rest = inr e ∧
              err = Wrapf "parse TCP address" e
  end.
Proof.
  unfold connection. destruct (decide (connect ≠ "")) as [Hne|He].
  - destruct (HasPrefix connect "tcp://") eqn:Htcp.
    + apply HasPrefix_split in Htcp.
      destruct (ParseAddrPort _) as [ap|e] eqn:Hp.
      * simpl. split_and!; [done | done |]. eauto.
      * eauto.
    + simpl. split_and!; [done | done |].
      destruct (HasPrefix connect "ssh://") eqn:Hssh.
      * right. by apply HasPrefix_split in Hssh.
      * by left.
  - by destruct (decide (connect = "")).
Qed.

(** X22. The [ssh://] scheme is optional: for a destination that is not
    empty and starts with neither [tcp://] nor [ssh://], the flag with and
    without [ssh://] in front gives the same SSH connection, to that
    destination. *)
Theorem connection_ssh_optional (dest : string) :
  dest ≠ "" → HasPrefix dest "tcp://" = false → HasPrefix dest "ssh://" = false →
  connection ParseAddrPort ("ssh://" +:+ dest) = connection ParseAddrPort dest ∧
  connection ParseAddrPort dest = inl (Some (mkConn dest None)).
Proof.
  intros Hne Htcp Hssh. unfold connection at 2 3.
  rewrite decide_True by done. rewrite Htcp, Hssh. split; [|done].
  unfold connection. rewrite decide_True by done.
  change (HasPrefix ("ssh://" +:+ dest) "tcp://") with false. cbv iota.
  rewrite HasPrefix_app. by rewrite (string_from_app "ssh://").
Qed.

End ConnectFacts.


Lemma connection_ssh_optional_witness :
  connection sample_ParseAddrPort ("ssh://" +:+ "root@host:22")
    = connection sample_ParseAddrPort "root@host:22" ∧
  connection sample_ParseAddrPort "root@host:22" = inl (Some (mkConn "root@host:22" None)).
Proof.
  apply (connection_ssh_optional sample_ParseAddrPort "root@host:22"); done.
Defined.

Example connection_samples :
  connection sample_ParseAddrPort "tcp://10.210.0.1:51000"
    = inl (Some (mkConn "" (Some (mkAddrPort (Addr4 181534721) 51000)))) ∧
  connection sample_ParseAddrPort "tcp://host"
    = inr (Wrapf "parse TCP address" (ErrorNew "not an ip:port")) ∧
  connection sample_ParseAddrPort "ssh://tcp://10.210.0.1:51000"
    = inl (Some (mkConn "tcp://10.210.0.1:51000" None)) ∧
  connection sample_ParseAddrPort "ssh://" = inl (Some (mkConn "" None)).
Proof. done. Qed.

End CliFacts.
